(** * Quantitative value investing strategy: the robust-value screener

    A shallow embedding of the code cells of
    [Quantitative_value_investing_strategy.ipynb]: the raw field bag fetched
    per symbol, the two enterprise-value ratios with their [try]/[except],
    mean imputation ([fillna]), percentile ranks ([stats.percentileofscore]),
    the RV score ([statistics.mean]), the selection of the fifty cheapest
    names ([sort_values] and [[:50]]), the interactive portfolio size
    ([portfolio_input]) and the share allocation ([math.floor]).

    Numbers.  The value of a float is an exact rational [Q].  In the data
    frame (ratios, means, percentiles, scores) the arithmetic is exact:
    rounding moves a mean or a percentile by a unit in the last place and
    overflow to infinity is outside the frame.  Where an integer or an
    exception is decided by the binary64 arithmetic itself, it is modelled:
    [float(portfolio_size)] rounds the decimal entry to the nearest binary64
    value, the two divisions of the allocation round their quotients, and
    infinities and NaN are values ([pyfloat]).  In a data frame cell,
    Python's [None] and [np.NaN] are both the missing value of pandas
    ([isnull]); a metric cell is an [option Q] and [None] is that missing
    value.  The percentile cell is modelled on the frames the imputation
    cell leaves, where no cell holds Python's [None]. *)

From Stdlib Require Import String Ascii.
From Stdlib Require Import List Bool Arith ZArith NArith.
From Stdlib Require Import QArith Qround Qabs Qpower Qreduction Lia Lqa.
From Stdlib Require Import Permutation Sorted.
From Stdlib Require Qcanon.
Import ListNotations.

Local Open Scope Q_scope.

(** ** Python exceptions and results *)

Inductive exn : Type :=
| TypeError
| ZeroDivisionError
| ValueError
| OverflowError
| NameError.

Inductive result (A : Type) : Type :=
| Ok (a : A)
| Raise (e : exn).

Arguments Ok {A} a.
Arguments Raise {A} e.

Definition bind {A B : Type} (m : result A) (k : A -> result B) : result B :=
  match m with
  | Ok a => k a
  | Raise e => Raise e
  end.

Notation "x <- m ;; k" := (bind m (fun x => k))
  (at level 61, m at next level, right associativity).

(** ** Data model *)

(** A value of the provider's JSON payload, as far as the division sees it:
    [null], a number, or anything else that is not a number. *)
Inductive json : Type :=
| JNull
| JNum (q : Q)
| JStr (s : string).

(** The fields read from [data[symbol]]: four are copied into the frame as
    they are (a number or [null]), three are operands of a division. *)
Record raw_fields : Type := mkRaw {
  latestPrice : option Q;
  peRatio : option Q;
  priceToBook : option Q;
  priceToSales : option Q;
  enterpriseValue : json;
  EBITDA : json;
  grossProfit : json
}.

(** A cell that starts as the string 'N/A' and is overwritten by a later
    cell of the notebook. *)
Inductive pending (A : Type) : Type :=
| NA
| Computed (a : A).

Arguments NA {A}.
Arguments Computed {A} a.

(** One row of [rv_dataframe], in the order of [rv_columns]. *)
Record row : Type := mkRow {
  Ticker : string;
  Price : option Q;
  Shares : pending Z;
  PE_Ratio : option Q;
  PE_Percentile : pending (option Q);
  PB_Ratio : option Q;
  PB_Percentile : pending (option Q);
  PS_Ratio : option Q;
  PS_Percentile : pending (option Q);
  EV_EBITDA : option Q;
  EV_EBITDA_Percentile : pending (option Q);
  EV_GP : option Q;
  EV_GP_Percentile : pending (option Q);
  RV_Score : pending (option Q)
}.

Definition universe : Type := list row.

(** The keys of the dictionary [metrics], in insertion order. *)
Inductive metric : Type := PE | PB | PS | EVEBITDA | EVGP.

Definition metrics_keys : list metric := [PE; PB; PS; EVEBITDA; EVGP].

(** [rv_dataframe.loc[row, metric]] *)
Definition metric_of (m : metric) (r : row) : option Q :=
  match m with
  | PE => PE_Ratio r
  | PB => PB_Ratio r
  | PS => PS_Ratio r
  | EVEBITDA => EV_EBITDA r
  | EVGP => EV_GP r
  end.

(** [rv_dataframe.loc[row, metrics[metric]]] *)
Definition percentile_of (m : metric) (r : row) : pending (option Q) :=
  match m with
  | PE => PE_Percentile r
  | PB => PB_Percentile r
  | PS => PS_Percentile r
  | EVEBITDA => EV_EBITDA_Percentile r
  | EVGP => EV_GP_Percentile r
  end.

Definition set_metric (m : metric) (v : option Q) (r : row) : row :=
  match m with
  | PE => mkRow (Ticker r) (Price r) (Shares r) v (PE_Percentile r)
            (PB_Ratio r) (PB_Percentile r) (PS_Ratio r) (PS_Percentile r)
            (EV_EBITDA r) (EV_EBITDA_Percentile r) (EV_GP r)
            (EV_GP_Percentile r) (RV_Score r)
  | PB => mkRow (Ticker r) (Price r) (Shares r) (PE_Ratio r) (PE_Percentile r)
            v (PB_Percentile r) (PS_Ratio r) (PS_Percentile r)
            (EV_EBITDA r) (EV_EBITDA_Percentile r) (EV_GP r)
            (EV_GP_Percentile r) (RV_Score r)
  | PS => mkRow (Ticker r) (Price r) (Shares r) (PE_Ratio r) (PE_Percentile r)
            (PB_Ratio r) (PB_Percentile r) v (PS_Percentile r)
            (EV_EBITDA r) (EV_EBITDA_Percentile r) (EV_GP r)
            (EV_GP_Percentile r) (RV_Score r)
  | EVEBITDA => mkRow (Ticker r) (Price r) (Shares r) (PE_Ratio r)
            (PE_Percentile r) (PB_Ratio r) (PB_Percentile r) (PS_Ratio r)
            (PS_Percentile r) v (EV_EBITDA_Percentile r) (EV_GP r)
            (EV_GP_Percentile r) (RV_Score r)
  | EVGP => mkRow (Ticker r) (Price r) (Shares r) (PE_Ratio r)
            (PE_Percentile r) (PB_Ratio r) (PB_Percentile r) (PS_Ratio r)
            (PS_Percentile r) (EV_EBITDA r) (EV_EBITDA_Percentile r) v
            (EV_GP_Percentile r) (RV_Score r)
  end.

Definition set_percentile (m : metric) (v : pending (option Q)) (r : row)
  : row :=
  match m with
  | PE => mkRow (Ticker r) (Price r) (Shares r) (PE_Ratio r) v
            (PB_Ratio r) (PB_Percentile r) (PS_Ratio r) (PS_Percentile r)
            (EV_EBITDA r) (EV_EBITDA_Percentile r) (EV_GP r)
            (EV_GP_Percentile r) (RV_Score r)
  | PB => mkRow (Ticker r) (Price r) (Shares r) (PE_Ratio r) (PE_Percentile r)
            (PB_Ratio r) v (PS_Ratio r) (PS_Percentile r)
            (EV_EBITDA r) (EV_EBITDA_Percentile r) (EV_GP r)
            (EV_GP_Percentile r) (RV_Score r)
  | PS => mkRow (Ticker r) (Price r) (Shares r) (PE_Ratio r) (PE_Percentile r)
            (PB_Ratio r) (PB_Percentile r) (PS_Ratio r) v
            (EV_EBITDA r) (EV_EBITDA_Percentile r) (EV_GP r)
            (EV_GP_Percentile r) (RV_Score r)
  | EVEBITDA => mkRow (Ticker r) (Price r) (Shares r) (PE_Ratio r)
            (PE_Percentile r) (PB_Ratio r) (PB_Percentile r) (PS_Ratio r)
            (PS_Percentile r) (EV_EBITDA r) v (EV_GP r)
            (EV_GP_Percentile r) (RV_Score r)
  | EVGP => mkRow (Ticker r) (Price r) (Shares r) (PE_Ratio r)
            (PE_Percentile r) (PB_Ratio r) (PB_Percentile r) (PS_Ratio r)
            (PS_Percentile r) (EV_EBITDA r) (EV_EBITDA_Percentile r) (EV_GP r)
            v (RV_Score r)
  end.

Definition set_RV_Score (v : pending (option Q)) (r : row) : row :=
  mkRow (Ticker r) (Price r) (Shares r) (PE_Ratio r) (PE_Percentile r)
    (PB_Ratio r) (PB_Percentile r) (PS_Ratio r) (PS_Percentile r)
    (EV_EBITDA r) (EV_EBITDA_Percentile r) (EV_GP r) (EV_GP_Percentile r) v.

Definition set_Shares (v : pending Z) (r : row) : row :=
  mkRow (Ticker r) (Price r) v (PE_Ratio r) (PE_Percentile r)
    (PB_Ratio r) (PB_Percentile r) (PS_Ratio r) (PS_Percentile r)
    (EV_EBITDA r) (EV_EBITDA_Percentile r) (EV_GP r) (EV_GP_Percentile r)
    (RV_Score r).

(** [rv_dataframe[metric]] *)
Definition column (m : metric) (u : universe) : list (option Q) :=
  map (metric_of m) u.

(** Writing one element of a list in place; a position past the end writes
    nothing. *)
Fixpoint update {A : Type} (p : nat) (x : A) (a : list A) : list A :=
  match a, p with
  | [], _ => []
  | _ :: rest, O => x :: rest
  | y :: rest, S p' => y :: update p' x rest
  end.

(** ** Building the frame: the two enterprise-value ratios *)

(** Python's [/] on two payload values: both operands must be numbers
    (otherwise [TypeError]), and a zero divisor raises
    [ZeroDivisionError].  The numbers of a payload are taken within the
    range of a float, where the quotient is a number; it is kept by its
    exact value. *)
Definition py_truediv (a b : json) : result Q :=
  match a, b with
  | JNum x, JNum y =>
      if Qeq_bool y 0 then Raise ZeroDivisionError else Ok (x / y)
  | _, _ => Raise TypeError
  end.

(** [try: r = enterprise_value/d  except TypeError: r = np.NaN] *)
Definition ev_ratio (enterprise_value d : json) : result (option Q) :=
  match py_truediv enterprise_value d with
  | Ok q => Ok (Some q)
  | Raise TypeError => Ok None
  | Raise e => Raise e
  end.

(** The body of the loop over the symbols of a batch: one appended row. *)
Definition build_row (symbol : string) (d : raw_fields) : result row :=
  ev_to_ebitda <- ev_ratio (enterpriseValue d) (EBITDA d) ;;
  ev_to_gross_profit <- ev_ratio (enterpriseValue d) (grossProfit d) ;;
  Ok (mkRow symbol (latestPrice d) NA (peRatio d) NA (priceToBook d) NA
        (priceToSales d) NA ev_to_ebitda NA ev_to_gross_profit NA NA).

Fixpoint build_frame (data : list (string * raw_fields)) : result universe :=
  match data with
  | [] => Ok []
  | (symbol, d) :: rest =>
      r <- build_row symbol d ;;
      u <- build_frame rest ;;
      Ok (r :: u)
  end.

(** ** Dealing with missing data: [fillna] with the column mean *)

(** The values of a column that are not missing. *)
Fixpoint dropna (a : list (option Q)) : list Q :=
  match a with
  | [] => []
  | Some v :: rest => v :: dropna rest
  | None :: rest => dropna rest
  end.

Definition Qsum (l : list Q) : Q := fold_right Qplus 0 l.

(** [rv_dataframe[column].mean()]: missing values are skipped; the mean of
    a column with no value at all is the missing value. *)
Definition series_mean (a : list (option Q)) : option Q :=
  match dropna a with
  | [] => None
  | v :: vs => Some (Qsum (v :: vs) / inject_Z (Z.of_nat (length (v :: vs))))
  end.

(** [rv_dataframe[column].fillna(value, inplace = True)]: a missing cell of
    the column receives [value]; no other cell is written. *)
Definition fillna (m : metric) (value : option Q) (u : universe) : universe :=
  map (fun r => match metric_of m r with
                | None => set_metric m value r
                | Some _ => r
                end) u.

(** The columns named in the imputation cell, in its order. *)
Definition imputed_columns : list metric := [PE; PB; PS; EVEBITDA; EVGP].

(** [for column in [...]: rv_dataframe[column].fillna(rv_dataframe[column].mean(), ...)] *)
Definition impute (u : universe) : universe :=
  fold_left (fun df c => fillna c (series_mean (column c df)) df)
    imputed_columns u.

(** ** Calculating value percentiles *)

Definition Qltb (x y : Q) : bool := negb (Qle_bool y x).

(** [np.count_nonzero(a < score)] and [np.count_nonzero(a <= score)]: a
    comparison with a missing value is false. *)
Definition count_lt (a : list (option Q)) (score : Q) : nat :=
  length (filter (fun x => match x with
                           | Some v => Qltb v score
                           | None => false
                           end) a).

Definition count_le (a : list (option Q)) (score : Q) : nat :=
  length (filter (fun x => match x with
                           | Some v => Qle_bool v score
                           | None => false
                           end) a).

(** [stats.percentileofscore(a, score)] of SciPy with its default
    [kind = 'rank']:
<<
    if np.isnan(score): return np.nan
    n = len(a)
    if n == 0: return 100.0
    left = np.count_nonzero(a < score)
    right = np.count_nonzero(a <= score)
    pct = (right + left + (1 if right > left else 0)) * 50.0/n
>>
*)
Definition percentileofscore (a : list (option Q)) (score : option Q)
  : option Q :=
  match score with
  | None => None
  | Some s =>
      match a with
      | [] => Some 100
      | _ :: _ =>
          let left := count_lt a s in
          let right := count_le a s in
          Some (inject_Z (Z.of_nat
                  (right + left + (if (left <? right)%nat then 1 else 0)))
                * 50 / inject_Z (Z.of_nat (length a)))
      end
  end.

(** Division of a float that may be NaN by a non-zero constant. *)
Definition nan_div (x : option Q) (d : Q) : option Q :=
  match x with
  | None => None
  | Some v => Some (v / d)
  end.

(** [rv_dataframe.loc[row, metrics[metric]] =
       stats.percentileofscore(rv_dataframe[metric],
                               rv_dataframe.loc[row, metric])/100]
    on the frame as it is at that moment. *)
Definition percentile_assign (i : nat) (m : metric) (df : universe)
  : universe :=
  match nth_error df i with
  | Some r =>
      update i
        (set_percentile m
           (Computed (nan_div (percentileofscore (column m df) (metric_of m r))
                        100)) r) df
  | None => df
  end.

(** [for row in rv_dataframe.index: for metric in metrics.keys(): ...] with
    the frame threaded through the two loops; the row labels are the
    positions 0 .. len - 1. *)
Definition percentile_stage (df : universe) : universe :=
  fold_left
    (fun df1 i =>
       fold_left (fun df2 m => percentile_assign i m df2) metrics_keys df1)
    (seq 0 (List.length df)) df.

(** What the two loops leave in one row: the loops read the metric columns
    of the frame and write its percentile columns only, so the columns read
    are those of the frame [df] the cell started from. *)
Definition percentile_row (df : universe) (r : row) : row :=
  fold_left
    (fun r' m =>
       set_percentile m
         (Computed (nan_div (percentileofscore (column m df) (metric_of m r'))
                      100)) r')
    metrics_keys r.

(** ** Calculating the RV score *)

(** [statistics.mean] on the list [value_percentiles]: a string among the
    data raises [TypeError]; otherwise a NaN among them makes the mean NaN;
    otherwise the exact sum is divided by the number of data. *)
Fixpoint as_floats (data : list (pending (option Q)))
  : result (list (option Q)) :=
  match data with
  | [] => Ok []
  | NA :: _ => Raise TypeError
  | Computed x :: rest => xs <- as_floats rest ;; Ok (x :: xs)
  end.

Fixpoint all_defined (a : list (option Q)) : option (list Q) :=
  match a with
  | [] => Some []
  | None :: _ => None
  | Some v :: rest =>
      match all_defined rest with
      | None => None
      | Some vs => Some (v :: vs)
      end
  end.

Definition mean (data : list (pending (option Q))) : result (option Q) :=
  xs <- as_floats data ;;
  match all_defined xs with
  | None => Ok None
  | Some vs => Ok (Some (Qsum vs / inject_Z (Z.of_nat (length vs))))
  end.

(** The scoring cell reads the global [metrics], the dictionary that the
    percentile cell binds: [Some] of its keys once that cell has run, [None]
    before, when the name is unbound. *)
Definition lookup_metrics (metrics : option (list metric))
  : result (list metric) :=
  match metrics with
  | Some keys => Ok keys
  | None => Raise NameError
  end.

(** The body of the loop: [value_percentiles] collects the percentile
    cells of the row, one per key of [metrics], and [RV Score] receives
    their mean. *)
Definition rv_score_row (metrics : option (list metric)) (r : row)
  : result row :=
  keys <- lookup_metrics metrics ;;
  let value_percentiles := map (fun m => percentile_of m r) keys in
  s <- mean value_percentiles ;;
  Ok (set_RV_Score (Computed s) r).

(** [for row in rv_dataframe.index: ...] *)
Fixpoint rv_score_stage (metrics : option (list metric)) (df : universe)
  : result universe :=
  match df with
  | [] => Ok []
  | r :: rest =>
      r' <- rv_score_row metrics r ;;
      rest' <- rv_score_stage metrics rest ;;
      Ok (r' :: rest')
  end.

(** ** Selecting the fifty best value stocks *)

(** The order [sort_values(by = 'RV Score')] puts the rows in: ascending
    floats, NaN last ([na_position = 'last']).  Strings compare with strings
    only, so a frame that mixes 'N/A' with floats has no sorted form (the
    comparison raises [TypeError]). *)
Definition score_leb (a b : row) : bool :=
  match RV_Score a, RV_Score b with
  | Computed (Some x), Computed (Some y) => Qle_bool x y
  | Computed _, Computed None => true
  | Computed None, Computed (Some _) => false
  | NA, NA => true
  | _, _ => false
  end.

Definition score_le (a b : row) : Prop := score_leb a b = true.

(** [rv_dataframe.sort_values(by = 'RV Score', inplace = True)].  The call
    leaves [kind] at its default, 'quicksort', for which pandas promises a
    frame with the same rows in ascending order of the key and nothing about
    the order of rows with equal keys (only 'mergesort' and 'stable' are
    documented as stable).  The call is therefore a relation between the
    frame before and the frame after. *)
Definition sort_values_by_RV_Score (df sorted : universe) : Prop :=
  Permutation df sorted /\ StronglySorted score_le sorted.

(** [rv_dataframe = rv_dataframe[:n]]; [reset_index] renumbers the row
    labels and changes no cell. *)
Definition select_top (n : nat) (df out : universe) : Prop :=
  exists sorted, sort_values_by_RV_Score df sorted /\ out = firstn n sorted.

Definition selector : universe -> universe -> Prop := select_top 50.

(** An executable sort that meets the contract: straight insertion from the
    last row to the first, a row going in front of the rows already placed
    that are not below it, so that rows with equal keys keep their input
    order.  It is the selection "stable with respect to original input
    order" of the specification. *)
Fixpoint insert_by_score (r : row) (l : universe) : universe :=
  match l with
  | [] => [r]
  | x :: rest =>
      if score_leb r x then r :: x :: rest else x :: insert_by_score r rest
  end.

Definition stable_sort_by_score (df : universe) : universe :=
  fold_right (fun r acc => insert_by_score r acc) [] df.

Definition stable_selection (n : nat) (df : universe) : universe :=
  firstn n (stable_sort_by_score df).

Definition scored (r : row) : Prop := exists s, RV_Score r = Computed s.

(** *** NumPy's argsort with [kind = 'quicksort']

    pandas sorts one column with [nargsort], which hands the keys that are
    not NaN to [ndarray.argsort(kind = 'quicksort')] and appends the labels
    of the NaN keys.  NumPy's [aquicksort] is an introsort on the index array
    [tosort]: median-of-three pivot, Hoare partition, the larger part pushed
    on a stack, parts of at most [SMALL_QUICKSORT + 1] elements sorted by
    insertion.  The model below follows that routine with index positions
    for the pointers [pl], [pr], [pi], [pj]; the heapsort it falls back to
    when the depth limit is exhausted is not modelled ([None]).  (The
    variant NumPy runs on arrays of Python objects adds a bound [pi < pj]
    to the two scans of the partition, which a total order never
    reaches.) *)

Definition SMALL_QUICKSORT : nat := 15.

(** [INTP_SWAP] *)
Definition intp_swap (p q : nat) (tosort : list nat) : list nat :=
  update p (nth q tosort O) (update q (nth p tosort O) tosort).

(** [v[*p]] *)
Definition key_at (v : list Q) (tosort : list nat) (p : nat) : Q :=
  nth (nth p tosort O) v 0.

(** [do ++pi; while (v[*pi] < vp);] *)
Fixpoint scan_up (fuel : nat) (v : list Q) (vp : Q) (tosort : list nat)
  (pi : nat) : nat :=
  match fuel with
  | O => S pi
  | S fuel' =>
      if Qltb (key_at v tosort (S pi)) vp
      then scan_up fuel' v vp tosort (S pi)
      else S pi
  end.

(** [do --pj; while (vp < v[*pj]);] *)
Fixpoint scan_down (fuel : nat) (v : list Q) (vp : Q) (tosort : list nat)
  (pj : nat) : nat :=
  match fuel with
  | O => pred pj
  | S fuel' =>
      if Qltb vp (key_at v tosort (pred pj))
      then scan_down fuel' v vp tosort (pred pj)
      else pred pj
  end.

(** [for (;;) { scan up; scan down; if (pi >= pj) break; INTP_SWAP at pi, pj; }]
    returns the index array and the final [pi]. *)
Fixpoint hoare_loop (fuel : nat) (v : list Q) (vp : Q) (tosort : list nat)
  (pi pj : nat) : list nat * nat :=
  match fuel with
  | O => (tosort, pi)
  | S fuel' =>
      let pi' := scan_up (List.length tosort) v vp tosort pi in
      let pj' := scan_down (List.length tosort) v vp tosort pj in
      if (pj' <=? pi')%nat then (tosort, pi')
      else hoare_loop fuel' v vp (intp_swap pi' pj' tosort) pi' pj'
  end.

(** One pass of the partition on the positions [pl..pr]: the index array
    after it and the final position [pi] of the pivot. *)
Definition partition_pass (v : list Q) (tosort : list nat) (pl pr : nat)
  : list nat * nat :=
  let pm := (pl + Nat.div2 (pr - pl))%nat in
  let t1 := if Qltb (key_at v tosort pm) (key_at v tosort pl)
            then intp_swap pm pl tosort else tosort in
  let t2 := if Qltb (key_at v t1 pr) (key_at v t1 pm)
            then intp_swap pr pm t1 else t1 in
  let t3 := if Qltb (key_at v t2 pm) (key_at v t2 pl)
            then intp_swap pm pl t2 else t2 in
  let vp := key_at v t3 pm in
  let t4 := intp_swap pm (pr - 1) t3 in
  let '(t5, pi) := hoare_loop (List.length tosort) v vp t4 pl (pr - 1) in
  (intp_swap pi (pr - 1) t5, pi).

(** [while (pj > pl && vp < v[*pk]) { *pj-- = *pk--; }  *pj = vi;] *)
Fixpoint shift_down (fuel : nat) (v : list Q) (vi : nat) (tosort : list nat)
  (pl pj : nat) : list nat :=
  match fuel with
  | O => update pj vi tosort
  | S fuel' =>
      if (pl <? pj)%nat && Qltb (nth vi v 0) (key_at v tosort (pj - 1))
      then shift_down fuel' v vi (update pj (nth (pj - 1) tosort O) tosort)
             pl (pj - 1)
      else update pj vi tosort
  end.

(** [for (pi = pl + 1; pi <= pr; ++pi) { vi = *pi; ... }] *)
Fixpoint insertion_pass (count : nat) (v : list Q) (tosort : list nat)
  (pl pi : nat) : list nat :=
  match count with
  | O => tosort
  | S count' =>
      insertion_pass count' v
        (shift_down (List.length tosort) v (nth pi tosort O) tosort pl pi)
        pl (S pi)
  end.

(** [while ((pr - pl) > SMALL_QUICKSORT) { partition; push the larger part;
    *psdepth++ = --cdepth; }] *)
Fixpoint partition_while (fuel : nat) (v : list Q) (tosort : list nat)
  (pl pr : nat) (cdepth : Z) (stack : list (nat * nat * Z))
  : list nat * nat * nat * Z * list (nat * nat * Z) :=
  match fuel with
  | O => (tosort, pl, pr, cdepth, stack)
  | S fuel' =>
      if (SMALL_QUICKSORT <? pr - pl)%nat then
        let '(t, pi) := partition_pass v tosort pl pr in
        let cdepth' := (cdepth - 1)%Z in
        if (pi - pl <? pr - pi)%nat
        then partition_while fuel' v t pl (pi - 1) cdepth'
               ((pi + 1, pr, cdepth')%nat :: stack)
        else partition_while fuel' v t (pi + 1)%nat pr cdepth'
               ((pl, pi - 1, cdepth')%nat :: stack)
      else (tosort, pl, pr, cdepth, stack)
  end.

(** The outer [while (1)] with its explicit stack. *)
Fixpoint aquicksort_loop (fuel : nat) (v : list Q) (tosort : list nat)
  (pl pr : nat) (cdepth : Z) (stack : list (nat * nat * Z))
  : option (list nat) :=
  match fuel with
  | O => None
  | S fuel' =>
      if (cdepth <? 0)%Z then None
      else
        let '(t, pl', pr', _, stack') :=
          partition_while (List.length tosort) v tosort pl pr cdepth stack in
        let t' := insertion_pass (pr' - pl') v t pl' (S pl') in
        match stack' with
        | [] => Some t'
        | (pl2, pr2, cdepth2) :: rest =>
            aquicksort_loop fuel' v t' pl2 pr2 cdepth2 rest
        end
  end.

(** [npy_get_msb(num) * 2] is the depth limit. *)
Definition aquicksort (v : list Q) : option (list nat) :=
  let num := List.length v in
  match num with
  | O => Some []
  | S _ =>
      aquicksort_loop (S num) v (seq 0 num) 0 (num - 1)
        (2 * Z.log2 (Z.of_nat num))%Z []
  end.

(** [nargsort] on the RV scores of a scored frame whose scores are all
    floats that are not NaN, followed by [take]. *)
Definition float_scores (df : universe) : option (list Q) :=
  all_defined (map (fun r => match RV_Score r with
                             | Computed s => s
                             | NA => None
                             end) df).

Definition np_sort_values (df : universe) : option universe :=
  match float_scores df with
  | None => None
  | Some keys =>
      match aquicksort keys with
      | None => None
      | Some indexer =>
          match df with
          | [] => Some []
          | r0 :: _ => Some (map (fun i => nth i df r0) indexer)
          end
      end
  end.

(** ** Python floats *)

(** A Python float by its value: a rational that binary64 represents
    exactly, an infinity, or NaN.  The sign of a zero is not kept: it could
    only show in the sign of an infinite quotient, which nothing below
    looks at. *)
Inductive pyfloat : Type :=
| Finite (q : Q)
| Infinity (negative : bool)
| NaN.

(** The integer nearest to [x], a tie going to the even one. *)
Definition round_half_even (x : Q) : Z :=
  let f := Qfloor x in
  match Qcompare (x - inject_Z f) (1 # 2) with
  | Lt => f
  | Eq => if Z.even f then f else (f + 1)%Z
  | Gt => (f + 1)%Z
  end.

(** The integer part of the binary logarithm of a positive rational. *)
Definition Qlog2 (q : Q) : Z :=
  let k := (Z.log2 (Qnum q) - Z.log2 (Zpos (Qden q)))%Z in
  if Qle_bool (2 ^ k) q then k else (k - 1)%Z.

(** The exponent of the last binary place binary64 keeps for [q]: 52 places
    below the leading one, and never below 2^-1074 (the subnormal
    numbers). *)
Definition float64_exponent (q : Q) : Z :=
  if Qeq_bool q 0 then (-1074)%Z
  else Z.max (Qlog2 (Qabs q) - 52) (-1074).

(** [q] rounded to that place, to nearest and ties to even. *)
Definition float64_value (q : Q) : Q :=
  let e := float64_exponent q in
  inject_Z (round_half_even (q / 2 ^ e)) * 2 ^ e.

(** The binary64 value of the real number [q] (IEEE 754, round to nearest,
    ties to even): the rounded value, or an infinity when that reaches
    2^1024. *)
Definition round_float64 (q : Q) : pyfloat :=
  let v := float64_value q in
  if Qle_bool (2 ^ 1024) (Qabs v) then Infinity (Qltb q 0)
  else Finite (Qred v).

(** The quotient of two floats as the processor computes it.  A finite
    quotient is the exact one rounded; a division by zero gives an infinity,
    or NaN for 0/0; nothing is raised. *)
Definition ieee_div (x y : pyfloat) : pyfloat :=
  match x, y with
  | NaN, _ => NaN
  | _, NaN => NaN
  | Infinity _, Infinity _ => NaN
  | Infinity n, Finite d => Infinity (xorb n (Qltb d 0))
  | Finite _, Infinity _ => Finite 0
  | Finite q, Finite d =>
      if Qeq_bool d 0
      then if Qeq_bool q 0 then NaN else Infinity (Qltb q 0)
      else round_float64 (q / d)
  end.

(** ** The portfolio size: [float] on the user's entry *)

(** A Python string is a sequence of Unicode code points; a [string] here
    is its UTF-8 encoding.  [code_points] reads the code points back, and
    gives [None] on bytes that encode no string. *)
Definition is_continuation (b : N) : bool :=
  ((128 <=? b) && (b <=? 191))%N.

Fixpoint code_points (l : list ascii) : option (list N) :=
  match l with
  | [] => Some []
  | b0 :: r0 =>
      let n0 := N_of_ascii b0 in
      if (n0 <? 128)%N then option_map (cons n0) (code_points r0)
      else if (n0 <? 194)%N then None
      else if (n0 <? 224)%N then
        match r0 with
        | b1 :: r1 =>
            let n1 := N_of_ascii b1 in
            if is_continuation n1
            then option_map (cons ((n0 - 192) * 64 + (n1 - 128))%N)
                   (code_points r1)
            else None
        | [] => None
        end
      else if (n0 <? 240)%N then
        match r0 with
        | b1 :: b2 :: r2 =>
            let n1 := N_of_ascii b1 in
            let n2 := N_of_ascii b2 in
            let cp := ((n0 - 224) * 4096 + (n1 - 128) * 64 + (n2 - 128))%N in
            if is_continuation n1 && is_continuation n2
               && (2048 <=? cp)%N
               && negb ((55296 <=? cp)%N && (cp <=? 57343)%N)
            then option_map (cons cp) (code_points r2)
            else None
        | _ => None
        end
      else if (n0 <? 245)%N then
        match r0 with
        | b1 :: b2 :: b3 :: r3 =>
            let n1 := N_of_ascii b1 in
            let n2 := N_of_ascii b2 in
            let n3 := N_of_ascii b3 in
            let cp := ((n0 - 240) * 262144 + (n1 - 128) * 4096
                       + (n2 - 128) * 64 + (n3 - 128))%N in
            if is_continuation n1 && is_continuation n2 && is_continuation n3
               && (65536 <=? cp)%N && (cp <=? 1114111)%N
            then option_map (cons cp) (code_points r3)
            else None
        | _ => None
        end
      else None
  end.

(** [Py_UNICODE_ISSPACE] on the code points from 127 on. *)
Definition is_unicode_space (cp : N) : bool :=
  existsb (N.eqb cp) [133; 160; 5760; 8232; 8233; 8239; 8287; 12288]%N
  || ((8192 <=? cp) && (cp <=? 8202))%N.

(** The code points of the digit zero of every script with decimal digits
    (Unicode 14.0, the database of CPython 3.11); the nine other digits of
    a script follow its zero. *)
Definition decimal_zeros : list N :=
  [
    48; 1632; 1776; 1984; 2406; 2534; 2662; 2790; 2918; 3046; 3174; 3302;
    3430; 3558; 3664; 3792; 3872; 4160; 4240; 6112; 6160; 6470; 6608;
    6784; 6800; 6992; 7088; 7232; 7248; 42528; 43216; 43264; 43472; 43504;
    43600; 44016; 65296; 66720; 68912; 69734; 69872; 69942; 70096; 70384;
    70736; 70864; 71248; 71360; 71472; 71904; 72016; 72784; 73040; 73120;
    92768; 92864; 93008; 120782; 120792; 120802; 120812; 120822; 123200;
    123632; 125264; 130032
  ]%N.

(** [Py_UNICODE_TODECIMAL] *)
Definition unicode_decimal (cp : N) : option N :=
  match find (fun z => ((z <=? cp) && (cp <? z + 10))%N) decimal_zeros with
  | Some z => Some (cp - z)%N
  | None => None
  end.

(** [_PyUnicode_TransformDecimalAndSpaceToASCII]: a code point below 127 is
    kept, a space becomes the ASCII space, a decimal digit becomes its ASCII
    digit; any other code point makes the string unreadable as a number. *)
Fixpoint to_ascii_decimal (cps : list N) : option (list ascii) :=
  match cps with
  | [] => Some []
  | cp :: rest =>
      let c :=
        if (cp <? 127)%N then Some (ascii_of_N cp)
        else if is_unicode_space cp then Some " "%char
        else option_map (fun d => ascii_of_N (48 + d)) (unicode_decimal cp) in
      match c, to_ascii_decimal rest with
      | Some a, Some l => Some (a :: l)
      | _, _ => None
      end
  end.

(** [Py_ISSPACE]: the six ASCII whitespace characters. *)
Definition is_space (c : ascii) : bool :=
  let n := nat_of_ascii c in
  ((9 <=? n)%nat && (n <=? 13)%nat) || (n =? 32)%nat.

Definition is_digit (c : ascii) : bool :=
  let n := nat_of_ascii c in (48 <=? n)%nat && (n <=? 57)%nat.

Definition digit_val (c : ascii) : Z := Z.of_nat (nat_of_ascii c - 48).

Definition to_lower (c : ascii) : ascii :=
  let n := nat_of_ascii c in
  if (65 <=? n)%nat && (n <=? 90)%nat then ascii_of_nat (n + 32) else c.

Fixpoint lstrip (l : list ascii) : list ascii :=
  match l with
  | [] => []
  | c :: rest => if is_space c then lstrip rest else l
  end.

Definition strip (l : list ascii) : list ascii :=
  rev (lstrip (rev (lstrip l))).

(** [digit (["_"] digit)*] after its first digit: the value so far, the
    number of digits read, and what follows. *)
Fixpoint digits_tail (acc : Z) (n : nat) (l : list ascii)
  : Z * nat * list ascii :=
  match l with
  | [] => (acc, n, l)
  | c :: rest =>
      if is_digit c then digits_tail (10 * acc + digit_val c)%Z (S n) rest
      else if Ascii.eqb c "_" then
        match rest with
        | d :: rest' =>
            if is_digit d
            then digits_tail (10 * acc + digit_val d)%Z (S n) rest'
            else (acc, n, l)
        | [] => (acc, n, l)
        end
      else (acc, n, l)
  end.

(** [digitpart ::= digit (["_"] digit)*], continuing the value [acc]. *)
Definition digitpart (acc : Z) (l : list ascii)
  : option (Z * nat * list ascii) :=
  match l with
  | [] => None
  | c :: rest =>
      if is_digit c
      then Some (digits_tail (10 * acc + digit_val c)%Z 1 rest)
      else None
  end.

(** [number ::= [digitpart] "." digitpart | digitpart ["."]]: the digits
    read as one integer, the number of digits after the point, and what
    follows. *)
Definition number (l : list ascii) : option (Z * nat * list ascii) :=
  match digitpart 0 l with
  | Some (i, _, rest) =>
      match rest with
      | c :: rest' =>
          if Ascii.eqb c "."
          then match digitpart i rest' with
               | Some (m, f, rest'') => Some (m, f, rest'')
               | None => Some (i, O, rest')
               end
          else Some (i, O, rest)
      | [] => Some (i, O, rest)
      end
  | None =>
      match l with
      | c :: rest' => if Ascii.eqb c "." then digitpart 0 rest' else None
      | [] => None
      end
  end.

(** An optional sign: whether it is a minus, and what follows. *)
Definition sign (l : list ascii) : bool * list ascii :=
  match l with
  | c :: rest =>
      if Ascii.eqb c "-" then (true, rest)
      else if Ascii.eqb c "+" then (false, rest)
      else (false, l)
  | [] => (false, l)
  end.

(** [exponent ::= ("e" | "E") [sign] digitpart], optional, and then the end
    of the string. *)
Definition exponent (l : list ascii) : option Z :=
  match l with
  | [] => Some 0%Z
  | c :: rest =>
      if Ascii.eqb (to_lower c) "e" then
        let '(neg, rest') := sign rest in
        match digitpart 0 rest' with
        | Some (e, _, []) => Some (if neg then (- e)%Z else e)
        | _ => None
        end
      else None
  end.

(** The grammar of [float(str)] on the ASCII form of the string:
    surrounding whitespace is ignored; an optional sign; then "inf",
    "infinity" or "nan" in any case, or a decimal number with an optional
    exponent.  The decimal number is read exactly and rounded once to
    binary64, to an infinity beyond the range. *)
Definition float_of_chars (l : list ascii) : option pyfloat :=
  let '(neg, body) := sign (strip l) in
  let lowered := string_of_list_ascii (map to_lower body) in
  if String.eqb lowered "inf" || String.eqb lowered "infinity"
  then Some (Infinity neg)
  else if String.eqb lowered "nan" then Some NaN
  else
    match number body with
    | None => None
    | Some (m, f, rest) =>
        match exponent rest with
        | None => None
        | Some e =>
            let magnitude := inject_Z m * 10 ^ (e - Z.of_nat f) in
            Some (round_float64 (if neg then - magnitude else magnitude))
        end
    end.

Definition float_of_string (s : string) : option pyfloat :=
  match code_points (list_ascii_of_string s) with
  | None => None
  | Some cps =>
      match to_ascii_decimal cps with
      | None => None
      | Some l => float_of_chars l
      end
  end.

(** [float(s)]: a string outside the grammar raises [ValueError]. *)
Definition float (s : string) : result pyfloat :=
  match float_of_string s with
  | Some x => Ok x
  | None => Raise ValueError
  end.

(** ** [portfolio_input] *)

(** The notebook's interaction with its user: the entries still to be
    typed, what has been printed, and the global [portfolio_size] (unbound
    until the routine has run). *)
Record session : Type := mkSession {
  entries : list string;
  printed : list string;
  portfolio_size : option string
}.

(** How a call ends: it returns, it raises, or it is left waiting at a
    prompt because the user has typed nothing more. *)
Inductive outcome : Type :=
| Returned (s : session)
| Crashed (e : exn) (s : session)
| Waiting (s : session).

Definition prompt : string := "Enter the value of your portfolio:".

Definition retry_message : string :=
  "That's not a number! " ++ String "010" " Try again:".

(** [input(prompt)]: the prompt is shown and the next entry is read. *)
Definition input (p : string) (s : session) : option (string * session) :=
  match entries s with
  | [] => None
  | e :: rest =>
      Some (e, mkSession rest (printed s ++ [p]) (portfolio_size s))
  end.

Definition print (msg : string) (s : session) : session :=
  mkSession (entries s) (printed s ++ [msg]) (portfolio_size s).

Definition set_portfolio_size (v : string) (s : session) : session :=
  mkSession (entries s) (printed s) (Some v).

(**
<<
    def portfolio_input():
        global portfolio_size
        portfolio_size = input("Enter the value of your portfolio:")
        try:
            val = float(portfolio_size)
        except ValueError:
            print("That's not a number! \n Try again:")
            portfolio_size = input("Enter the value of your portfolio:")
>>
*)
Definition portfolio_input (s : session) : outcome :=
  match input prompt s with
  | None => Waiting s
  | Some (e1, s1) =>
      let s1 := set_portfolio_size e1 s1 in
      match float e1 with
      | Ok _ => Returned s1
      | Raise ValueError =>
          let s2 := print retry_message s1 in
          match input prompt s2 with
          | None => Waiting s2
          | Some (e2, s3) => Returned (set_portfolio_size e2 s3)
          end
      | Raise x => Crashed x s1
      end
  end.

(** ** Calculating the number of shares to buy *)

(** A Python number, an [int] or a float, taken as a float
    ([PyLong_AsDouble] for an [int]): an integer too large for a float
    raises [OverflowError]. *)
Definition to_float (d : Q) : result pyfloat :=
  match round_float64 d with
  | Infinity _ => Raise OverflowError
  | x => Ok x
  end.

(** [x / d] for a Python float [x] and a Python number [d] (CPython's
    [float_div]): a zero divisor raises [ZeroDivisionError]; otherwise the
    quotient is the processor's. *)
Definition float_truediv (x : pyfloat) (d : Q) : result pyfloat :=
  y <- to_float d ;;
  match y with
  | Finite z =>
      if Qeq_bool z 0 then Raise ZeroDivisionError else Ok (ieee_div x y)
  | _ => Ok (ieee_div x y)
  end.

(** [math.floor] *)
Definition math_floor (x : pyfloat) : result Z :=
  match x with
  | Finite q => Ok (Qfloor q)
  | Infinity _ => Raise OverflowError
  | NaN => Raise ValueError
  end.

(** What [rv_dataframe['Price'][row]] hands back depends on the dtype
    pandas gave the column while the frame was grown by [append]: with
    dtype object the cell is the Python object that was appended (a number,
    or [None]); with a numeric dtype it is a NumPy scalar (NaN for a missing
    price).  pandas decides from the data, a [None] among the prices making
    the column an object column; the allocation is modelled for both. *)
Inductive price_dtype : Type :=
| object_dtype
| float64_dtype.

(** [position_size / rv_dataframe['Price'][row]]: Python's division on a
    Python number, which raises on [None] and on zero; NumPy's on a NumPy
    scalar, which raises nothing. *)
Definition price_quotient (dtype : price_dtype) (position_size : pyfloat)
  (price : option Q) : result pyfloat :=
  match dtype, price with
  | object_dtype, None => Raise TypeError
  | object_dtype, Some d => float_truediv position_size d
  | float64_dtype, None => Ok (ieee_div position_size NaN)
  | float64_dtype, Some d => Ok (ieee_div position_size (round_float64 d))
  end.

(** [rv_dataframe.loc[row, 'Number of Shares to Buy'] =
       math.floor(position_size / rv_dataframe['Price'][row])] *)
Definition shares_row (dtype : price_dtype) (position_size : pyfloat)
  (r : row) : result row :=
  q <- price_quotient dtype position_size (Price r) ;;
  n <- math_floor q ;;
  Ok (set_Shares (Computed n) r).

Fixpoint shares_loop (dtype : price_dtype) (position_size : pyfloat)
  (df : universe) : result universe :=
  match df with
  | [] => Ok []
  | r :: rest =>
      r' <- shares_row dtype position_size r ;;
      rest' <- shares_loop dtype position_size rest ;;
      Ok (r' :: rest')
  end.

(** [position_size = float(portfolio_size) / len(rv_dataframe.index)]
    followed by the loop over the rows. *)
Definition allocation (dtype : price_dtype) (portfolio_size : string)
  (df : universe) : result universe :=
  b <- float portfolio_size ;;
  position_size <- float_truediv b (inject_Z (Z.of_nat (List.length df))) ;;
  shares_loop dtype position_size df.

(** The allocation cell as the notebook runs it: the budget is the global
    left by [portfolio_input]. *)
Definition allocation_cell (dtype : price_dtype) (s : session)
  (df : universe) : result universe :=
  match portfolio_size s with
  | None => Raise NameError
  | Some entry => allocation dtype entry df
  end.

(** The value of the positions bought: the sum of shares times price. *)
Definition position_value (r : row) : Q :=
  match Shares r, Price r with
  | Computed n, Some price => inject_Z n * price
  | _, _ => 0
  end.

Definition allocated_value (df : universe) : Q :=
  Qsum (map position_value df).

(** ** Splitting the universe into batches *)

Fixpoint range_from (count start step : nat) : list nat :=
  match count with
  | O => []
  | S count' => start :: range_from count' (start + step) step
  end.

(** [range(0, stop, step)]: a step of zero raises [ValueError]; a negative
    step counts down from 0 and yields nothing; a positive step yields
    ceil(stop / step) indices. *)
Definition range (stop : nat) (step : Z) : result (list nat) :=
  if (step =? 0)%Z then Raise ValueError
  else if (step <? 0)%Z then Ok []
  else
    let n := Z.to_nat step in
    Ok (range_from ((stop + n - 1) / n) O n).

(**
<<
    def chunks(lst, n):
        for i in range(0, len(lst), n):
            yield lst[i:i + n]
>>
    consumed by [list(...)]. *)
Definition chunks {A : Type} (lst : list A) (n : Z)
  : result (list (list A)) :=
  indices <- range (List.length lst) n ;;
  Ok (map (fun i => firstn (Z.to_nat n) (skipn i lst)) indices).

(** [sep.join(l)] *)
Fixpoint join (sep : string) (l : list string) : string :=
  match l with
  | [] => EmptyString
  | [x] => x
  | x :: rest => (x ++ sep ++ join sep rest)%string
  end.

(** [s.split(c)] for a separator of one character: the pieces between the
    occurrences of [c]; the empty string has one piece. *)
Fixpoint split (c : ascii) (s : string) : list string :=
  match s with
  | EmptyString => [EmptyString]
  | String a rest =>
      if Ascii.eqb a c then EmptyString :: split c rest
      else match split c rest with
           | piece :: pieces => String a piece :: pieces
           | [] => [String a EmptyString]
           end
  end.

(** [symbol_groups = list(chunks(stocks['Ticker'], 100))] and the loop
    that joins each group with commas. *)
Definition symbol_strings (tickers : list string) : result (list string) :=
  symbol_groups <- chunks tickers 100 ;;
  Ok (map (join ",") symbol_groups).

(** ** The batch calls that build [rv_dataframe] *)

(** How the loading loop ends: with the frame, with the [KeyError] of a
    symbol the response does not hold, or with the exception of a
    division. *)
Inductive loaded : Type :=
| Frame (df : universe)
| KeyError (key : string)
| Failed (e : exn).

(** The inner loop, [for symbol in symbol_string.split(',')], on the
    response [data] of one batch call: [data[symbol]] is looked up and a row
    is appended. *)
Fixpoint append_rows (data : string -> option raw_fields)
  (symbols : list string) : loaded :=
  match symbols with
  | [] => Frame []
  | symbol :: rest =>
      match data symbol with
      | None => KeyError symbol
      | Some d =>
          match build_row symbol d with
          | Raise e => Failed e
          | Ok r =>
              match append_rows data rest with
              | Frame df => Frame (r :: df)
              | stopped => stopped
              end
          end
      end
  end.

(** The outer loop, [for symbol_string in symbol_strings], with
    [requests.get(...).json()] as the function [get] from the symbols
    string of a batch to the response. *)
Fixpoint batch_loop (get : string -> string -> option raw_fields)
  (strings : list string) : loaded :=
  match strings with
  | [] => Frame []
  | symbol_string :: rest =>
      match append_rows (get symbol_string) (split "," symbol_string) with
      | Frame rows =>
          match batch_loop get rest with
          | Frame df => Frame (rows ++ df)
          | stopped => stopped
          end
      | stopped => stopped
      end
  end.

Definition load_rv_dataframe (get : string -> string -> option raw_fields)
  (tickers : list string) : loaded :=
  match symbol_strings tickers with
  | Ok strings => batch_loop get strings
  | Raise e => Failed e
  end.

(** ** The rows with missing data *)

Definition is_missing {A : Type} (x : option A) : bool :=
  match x with
  | None => true
  | Some _ => false
  end.

(** [isnull] on a cell that may still hold the string 'N/A': a string is not
    a missing value. *)
Definition pending_isnull {A : Type} (c : pending (option A)) : bool :=
  match c with
  | NA => false
  | Computed x => is_missing x
  end.

(** [rv_dataframe.isnull().any(axis=1)] on one row. *)
Definition any_isnull (r : row) : bool :=
  is_missing (Price r)
  || is_missing (PE_Ratio r) || pending_isnull (PE_Percentile r)
  || is_missing (PB_Ratio r) || pending_isnull (PB_Percentile r)
  || is_missing (PS_Ratio r) || pending_isnull (PS_Percentile r)
  || is_missing (EV_EBITDA r) || pending_isnull (EV_EBITDA_Percentile r)
  || is_missing (EV_GP r) || pending_isnull (EV_GP_Percentile r)
  || pending_isnull (RV_Score r).

(** [rv_dataframe[rv_dataframe.isnull().any(axis=1)]] *)
Definition rows_with_missing_data (df : universe) : universe :=
  filter any_isnull df.

(** ** The single-metric screener *)

(** One row of [final_dataframe], in the order of [my_columns]. *)
Record quote_row : Type := mkQuote {
  quote_Ticker : string;
  quote_Price : option Q;
  quote_PE : option Q;
  quote_Shares : pending Z
}.

(** The order [sort_values('Price-to-Earnings Ratio')] puts the rows in:
    ascending ratios, missing ratios last. *)
Definition pe_leb (a b : quote_row) : bool :=
  match quote_PE a, quote_PE b with
  | Some x, Some y => Qle_bool x y
  | _, None => true
  | None, Some _ => false
  end.

Definition pe_le (a b : quote_row) : Prop := pe_leb a b = true.

(** [final_dataframe['Price-to-Earnings Ratio'] > 0]: false on a missing
    ratio. *)
Definition positive_pe (r : quote_row) : bool :=
  match quote_PE r with
  | Some x => Qltb 0 x
  | None => false
  end.

(** [sort_values] (default quicksort, as for the RV score), the mask
    [> 0], and [[:50]]. *)
Definition sort_values_by_PE (df sorted : list quote_row) : Prop :=
  Permutation df sorted /\ StronglySorted pe_le sorted.

Definition pe_screener (df out : list quote_row) : Prop :=
  exists sorted,
    sort_values_by_PE df sorted
    /\ out = firstn 50 (filter positive_pe sorted).

(** Straight insertion on the ratio, an instance of [sort_values]. *)
Fixpoint insert_by_pe (r : quote_row) (l : list quote_row)
  : list quote_row :=
  match l with
  | [] => [r]
  | x :: rest =>
      if pe_leb r x then r :: x :: rest else x :: insert_by_pe r rest
  end.

Definition sort_by_pe (df : list quote_row) : list quote_row :=
  fold_right insert_by_pe [] df.

(** * Vocabulary of the properties *)

Definition metric_eq_dec (a b : metric) : {a = b} + {a <> b}.
Proof. decide equality. Defined.

(** What imputation never touches in a row: every column that is not a
    metric, and every metric cell that already holds a value. *)
Definition frame_preserved (r r' : row) : Prop :=
  Ticker r' = Ticker r
  /\ Price r' = Price r
  /\ Shares r' = Shares r
  /\ (forall m, percentile_of m r' = percentile_of m r)
  /\ RV_Score r' = RV_Score r
  /\ (forall m v, metric_of m r = Some v -> metric_of m r' = Some v).

(** A column with no missing value, and a column with nothing else. *)
Definition no_missing (a : list (option Q)) : Prop :=
  Forall (fun x => x <> None) a.

Definition all_missing (a : list (option Q)) : Prop :=
  Forall (fun x => x = None) a.

(** The five columns of a frame are settled when each of them is complete
    or empty. *)
Definition settled (u : universe) : Prop :=
  forall c, no_missing (column c u) \/ all_missing (column c u).

(** A column has a value when one of its rows holds one. *)
Definition has_value (c : metric) (u : universe) : Prop :=
  exists r, In r u /\ metric_of c r <> None.


(** The percentile of the code for a value of the column: the mean of the
    ranks its ties occupy, over the size of the column. *)
Definition rank_percentile (a : list (option Q)) (v : Q) : Q :=
  inject_Z (Z.of_nat (count_lt a v + count_le a v + 1))
  / inject_Z (Z.of_nat (2 * List.length a)).

(** The three cells after the frame is built, run one after the other;
    the percentile cell has bound [metrics] when the scoring cell runs. *)
Definition rv_pipeline (df : universe) : result universe :=
  rv_score_stage (Some metrics_keys) (percentile_stage (impute df)).

(** ** Sample frames *)

(** A row as [build_row] leaves it. *)
Definition fresh_row (ticker : string) (price pe pb ps ev_ebitda ev_gp
  : option Q) : row :=
  mkRow ticker price NA pe NA pb NA ps NA ev_ebitda NA ev_gp NA NA.

(** Two rows with the same price-to-earnings ratio. *)
Definition tied_pair : universe :=
  [ fresh_row "AAA" (Some 100) (Some 10) (Some 1) (Some 2) (Some 3) (Some 4);
    fresh_row "BBB" (Some 50) (Some 10) (Some 2) (Some 3) (Some 4) (Some 5) ].

(** Three rows with price-to-earnings ratios 10, 20 and a missing one. *)
Definition three_rows : universe :=
  [ fresh_row "AAA" (Some 100) (Some 10) (Some 1) (Some 2) None (Some 4);
    fresh_row "BBB" (Some 50) (Some 20) None (Some 3) (Some 4) (Some 5);
    fresh_row "CCC" (Some 25) None (Some 3) (Some 5) (Some 6) None ].

(** The payload of one symbol whose EBITDA is [null]. *)
Definition null_ebitda_payload : list (string * raw_fields) :=
  [ ("AAA"%string,
      mkRaw (Some 100) (Some 10) (Some 2) (Some 3)
        (JNum 500) JNull (JNum 50)) ].

(** The frame built from [null_ebitda_payload]. *)
Definition null_ebitda_frame : universe :=
  [ fresh_row "AAA" (Some 100) (Some 10) (Some 2) (Some 3) None
      (Some (500 / 50)) ].

(** A selected row priced at 100 dollars, and one with a negative price. *)
Definition hundred_dollar_row : row :=
  fresh_row "AAA" (Some 100) (Some 10) (Some 1) (Some 2) (Some 3) (Some 4).

Definition negative_price_row : row :=
  fresh_row "NEG" (Some (- (10))) (Some 10) (Some 1) (Some 2) (Some 3)
    (Some 4).

Definition zero_price_row : row :=
  fresh_row "ZERO" (Some 0) (Some 10) (Some 1) (Some 2) (Some 3) (Some 4).

Definition seven_dollar_row : row :=
  fresh_row "SEVEN" (Some 7) (Some 10) (Some 1) (Some 2) (Some 3) (Some 4).

(** The relative error of one rounding to binary64, at most. *)
Definition unit_roundoff : Q := 2 ^ (-53).

(** A rational that binary64 represents exactly (in lowest terms, as
    [round_float64] returns it). *)
Definition is_float64 (q : Q) : Prop := round_float64 q = Finite q.

(** A magnitude that the two divisions of the allocation handle without
    underflow or overflow: between 2^-1021 and 2^1023. *)
Definition in_float64_range (q : Q) : Prop :=
  2 ^ (-1021) <= Qabs q /\ Qabs q <= 2 ^ 1023.

(** The quotient of two floats by its value, when it is finite. *)
Definition fl_div (a b : Q) : Q := Qred (float64_value (a / b)).

(** A price the allocation divides a position size of about [x] by without
    incident: a float other than zero, the quotient within the range. *)
Definition tradable (x p : Q) : Prop :=
  is_float64 p /\ ~ p == 0 /\ in_float64_range (x / p).

(** The share count the allocation writes for a row, given the value of
    the position size: the floor of the rounded quotient. *)
Definition shares_for (position_size : Q) (r : row) : Z :=
  match Price r with
  | Some price => Qfloor (fl_div position_size price)
  | None => 0%Z
  end.

(** Python's [ArithmeticError] among the exceptions of the model. *)
Definition arithmetic_error (e : exn) : Prop :=
  e = ZeroDivisionError \/ e = OverflowError.

(** The exception a price of zero ends the allocation with. *)
Definition zero_price_error (dtype : price_dtype) : exn :=
  match dtype with
  | object_dtype => ZeroDivisionError
  | float64_dtype => OverflowError
  end.


Definition priced (P : Q -> Prop) (r : row) : Prop :=
  exists price, Price r = Some price /\ P price.

(** Two rows tie when their RV scores are equal. *)
Definition tied (a b : row) : bool := score_leb a b && score_leb b a.

(** A frame is free of ties when every row ties with itself only. *)
Definition tie_free (df : universe) : Prop :=
  forall a, In a df -> List.length (filter (tied a) df) = 1%nat.

(** A row that has been ranked and scored, its five percentiles and its RV
    score all equal to [s]. *)
Definition scored_row (ticker : string) (s : Q) : row :=
  mkRow ticker (Some 100) NA
    (Some 10) (Computed (Some s)) (Some 1) (Computed (Some s))
    (Some 2) (Computed (Some s)) (Some 3) (Computed (Some s))
    (Some 4) (Computed (Some s)) (Computed (Some s)).

Definition half_scored_row (ticker : string) : row :=
  scored_row ticker (1 # 2).

(** Two scored rows with different scores, the dearer one first. *)
Definition two_scored : universe :=
  [ scored_row "AAA" (3 # 4); scored_row "BBB" (1 # 4) ].

(** Eighteen rows with the same RV score. *)
Definition eighteen_ties : universe :=
  map half_scored_row
    [ "T00"; "T01"; "T02"; "T03"; "T04"; "T05"; "T06"; "T07"; "T08";
      "T09"; "T10"; "T11"; "T12"; "T13"; "T14"; "T15"; "T16"; "T17" ]%string.

(** The order NumPy's quicksort leaves them in. *)
Definition eighteen_ties_sorted : universe :=
  map half_scored_row
    [ "T00"; "T15"; "T14"; "T13"; "T12"; "T11"; "T10"; "T09"; "T08";
      "T07"; "T06"; "T05"; "T04"; "T03"; "T02"; "T01"; "T16"; "T17" ]%string.

(** Whether a character occurs in a string. *)
Fixpoint has_char (c : ascii) (s : string) : bool :=
  match s with
  | EmptyString => false
  | String a rest => Ascii.eqb a c || has_char c rest
  end.

(** A ticker that can be written in a comma-separated list. *)
Definition comma_free (t : string) : Prop := has_char "," t = false.

(** The result of the loading loop when it is fed by [build_frame]. *)
Definition loaded_of_result (r : result universe) : loaded :=
  match r with
  | Ok df => Frame df
  | Raise e => Failed e
  end.

(** A row as the loading loop appends it: the placeholders are in place. *)
Definition placeholders (r : row) : Prop :=
  Shares r = NA /\ RV_Score r = NA /\ forall m, percentile_of m r = NA.

(** Two payloads: an EBITDA of zero, and an EBITDA of [null]. *)
Definition zero_ebitda_fields : raw_fields :=
  mkRaw (Some 150) (Some 30) (Some 40) (Some 7) (JNum 2500) (JNum 0)
    (JNum 170).

Definition null_ebitda_fields : raw_fields :=
  mkRaw (Some 150) (Some 30) (Some 40) (Some 7) (JNum 2500) JNull
    (JNum 170).

(** A provider that knows two symbols, whatever the batch. *)
Definition sample_get (symbol_string symbol : string) : option raw_fields :=
  if String.eqb symbol "AAA" then Some null_ebitda_fields
  else if String.eqb symbol "BBB" then Some zero_ebitda_fields
  else None.

(** Equality of two cells up to the equality of rationals. *)
Definition option_Qeq (a b : option Q) : Prop :=
  match a, b with
  | Some x, Some y => x == y
  | None, None => True
  | _, _ => False
  end.

(** What [fillna(value)] does to one cell. *)
Definition fill_cell (value x : option Q) : option Q :=
  match x with
  | Some v => Some v
  | None => value
  end.

(** The number of missing cells of a column. *)
Definition count_missing (a : list (option Q)) : nat :=
  List.length (filter is_missing a).

(** What the percentile cell and the scoring cell never touch in a row. *)
Definition data_preserved (r r' : row) : Prop :=
  Ticker r' = Ticker r
  /\ Price r' = Price r
  /\ Shares r' = Shares r
  /\ forall m, metric_of m r' = metric_of m r.

(** The price of one share of every row. *)
Definition total_price (df : universe) : Q :=
  Qsum (map (fun r => match Price r with
                      | Some price => price
                      | None => 0
                      end) df).

(** Four quotes: a loss-making company, one without a ratio, and two
    profitable ones. *)
Definition sample_quotes : list quote_row :=
  [ mkQuote "LOSS" (Some 20) (Some (- (5))) NA;
    mkQuote "DEAR" (Some 300) (Some 40) NA;
    mkQuote "NONE" (Some 10) None NA;
    mkQuote "CHEAP" (Some 50) (Some 8) NA ].

(** The percentile a row holds for a metric, as a number (0 while the cell
    holds 'N/A' or NaN), and the percentiles of a whole column. *)
Definition percentile_value (m : metric) (r : row) : Q :=
  match percentile_of m r with
  | Computed (Some p) => p
  | _ => 0
  end.

Definition percentile_values (m : metric) (df : universe) : list Q :=
  map (percentile_value m) df.

(** A truth value as a count, and the counts of a column summed over a
    list of values. *)
Definition b2n (b : bool) : nat := if b then 1%nat else 0%nat.

Definition rank_total (a : list (option Q)) (vs : list Q) : nat :=
  list_sum (map (fun v => (count_lt a v + count_le a v)%nat) vs).

(** The RV score a row holds, as a number (0 while the cell holds 'N/A' or
    NaN). *)
Definition score_value (r : row) : Q :=
  match RV_Score r with
  | Computed (Some s) => s
  | _ => 0
  end.

(** * Properties *)

(** ** Lists *)

Section ListFacts.

Context {A : Type}.

Lemma some_inj (x y : A) : Some x = Some y -> x = y.
Proof. congruence. Qed.


Lemma filter_length_le (f : A -> bool) (l : list A) :
  (List.length (filter f l) <= List.length l)%nat.
Proof.
  induction l as [| x l IH]; simpl; trivial.
  destruct (f x); simpl; lia.
Qed.

Lemma filter_length_mono (f g : A -> bool) (l : list A) :
  (forall x, f x = true -> g x = true) ->
  (List.length (filter f l) <= List.length (filter g l))%nat.
Proof.
  intro H. induction l as [| x l IH]; simpl; trivial.
  destruct (f x) eqn:F.
  - rewrite (H x F). simpl. lia.
  - destruct (g x); simpl; lia.
Qed.

Lemma filter_length_strict (f g : A -> bool) (l : list A) (y : A) :
  (forall x, f x = true -> g x = true) ->
  In y l -> f y = false -> g y = true ->
  (List.length (filter f l) < List.length (filter g l))%nat.
Proof.
  intros H Hin Hf Hg. induction l as [| x l IH]; [destruct Hin |].
  simpl. destruct Hin as [-> | Hin].
  - rewrite Hf, Hg. simpl.
    pose proof (filter_length_mono f g l H). lia.
  - specialize (IH Hin). destruct (f x) eqn:F.
    + rewrite (H x F). simpl. lia.
    + destruct (g x); simpl; lia.
Qed.

Lemma filter_two (f : A -> bool) (x y : A) (l : list A) :
  f x = true -> f y = true -> In y l ->
  (2 <= List.length (filter f (x :: l)))%nat.
Proof.
  intros Hx Hy Hin. simpl. rewrite Hx. simpl.
  assert (H : In y (filter f l)) by (apply filter_In; auto).
  destruct (filter f l); [destruct H | simpl; lia].
Qed.

Lemma nth_error_middle (pre : list A) (x : A) (l : list A) :
  nth_error (pre ++ x :: l) (List.length pre) = Some x.
Proof. induction pre as [| y pre IH]; simpl; trivial. Qed.

Lemma update_middle (pre : list A) (x y : A) (l : list A) :
  update (List.length pre) y (pre ++ x :: l) = pre ++ y :: l.
Proof. induction pre as [| z pre IH]; simpl; [| rewrite IH]; reflexivity. Qed.

Lemma StronglySorted_firstn (R : A -> A -> Prop) (n : nat)
  (l : list A) :
  StronglySorted R l -> StronglySorted R (firstn n l).
Proof.
  revert l. induction n as [| n IH]; intros l H; simpl; [constructor |].
  destruct l as [| x l]; [constructor |].
  apply StronglySorted_inv in H. destruct H as [Hs Hall].
  constructor; [now apply IH |].
  rewrite Forall_forall in *. intros y Hy. apply Hall.
  rewrite <- (firstn_skipn n l). apply in_or_app. now left.
Qed.

Lemma Permutation_filter (f : A -> bool) (l l' : list A) :
  Permutation l l' -> Permutation (filter f l) (filter f l').
Proof.
  induction 1 as [| x l l' _ IH | x y l | l l' l'' _ IH1 _ IH2]; simpl.
  - constructor.
  - destruct (f x); [now apply perm_skip | exact IH].
  - destruct (f x), (f y); try apply Permutation_refl. apply perm_swap.
  - eapply perm_trans; eauto.
Qed.

End ListFacts.

(** ** The enterprise-value ratios *)

Lemma py_truediv_cases (a b : json) :
  py_truediv a b = Raise TypeError
  \/ py_truediv a b = Raise ZeroDivisionError
  \/ exists x y, a = JNum x /\ b = JNum y /\ ~ y == 0
                 /\ py_truediv a b = Ok (x / y).
Proof.
  destruct a as [| x | s]; destruct b as [| y | t]; simpl; auto.
  destruct (Qeq_bool y 0) eqn:E.
  - right; left; reflexivity.
  - right; right. exists x, y. repeat split; trivial.
    intro H. apply Qeq_bool_iff in H. congruence.
Qed.

(** A missing or non-numeric operand gives the missing value: the
    [TypeError] of the division is caught. *)
Lemma ev_ratio_non_numeric (ev d : json) :
  (forall x, ev <> JNum x) \/ (forall y, d <> JNum y) ->
  ev_ratio ev d = Ok None.
Proof.
  intros [H | H].
  - destruct ev as [| x | s]; try reflexivity. now elim (H x).
  - destruct d as [| y | t]; destruct ev; try reflexivity; now elim (H y).
Qed.

(** With two numbers and a divisor that is not zero the ratio is the
    quotient. *)
Lemma ev_ratio_numeric (x y : Q) :
  ~ y == 0 -> ev_ratio (JNum x) (JNum y) = Ok (Some (x / y)).
Proof.
  intro H. unfold ev_ratio. simpl.
  destruct (Qeq_bool y 0) eqn:E; trivial.
  apply Qeq_bool_iff in E. contradiction.
Qed.

Lemma ev_ratio_zero_divisor (x y : Q) :
  y == 0 -> ev_ratio (JNum x) (JNum y) = Raise ZeroDivisionError.
Proof.
  intro H. unfold ev_ratio. simpl.
  apply Qeq_bool_iff in H. now rewrite H.
Qed.

(** C2, evaluated on the code: with a numeric enterprise value and an
    EBITDA of zero the division raises [ZeroDivisionError], which
    [except TypeError] does not catch; the ratio is not computed, and the
    construction of the row and of the whole frame stops with that
    exception. The same happens for a gross profit of zero, also after an
    EBITDA of [null] has been turned into NaN. *)
Theorem ev_ratio_zero_denominator_raises :
  (forall ev : Q, ev_ratio (JNum ev) (JNum 0) = Raise ZeroDivisionError)
  /\ (forall symbol price pe pb ps (ev : Q) gp,
        build_row symbol (mkRaw price pe pb ps (JNum ev) (JNum 0) gp)
        = Raise ZeroDivisionError)
  /\ (forall symbol price pe pb ps (ev : Q),
        build_row symbol (mkRaw price pe pb ps (JNum ev) JNull (JNum 0))
        = Raise ZeroDivisionError)
  /\ build_frame
       [("AAPL"%string,
          mkRaw (Some 150) (Some 30) (Some 40) (Some 7)
            (JNum 2500) (JNum 0) (JNum 170))]
     = Raise ZeroDivisionError.
Proof.
  split; [| split; [| split]]; intros; reflexivity.
Qed.

(** ** Setters and getters of a row *)

Lemma metric_set_metric_same (m : metric) (v : option Q) (r : row) :
  metric_of m (set_metric m v r) = v.
Proof. destruct m; reflexivity. Qed.

Lemma metric_set_metric_other (m c : metric) (v : option Q) (r : row) :
  c <> m -> metric_of m (set_metric c v r) = metric_of m r.
Proof. destruct m, c; intro H; try reflexivity; now elim H. Qed.

Lemma set_metric_missing_id (m : metric) (r : row) :
  metric_of m r = None -> set_metric m None r = r.
Proof. destruct r, m; simpl; intro H; now rewrite H. Qed.

Lemma metric_set_percentile (m c : metric) v (r : row) :
  metric_of m (set_percentile c v r) = metric_of m r.
Proof. destruct m, c; reflexivity. Qed.

Lemma percentile_set_percentile_same (m : metric) v (r : row) :
  percentile_of m (set_percentile m v r) = v.
Proof. destruct m; reflexivity. Qed.

Lemma percentile_set_percentile_other (m c : metric) v (r : row) :
  c <> m -> percentile_of m (set_percentile c v r) = percentile_of m r.
Proof. destruct m, c; intro H; try reflexivity; now elim H. Qed.

(** ** Imputation *)

Lemma frame_preserved_refl (r : row) : frame_preserved r r.
Proof. unfold frame_preserved; intuition. Qed.

Lemma frame_preserved_trans (a b c : row) :
  frame_preserved a b -> frame_preserved b c -> frame_preserved a c.
Proof.
  unfold frame_preserved.
  intros (T1 & P1 & S1 & C1 & R1 & M1) (T2 & P2 & S2 & C2 & R2 & M2).
  split; [congruence |].
  split; [congruence |].
  split; [congruence |].
  split; [intro m; rewrite C2; apply C1 |].
  split; [congruence |].
  intros m v H. apply M2, M1, H.
Qed.

Lemma frame_preserved_set_metric (c : metric) (v : option Q) (r : row) :
  metric_of c r = None -> frame_preserved r (set_metric c v r).
Proof.
  intro H. unfold frame_preserved.
  split; [destruct c; reflexivity |].
  split; [destruct c; reflexivity |].
  split; [destruct c; reflexivity |].
  split; [intro m; destruct c, m; reflexivity |].
  split; [destruct c; reflexivity |].
  intros m w Hm. destruct (metric_eq_dec c m) as [-> | Hne].
  - congruence.
  - now rewrite metric_set_metric_other.
Qed.

Lemma Forall2_frame_trans (a b c : universe) :
  Forall2 frame_preserved a b -> Forall2 frame_preserved b c ->
  Forall2 frame_preserved a c.
Proof.
  intro H. revert c.
  induction H as [| x y l l' Hxy _ IH]; intros c Hc; inversion Hc; subst.
  - constructor.
  - constructor; [eapply frame_preserved_trans; eauto | auto].
Qed.

Lemma fillna_frame (c : metric) (v : option Q) (u : universe) :
  Forall2 frame_preserved u (fillna c v u).
Proof.
  induction u as [| r u IH]; simpl; constructor; trivial.
  destruct (metric_of c r) eqn:E.
  - apply frame_preserved_refl.
  - now apply frame_preserved_set_metric.
Qed.

Lemma impute_unfold (u : universe) :
  impute u =
  let u1 := fillna PE (series_mean (column PE u)) u in
  let u2 := fillna PB (series_mean (column PB u1)) u1 in
  let u3 := fillna PS (series_mean (column PS u2)) u2 in
  let u4 := fillna EVEBITDA (series_mean (column EVEBITDA u3)) u3 in
  fillna EVGP (series_mean (column EVGP u4)) u4.
Proof. reflexivity. Qed.

Lemma impute_preserves_frame (u : universe) :
  Forall2 frame_preserved u (impute u).
Proof.
  rewrite impute_unfold. cbv zeta.
  do 4 (eapply Forall2_frame_trans; [| apply fillna_frame]).
  apply fillna_frame.
Qed.

Lemma impute_length (u : universe) :
  List.length (impute u) = List.length u.
Proof.
  symmetry. eapply Forall2_length. apply impute_preserves_frame.
Qed.

(** C10. Imputation writes missing metric cells only: row by row, the frame
    after imputation has the same ticker, price, shares cell, percentile
    cells and RV score cell as before, and every metric cell that held a
    value still holds that value; no row is added, dropped or moved. *)
Theorem impute_frame (u : universe) :
  Forall2 frame_preserved u (impute u)
  /\ List.length (impute u) = List.length u.
Proof.
  split; [apply impute_preserves_frame | apply impute_length].
Qed.

Lemma column_fillna_other (m c : metric) (v : option Q) (u : universe) :
  c <> m -> column m (fillna c v u) = column m u.
Proof.
  intro H. unfold column, fillna. rewrite map_map. apply map_ext.
  intro r. destruct (metric_of c r); trivial.
  now apply metric_set_metric_other.
Qed.

Lemma fillna_no_missing_id (c : metric) (v : option Q) (u : universe) :
  no_missing (column c u) -> fillna c v u = u.
Proof.
  unfold no_missing, column, fillna.
  induction u as [| r u IH]; simpl; intro H; trivial.
  inversion H as [| x l Hx Hl]; subst.
  rewrite IH by assumption.
  destruct (metric_of c r); [reflexivity | now elim Hx].
Qed.

Lemma fillna_all_missing_id (c : metric) (u : universe) :
  all_missing (column c u) -> fillna c None u = u.
Proof.
  unfold all_missing, column, fillna.
  induction u as [| r u IH]; simpl; intro H; trivial.
  inversion H as [| x l Hx Hl]; subst.
  rewrite IH by assumption. rewrite Hx.
  now rewrite set_metric_missing_id.
Qed.

Lemma fillna_value_no_missing (c : metric) (x : Q) (u : universe) :
  no_missing (column c (fillna c (Some x) u)).
Proof.
  unfold no_missing, column, fillna.
  induction u as [| r u IH]; simpl; constructor; trivial.
  destruct (metric_of c r) eqn:E.
  - rewrite E. discriminate.
  - rewrite metric_set_metric_same. discriminate.
Qed.

Lemma dropna_nil_all_missing (a : list (option Q)) :
  dropna a = [] -> all_missing a.
Proof.
  induction a as [| [v |] a IH]; simpl; intro H.
  - constructor.
  - discriminate.
  - constructor; [reflexivity | exact (IH H)].
Qed.

Lemma all_missing_dropna_nil (a : list (option Q)) :
  all_missing a -> dropna a = [].
Proof.
  induction 1 as [| x a Hx _ IH]; simpl; trivial. now rewrite Hx.
Qed.

Lemma series_mean_none (a : list (option Q)) :
  series_mean a = None <-> all_missing a.
Proof.
  unfold series_mean. split.
  - destruct (dropna a) eqn:E; [intros _ | discriminate].
    now apply dropna_nil_all_missing.
  - intro H. now rewrite (all_missing_dropna_nil a H).
Qed.

(** After one column has been filled with its own mean it has either no
    missing value left or no value at all. *)
Lemma fillna_mean_settles (c : metric) (u : universe) :
  let u' := fillna c (series_mean (column c u)) u in
  no_missing (column c u') \/ all_missing (column c u').
Proof.
  cbv zeta. destruct (series_mean (column c u)) as [x |] eqn:E.
  - left. apply fillna_value_no_missing.
  - right. apply series_mean_none in E.
    now rewrite (fillna_all_missing_id c u E).
Qed.

Lemma settled_fillna_id (c : metric) (u : universe) :
  no_missing (column c u) \/ all_missing (column c u) ->
  fillna c (series_mean (column c u)) u = u.
Proof.
  intros [H | H].
  - now apply fillna_no_missing_id.
  - assert (E : series_mean (column c u) = None)
      by now apply series_mean_none.
    rewrite E. now apply fillna_all_missing_id.
Qed.

Lemma impute_settled_id (u : universe) : settled u -> impute u = u.
Proof.
  intro H. rewrite impute_unfold. cbv zeta.
  rewrite (settled_fillna_id PE u (H PE)).
  rewrite (settled_fillna_id PB u (H PB)).
  rewrite (settled_fillna_id PS u (H PS)).
  rewrite (settled_fillna_id EVEBITDA u (H EVEBITDA)).
  apply (settled_fillna_id EVGP u (H EVGP)).
Qed.

Lemma impute_settles (u : universe) : settled (impute u).
Proof.
  rewrite impute_unfold. cbv zeta.
  set (u1 := fillna PE (series_mean (column PE u)) u).
  set (u2 := fillna PB (series_mean (column PB u1)) u1).
  set (u3 := fillna PS (series_mean (column PS u2)) u2).
  set (u4 := fillna EVEBITDA (series_mean (column EVEBITDA u3)) u3).
  set (u5 := fillna EVGP (series_mean (column EVGP u4)) u4).
  pose proof (fillna_mean_settles PE u) as H1.
  pose proof (fillna_mean_settles PB u1) as H2.
  pose proof (fillna_mean_settles PS u2) as H3.
  pose proof (fillna_mean_settles EVEBITDA u3) as H4.
  pose proof (fillna_mean_settles EVGP u4) as H5.
  cbv zeta in H1, H2, H3, H4, H5.
  fold u1 in H1. fold u2 in H2. fold u3 in H3. fold u4 in H4. fold u5 in H5.
  intro c. destruct c.
  - unfold u5, u4, u3, u2.
    rewrite !column_fillna_other by discriminate. exact H1.
  - unfold u5, u4, u3.
    rewrite !column_fillna_other by discriminate. exact H2.
  - unfold u5, u4.
    rewrite !column_fillna_other by discriminate. exact H3.
  - unfold u5.
    rewrite !column_fillna_other by discriminate. exact H4.
  - exact H5.
Qed.

(** A second imputation is the identity, for every frame. *)
Lemma impute_twice (u : universe) : impute (impute u) = impute u.
Proof. apply impute_settled_id, impute_settles. Qed.

Lemma has_value_not_all_missing (c : metric) (u : universe) :
  has_value c u -> ~ all_missing (column c u).
Proof.
  intros (r & Hin & Hr) H. unfold all_missing, column in H.
  rewrite Forall_forall in H. apply Hr, H, in_map, Hin.
Qed.

Lemma frame_has_value (c : metric) (u u' : universe) :
  Forall2 frame_preserved u u' -> has_value c u -> has_value c u'.
Proof.
  induction 1 as [| r r' u u' Hr _ IH]; intros (x & Hin & Hx).
  - destruct Hin.
  - destruct Hin as [-> | Hin].
    + exists r'. split; [now left |].
      destruct (metric_of c x) as [v |] eqn:E; [| now elim Hx].
      destruct Hr as (_ & _ & _ & _ & _ & Hm).
      rewrite (Hm c v E). discriminate.
    + destruct IH as (y & Hy & Hy'); [now exists x |].
      exists y. split; [now right | trivial].
Qed.

Lemma impute_no_missing (c : metric) (u : universe) :
  has_value c u -> no_missing (column c (impute u)).
Proof.
  intro H. destruct (impute_settles u c) as [Hc | Hc]; trivial.
  exfalso. revert Hc. apply has_value_not_all_missing.
  eapply frame_has_value; [apply impute_preserves_frame | exact H].
Qed.

(** C5. When each of the five metric columns has at least one value, one
    imputation leaves no missing cell in them, and a second imputation
    returns the frame it was given. *)
Theorem impute_idempotent (u : universe)
  (H : forall c, In c imputed_columns -> has_value c u) :
  (forall c r, In r (impute u) -> metric_of c r <> None)
  /\ impute (impute u) = impute u.
Proof.
  split; [| apply impute_twice].
  intros c r Hin.
  assert (Hc : In c imputed_columns) by (destruct c; simpl; tauto).
  pose proof (impute_no_missing c u (H c Hc)) as Hn.
  unfold no_missing, column in Hn. rewrite Forall_forall in Hn.
  apply Hn. now apply in_map.
Qed.

(** ** Percentiles *)

Lemma Qltb_lt (x y : Q) : Qltb x y = true <-> x < y.
Proof.
  unfold Qltb. rewrite negb_true_iff. split; intro H.
  - apply Qnot_le_lt. intro L. apply Qle_bool_iff in L. congruence.
  - destruct (Qle_bool y x) eqn:E; trivial.
    apply Qle_bool_iff in E. apply Qle_not_lt in E. contradiction.
Qed.

Lemma count_lt_le (a : list (option Q)) (s : Q) :
  (count_lt a s <= count_le a s)%nat.
Proof.
  apply filter_length_mono. intros [v |] H; [| discriminate].
  apply Qle_bool_iff, Qlt_le_weak, Qltb_lt, H.
Qed.

Lemma count_le_length (a : list (option Q)) (s : Q) :
  (count_le a s <= List.length a)%nat.
Proof. apply filter_length_le. Qed.

(** A value of the column counts itself among the values at most it and
    not among the values below it. *)
Lemma count_lt_member (a : list (option Q)) (s : Q) :
  In (Some s) a -> (count_lt a s < count_le a s)%nat.
Proof.
  intro Hin. apply (filter_length_strict _ _ a (Some s)); trivial.
  - intros [v |] H; [| discriminate].
    apply Qle_bool_iff, Qlt_le_weak, Qltb_lt, H.
  - destruct (Qltb s s) eqn:E; trivial.
    apply Qltb_lt in E. now apply Qlt_irrefl in E.
  - apply Qle_bool_iff, Qle_refl.
Qed.



Lemma inject_nat_pos (n : nat) : (0 < n)%nat -> 0 < inject_Z (Z.of_nat n).
Proof. intro H. change 0 with (inject_Z 0). rewrite <- Zlt_Qlt. lia. Qed.

Lemma Qdiv_le_mono (a b d : Q) : 0 < d -> a <= b -> a / d <= b / d.
Proof.
  intros Hd H. unfold Qdiv. apply Qmult_le_compat_r; trivial.
  apply Qlt_le_weak, Qinv_lt_0_compat, Hd.
Qed.


Lemma Qpercent_half (x n : Q) : ~ n == 0 -> x * 50 / n / 100 == x / (2 * n).
Proof. intro H. field. exact H. Qed.

Lemma inject_nat_double (n : nat) :
  inject_Z (Z.of_nat (2 * n)) == 2 * inject_Z (Z.of_nat n).
Proof. rewrite Nat2Z.inj_mul, inject_Z_mult. reflexivity. Qed.

Lemma inject_nat_nonzero (n : nat) :
  (0 < n)%nat -> ~ inject_Z (Z.of_nat n) == 0.
Proof.
  intros H E. pose proof (inject_nat_pos n H) as Hp.
  rewrite E in Hp. now apply Qlt_irrefl in Hp.
Qed.




(** What [percentileofscore(a, s) / 100] is for a value [s] of [a]. *)
Lemma percentileofscore_member (a : list (option Q)) (s : Q) :
  In (Some s) a ->
  exists p, nan_div (percentileofscore a (Some s)) 100 = Some p
            /\ p == rank_percentile a s.
Proof.
  intro Hin. unfold percentileofscore.
  destruct a as [| x a']; [destruct Hin |].
  set (a := x :: a') in *.
  pose proof (count_lt_member a s Hin) as H1.
  apply Nat.ltb_lt in H1. rewrite H1. cbv beta iota zeta delta [nan_div].
  eexists. split; [reflexivity |].
  unfold rank_percentile.
  replace (count_le a s + count_lt a s + 1)%nat
    with (count_lt a s + count_le a s + 1)%nat by lia.
  assert (Hn : (0 < List.length a)%nat) by (unfold a; simpl; lia).
  rewrite inject_nat_double.
  apply Qpercent_half, inject_nat_nonzero, Hn.
Qed.

(** The percentile cell is within [0, 1] whatever the column holds. *)
Lemma percentileofscore_unit_interval (a : list (option Q)) (x : option Q)
  (p : Q) :
  nan_div (percentileofscore a x) 100 = Some p -> 0 <= p /\ p <= 1.
Proof.
  unfold percentileofscore. destruct x as [s |]; [| discriminate].
  destruct a as [| y a'].
  - simpl. intro H. injection H as <-. split; discriminate.
  - set (a := y :: a'). cbv beta iota zeta delta [nan_div].
    intro H. apply some_inj in H. subst p.
    assert (Hn : (0 < List.length a)%nat) by (unfold a; simpl; lia).
    pose proof (inject_nat_pos _ Hn) as Hp.
    pose proof (count_lt_le a s) as H1.
    pose proof (count_le_length a s) as H2.
    set (N := (count_le a s + count_lt a s
               + (if (count_lt a s <? count_le a s)%nat then 1 else 0))%nat).
    assert (HN : (N <= 2 * List.length a)%nat).
    { unfold N. destruct (count_lt a s <? count_le a s)%nat eqn:E.
      - apply Nat.ltb_lt in E. lia.
      - lia. }
    assert (E : inject_Z (Z.of_nat N) * 50 / inject_Z (Z.of_nat (List.length a))
                / 100
                == inject_Z (Z.of_nat N)
                   / inject_Z (Z.of_nat (2 * List.length a))).
    { rewrite inject_nat_double.
      apply Qpercent_half, inject_nat_nonzero, Hn. }
    rewrite E.
    assert (Hd : 0 < inject_Z (Z.of_nat (2 * List.length a)))
      by (apply inject_nat_pos; lia).
    split.
    + apply Qle_shift_div_l; trivial. rewrite Qmult_0_l.
      change 0 with (inject_Z 0). rewrite <- Zle_Qle. lia.
    + apply Qle_shift_div_r; trivial. rewrite Qmult_1_l.
      rewrite <- Zle_Qle. lia.
Qed.

Lemma percentile_row_cell (m : metric) (df : universe) (r : row) :
  percentile_of m (percentile_row df r)
  = Computed (nan_div (percentileofscore (column m df) (metric_of m r)) 100).
Proof. destruct m; reflexivity. Qed.

Lemma percentile_row_metric (m : metric) (df : universe) (r : row) :
  metric_of m (percentile_row df r) = metric_of m r.
Proof. destruct m; reflexivity. Qed.

Lemma column_middle_percentile (m c : metric) v (pre l : universe) (x : row) :
  column m (pre ++ set_percentile c v x :: l) = column m (pre ++ x :: l).
Proof.
  unfold column. rewrite !map_app. simpl.
  now rewrite metric_set_percentile.
Qed.

Lemma percentile_assign_middle (m : metric) (pre l : universe) (x : row) :
  percentile_assign (List.length pre) m (pre ++ x :: l)
  = pre ++ set_percentile m
             (Computed (nan_div (percentileofscore
                                   (column m (pre ++ x :: l)) (metric_of m x))
                          100)) x :: l.
Proof.
  unfold percentile_assign. rewrite nth_error_middle.
  apply update_middle.
Qed.

(** The inner loop on the row at one position. *)
Lemma percentile_inner_loop (df0 pre l : universe) (x : row) :
  (forall m, column m (pre ++ x :: l) = column m df0) ->
  fold_left (fun df2 m => percentile_assign (List.length pre) m df2)
    metrics_keys (pre ++ x :: l)
  = pre ++ percentile_row df0 x :: l.
Proof.
  intro H. unfold metrics_keys, percentile_row. simpl fold_left.
  repeat (rewrite percentile_assign_middle;
          rewrite ?column_middle_percentile; rewrite H).
  reflexivity.
Qed.

Lemma percentile_outer_loop (df0 pre l : universe) :
  (forall m, column m (pre ++ l) = column m df0) ->
  fold_left
    (fun df1 i =>
       fold_left (fun df2 m => percentile_assign i m df2) metrics_keys df1)
    (seq (List.length pre) (List.length l)) (pre ++ l)
  = pre ++ map (percentile_row df0) l.
Proof.
  revert pre. induction l as [| x l IH]; intros pre H; [reflexivity |].
  change (List.length (x :: l)) with (S (List.length l)).
  rewrite <- cons_seq. cbn [fold_left map].
  rewrite (percentile_inner_loop df0 pre l x H).
  replace (S (List.length pre)) with (List.length (pre ++ [percentile_row df0 x]))
    by (rewrite length_app; simpl; lia).
  change (pre ++ percentile_row df0 x :: l)
    with (pre ++ [percentile_row df0 x] ++ l).
  rewrite app_assoc. rewrite IH.
  - rewrite <- app_assoc. reflexivity.
  - intro m. rewrite <- H. unfold column. rewrite !map_app. simpl.
    rewrite percentile_row_metric, <- app_assoc. reflexivity.
Qed.

(** The cell, row by row: every row receives its five percentiles, computed
    on the metric columns of the frame the cell started from. *)
Lemma percentile_stage_map (df : universe) :
  percentile_stage df = map (percentile_row df) df.
Proof.
  unfold percentile_stage.
  apply (percentile_outer_loop df [] df). reflexivity.
Qed.

Lemma column_percentile_stage (m : metric) (df : universe) :
  column m (percentile_stage df) = column m df.
Proof.
  rewrite percentile_stage_map. unfold column. rewrite map_map.
  apply map_ext. intro r. apply percentile_row_metric.
Qed.

(** A row of the frame after the percentile cell, read back: its metric
    value is a value of the column, and its percentile cell is the rank
    percentile of that value. *)
Lemma percentile_stage_row (m : metric) (u : universe) (r' : row) :
  no_missing (column m u) ->
  In r' (percentile_stage u) ->
  exists v p,
    metric_of m r' = Some v
    /\ In (Some v) (column m u)
    /\ percentile_of m r' = Computed (Some p)
    /\ p == rank_percentile (column m u) v.
Proof.
  intros Hc Hin. rewrite percentile_stage_map in Hin.
  apply in_map_iff in Hin. destruct Hin as (r & <- & Hr).
  assert (Hcol : In (metric_of m r) (column m u)) by now apply in_map.
  unfold no_missing in Hc. rewrite Forall_forall in Hc.
  destruct (metric_of m r) as [v |] eqn:E; [| now elim (Hc None Hcol)].
  destruct (percentileofscore_member (column m u) v Hcol) as (p & Hp & Hq).
  exists v, p. rewrite percentile_row_metric, percentile_row_cell, E, Hp.
  auto.
Qed.


Lemma percentile_row_data (df : universe) (r : row) :
  data_preserved r (percentile_row df r)
  /\ RV_Score (percentile_row df r) = RV_Score r.
Proof.
  unfold data_preserved.
  split; [| reflexivity].
  split; [reflexivity |]. split; [reflexivity |]. split; [reflexivity |].
  intro m. apply percentile_row_metric.
Qed.


Lemma percentile_stage_length (u : universe) :
  List.length (percentile_stage u) = List.length u.
Proof. rewrite percentile_stage_map. apply length_map. Qed.







(** The end-to-end scenario of the specification: ratios 10, 20 and a
    missing one; the missing one becomes 15, and the percentiles are 1/3, 1
    and 2/3. *)
Example three_rows_percentiles :
  match map (fun r => (metric_of PE r, percentile_of PE r))
          (percentile_stage (impute three_rows)) with
  | [(Some v1, Computed (Some p1)); (Some v2, Computed (Some p2));
     (Some v3, Computed (Some p3))] =>
      v1 == 10 /\ v2 == 20 /\ v3 == 15
      /\ p1 == 1 # 3 /\ p2 == 1 /\ p3 == 2 # 3
  | _ => False
  end.
Proof. vm_compute. repeat split; reflexivity. Qed.

Lemma impute_idempotent_witness :
  (forall c, In c imputed_columns -> has_value c three_rows)
  /\ (forall c r, In r (impute three_rows) -> metric_of c r <> None)
  /\ impute (impute three_rows) = impute three_rows.
Proof.
  assert (H : forall c, In c imputed_columns -> has_value c three_rows).
  { intros c _. destruct c.
    - exists (nth 0 three_rows (fresh_row "" None None None None None None)).
      split; [simpl; tauto | discriminate].
    - exists (nth 0 three_rows (fresh_row "" None None None None None None)).
      split; [simpl; tauto | discriminate].
    - exists (nth 0 three_rows (fresh_row "" None None None None None None)).
      split; [simpl; tauto | discriminate].
    - exists (nth 1 three_rows (fresh_row "" None None None None None None)).
      split; [simpl; tauto | discriminate].
    - exists (nth 0 three_rows (fresh_row "" None None None None None None)).
      split; [simpl; tauto | discriminate]. }
  split; [exact H |].
  exact (impute_idempotent three_rows H).
Defined.

(** ** The RV score *)

Lemma Qmean5 (p1 p2 p3 p4 p5 : Q) :
  Qsum [p1; p2; p3; p4; p5] / inject_Z (Z.of_nat 5)
  == (p1 + p2 + p3 + p4 + p5) / 5.
Proof. simpl. field. Qed.

Lemma Qmean5_weights (p1 p2 p3 p4 p5 : Q) :
  (p1 + p2 + p3 + p4 + p5) / 5
  == (1 # 5) * p1 + (1 # 5) * p2 + (1 # 5) * p3 + (1 # 5) * p4 + (1 # 5) * p5.
Proof. field. Qed.

(** The score of a row whose five percentile cells hold floats that are
    not NaN. *)
Lemma rv_score_row_defined (r : row) (p1 p2 p3 p4 p5 : Q) :
  PE_Percentile r = Computed (Some p1) ->
  PB_Percentile r = Computed (Some p2) ->
  PS_Percentile r = Computed (Some p3) ->
  EV_EBITDA_Percentile r = Computed (Some p4) ->
  EV_GP_Percentile r = Computed (Some p5) ->
  rv_score_row (Some metrics_keys) r
  = Ok (set_RV_Score
          (Computed (Some (Qsum [p1; p2; p3; p4; p5]
                           / inject_Z (Z.of_nat 5)))) r).
Proof.
  intros H1 H2 H3 H4 H5. unfold rv_score_row, lookup_metrics, mean.
  cbn [bind]. simpl map.
  rewrite H1, H2, H3, H4, H5. reflexivity.
Qed.

Lemma percentile_stage_cell_bounds (df : universe) (r : row) (m : metric)
  (p : Q) :
  In r (percentile_stage df) ->
  percentile_of m r = Computed (Some p) -> 0 <= p /\ p <= 1.
Proof.
  intros Hin Hp. rewrite percentile_stage_map in Hin.
  apply in_map_iff in Hin. destruct Hin as (r0 & <- & _).
  rewrite percentile_row_cell in Hp.
  apply (percentileofscore_unit_interval (column m df) (metric_of m r0)).
  congruence.
Qed.

(** The scoring cell reaches every row of the frame, in order. *)
Lemma rv_score_stage_rows (metrics : option (list metric))
  (df out : universe) :
  rv_score_stage metrics df = Ok out ->
  Forall2 (fun r r' => rv_score_row metrics r = Ok r') df out.
Proof.
  revert out. induction df as [| r df IH]; simpl; intros out H.
  - injection H as <-. constructor.
  - destruct (rv_score_row metrics r) as [r' |] eqn:E; [| discriminate].
    simpl in H.
    destruct (rv_score_stage metrics df) as [rest |] eqn:E'; [| discriminate].
    simpl in H. injection H as <-. constructor; auto.
Qed.

Lemma rv_score_stage_nth (metrics : option (list metric))
  (df out : universe) (i : nat) (r : row) :
  rv_score_stage metrics df = Ok out ->
  nth_error df i = Some r ->
  exists r', nth_error out i = Some r' /\ rv_score_row metrics r = Ok r'.
Proof.
  intro H. apply rv_score_stage_rows in H. revert i.
  induction H as [| x x' df out Hx _ IH]; intros i Hi.
  - destruct i; discriminate.
  - destruct i as [| i]; simpl in *.
    + injection Hi as <-. eauto.
    + now apply IH.
Qed.

Lemma rv_score_stage_length (metrics : option (list metric))
  (df out : universe) :
  rv_score_stage metrics df = Ok out -> List.length out = List.length df.
Proof.
  intro H. apply rv_score_stage_rows in H.
  symmetry. eapply Forall2_length; eauto.
Qed.

Lemma percentile_row_computed (m : metric) (df : universe) (r : row) :
  exists x, percentile_of m (percentile_row df r) = Computed x.
Proof. rewrite percentile_row_cell. eauto. Qed.

Lemma rv_score_row_shape (r r' : row) :
  rv_score_row (Some metrics_keys) r = Ok r' -> exists s, r' = set_RV_Score (Computed s) r.
Proof.
  unfold rv_score_row, lookup_metrics. cbn [bind].
  destruct (mean (map (fun m => percentile_of m r) metrics_keys)) as [s | e];
    simpl; intro H; [| discriminate].
  injection H as <-. eauto.
Qed.

Lemma rv_score_row_ranked (r : row) :
  (forall m, exists x, percentile_of m r = Computed x) ->
  exists s, rv_score_row (Some metrics_keys) r = Ok (set_RV_Score (Computed s) r).
Proof.
  intro Hall. unfold rv_score_row, lookup_metrics, mean. cbn [bind]. simpl map.
  destruct (Hall PE) as (x1 & E1). destruct (Hall PB) as (x2 & E2).
  destruct (Hall PS) as (x3 & E3). destruct (Hall EVEBITDA) as (x4 & E4).
  destruct (Hall EVGP) as (x5 & E5).
  simpl in E1, E2, E3, E4, E5.
  rewrite E1, E2, E3, E4, E5.
  destruct x1, x2, x3, x4, x5; simpl; eauto.
Qed.

Lemma rv_score_stage_ranked (rows : universe) :
  Forall (fun r => forall m, exists x, percentile_of m r = Computed x) rows ->
  exists out, rv_score_stage (Some metrics_keys) rows = Ok out.
Proof.
  induction 1 as [| r rows Hr _ (out & IH)]; simpl; [eauto |].
  destruct (rv_score_row_ranked r Hr) as (s & ->). simpl.
  rewrite IH. simpl. eauto.
Qed.

Lemma percentile_stage_ranked (df : universe) :
  Forall (fun r => forall m, exists x, percentile_of m r = Computed x)
    (percentile_stage df).
Proof.
  rewrite percentile_stage_map. apply Forall_forall. intros r' Hin.
  apply in_map_iff in Hin. destruct Hin as (r & <- & _).
  intro m. apply percentile_row_computed.
Qed.

(** C6. After the imputation, percentile and scoring cells, every row of
    the frame whose five percentile cells are defined holds in its RV Score
    cell, next to unchanged cells, the unweighted mean of the five, each
    with weight 1/5; the score lies in [0, 1]. *)
Theorem rv_score_is_unweighted_mean (u : universe) :
  exists out,
    rv_pipeline u = Ok out
    /\ List.length out = List.length u
    /\ forall i r p1 p2 p3 p4 p5,
         nth_error (percentile_stage (impute u)) i = Some r ->
         PE_Percentile r = Computed (Some p1) ->
         PB_Percentile r = Computed (Some p2) ->
         PS_Percentile r = Computed (Some p3) ->
         EV_EBITDA_Percentile r = Computed (Some p4) ->
         EV_GP_Percentile r = Computed (Some p5) ->
         exists r' s,
           nth_error out i = Some r'
           /\ RV_Score r' = Computed (Some s)
           /\ r' = set_RV_Score (Computed (Some s)) r
           /\ s == (p1 + p2 + p3 + p4 + p5) / 5
           /\ s == (1 # 5) * p1 + (1 # 5) * p2 + (1 # 5) * p3 + (1 # 5) * p4
                   + (1 # 5) * p5
           /\ 0 <= s /\ s <= 1.
Proof.
  unfold rv_pipeline. set (df := percentile_stage (impute u)).
  destruct (rv_score_stage_ranked df (percentile_stage_ranked (impute u)))
    as (out & Ho).
  exists out. split; [exact Ho |].
  split.
  { rewrite (rv_score_stage_length _ _ _ Ho). unfold df.
    rewrite percentile_stage_length. apply impute_length. }
  intros i r p1 p2 p3 p4 p5 Hi H1 H2 H3 H4 H5.
  assert (Hin : In r df) by (eapply nth_error_In; eauto).
  destruct (rv_score_stage_nth _ _ _ i r Ho Hi) as (r' & Hn & Hr).
  rewrite (rv_score_row_defined r p1 p2 p3 p4 p5 H1 H2 H3 H4 H5) in Hr.
  injection Hr as <-.
  exists (set_RV_Score
            (Computed (Some (Qsum [p1; p2; p3; p4; p5]
                             / inject_Z (Z.of_nat 5)))) r),
    (Qsum [p1; p2; p3; p4; p5] / inject_Z (Z.of_nat 5)).
  split; [exact Hn |].
  split; [reflexivity |]. split; [reflexivity |].
  destruct (percentile_stage_cell_bounds _ r PE p1 Hin H1) as [L1 U1].
  destruct (percentile_stage_cell_bounds _ r PB p2 Hin H2) as [L2 U2].
  destruct (percentile_stage_cell_bounds _ r PS p3 Hin H3) as [L3 U3].
  destruct (percentile_stage_cell_bounds _ r EVEBITDA p4 Hin H4) as [L4 U4].
  destruct (percentile_stage_cell_bounds _ r EVGP p5 Hin H5) as [L5 U5].
  rewrite Qmean5.
  split; [reflexivity |].
  split; [apply Qmean5_weights |].
  split.
  - apply Qle_shift_div_l; [reflexivity | lra].
  - apply Qle_shift_div_r; [reflexivity | lra].
Qed.

Lemma rv_score_is_unweighted_mean_witness :
  exists out r' s,
    rv_pipeline tied_pair = Ok out
    /\ nth_error out 0 = Some r'
    /\ Ticker r' = "AAA"%string
    /\ RV_Score r' = Computed (Some s)
    /\ s == 11 # 20.
Proof.
  destruct (rv_score_is_unweighted_mean tied_pair) as (out & Ho & _ & Hrow).
  destruct (Hrow 0%nat _ _ _ _ _ _ eq_refl eq_refl eq_refl eq_refl eq_refl
              eq_refl) as (r' & s & Hn & Hs & Hr & Hm & _).
  exists out, r', s. split; [exact Ho |]. split; [exact Hn |].
  split; [rewrite Hr; reflexivity |]. split; [exact Hs |].
  rewrite Hm. reflexivity.
Defined.

(** ** A column with no value at all *)

Lemma fillna_keeps_all_missing (c c' : metric) (u : universe) :
  all_missing (column c u) ->
  all_missing (column c (fillna c' (series_mean (column c' u)) u)).
Proof.
  intro H. destruct (metric_eq_dec c' c) as [-> | Hne].
  - rewrite settled_fillna_id; auto.
  - now rewrite column_fillna_other.
Qed.

Lemma impute_keeps_all_missing (c : metric) (u : universe) :
  all_missing (column c u) -> all_missing (column c (impute u)).
Proof.
  intro H. rewrite impute_unfold. cbv zeta.
  do 5 apply fillna_keeps_all_missing. exact H.
Qed.

Lemma percentile_row_missing (c : metric) (df : universe) (r : row) :
  metric_of c r = None ->
  percentile_of c (percentile_row df r) = Computed None.
Proof. intro H. rewrite percentile_row_cell, H. reflexivity. Qed.

(** One NaN among five floats makes their mean NaN. *)
Lemma rv_score_row_nan (c : metric) (r : row) :
  (forall m, exists x, percentile_of m r = Computed x) ->
  percentile_of c r = Computed None ->
  rv_score_row (Some metrics_keys) r = Ok (set_RV_Score (Computed None) r).
Proof.
  intros Hall Hc. unfold rv_score_row, lookup_metrics, mean. cbn [bind]. simpl map.
  destruct (Hall PE) as (x1 & E1). destruct (Hall PB) as (x2 & E2).
  destruct (Hall PS) as (x3 & E3). destruct (Hall EVEBITDA) as (x4 & E4).
  destruct (Hall EVGP) as (x5 & E5).
  assert (Hnone : x1 = None \/ x2 = None \/ x3 = None \/ x4 = None
                  \/ x5 = None).
  { destruct c;
      [ left | right; left | right; right; left
      | right; right; right; left | right; right; right; right ];
      congruence. }
  simpl in E1, E2, E3, E4, E5.
  rewrite E1, E2, E3, E4, E5. simpl.
  destruct x1, x2, x3, x4, x5; try reflexivity;
    destruct Hnone as [N | [N | [N | [N | N]]]]; discriminate.
Qed.

Lemma rv_score_stage_nan (c : metric) (df rows : universe) :
  (forall r, In r rows -> metric_of c r = None) ->
  exists out,
    rv_score_stage (Some metrics_keys) (map (percentile_row df) rows) = Ok out
    /\ List.length out = List.length rows
    /\ forall r, In r out ->
                 RV_Score r = Computed None
                 /\ percentile_of c r = Computed None.
Proof.
  induction rows as [| r rows IH]; intro H.
  - exists []. simpl. split; [reflexivity |]. split; [reflexivity |].
    intros x [].
  - destruct IH as (out & Hout & Hlen & Hrows).
    { intros x Hx. apply H. now right. }
    assert (Hr : percentile_of c (percentile_row df r) = Computed None)
      by (apply percentile_row_missing, H; now left).
    exists (set_RV_Score (Computed None) (percentile_row df r) :: out).
    simpl.
    rewrite (rv_score_row_nan c (percentile_row df r)
               (fun m => percentile_row_computed m df r) Hr).
    simpl. rewrite Hout. simpl.
    split; [reflexivity |]. split; [now rewrite Hlen |].
    intros x [<- | Hin]; [| now apply Hrows].
    split; [reflexivity |]. destruct c; exact Hr.
Qed.

(** C8, as the code has it. When a metric column has no value at all,
    imputation raises nothing and leaves the column as it is; the three
    cells run to their end; and the missing value reaches the results: in
    every row the percentile of that metric is NaN and the RV score is
    NaN. *)
Theorem empty_column_propagates_nan (u : universe) (c : metric)
  (H : all_missing (column c u)) :
  all_missing (column c (impute u))
  /\ exists out,
       rv_pipeline u = Ok out
       /\ List.length out = List.length u
       /\ forall r, In r out ->
                    percentile_of c r = Computed None
                    /\ RV_Score r = Computed None.
Proof.
  pose proof (impute_keeps_all_missing c u H) as Hi.
  split; trivial.
  destruct (rv_score_stage_nan c (impute u) (impute u)) as (out & Ho & Hl & Hr).
  { intros r Hin. unfold all_missing, column in Hi.
    rewrite Forall_forall in Hi. apply Hi. now apply in_map. }
  exists out. split; [unfold rv_pipeline; now rewrite percentile_stage_map |].
  split.
  - rewrite Hl. apply impute_length.
  - intros r Hin. destruct (Hr r Hin). auto.
Qed.

(** C8 as the specification states it, refuted. The only symbol of the
    payload has a [null] EBITDA, so the EV/EBITDA column has no value. No
    cell raises: the frame is built, imputed, ranked and scored, and the
    row comes out with a NaN percentile and a NaN RV score. *)
Lemma empty_column_counterexample :
  build_frame null_ebitda_payload = Ok null_ebitda_frame
  /\ all_missing (column EVEBITDA null_ebitda_frame)
  /\ all_missing (column EVEBITDA (impute null_ebitda_frame))
  /\ exists r,
       rv_pipeline null_ebitda_frame = Ok [r]
       /\ EV_EBITDA r = None
       /\ EV_EBITDA_Percentile r = Computed None
       /\ RV_Score r = Computed None.
Proof.
  split; [reflexivity |].
  split; [repeat constructor |].
  split; [repeat constructor |].
  eexists. split; [reflexivity |]. repeat split.
Qed.

Lemma empty_column_propagates_nan_witness :
  all_missing (column EVEBITDA null_ebitda_frame)
  /\ all_missing (column EVEBITDA (impute null_ebitda_frame))
  /\ exists out,
       rv_pipeline null_ebitda_frame = Ok out
       /\ List.length out = List.length null_ebitda_frame
       /\ forall r, In r out ->
                    percentile_of EVEBITDA r = Computed None
                    /\ RV_Score r = Computed None.
Proof.
  assert (H : all_missing (column EVEBITDA null_ebitda_frame))
    by (repeat constructor).
  split; [exact H |].
  exact (empty_column_propagates_nan null_ebitda_frame EVEBITDA H).
Defined.

(** ** Rounding to binary64 *)

Lemma round_half_even_error (x : Q) :
  Qabs (inject_Z (round_half_even x) - x) <= 1 # 2.
Proof.
  unfold round_half_even.
  pose proof (Qfloor_le x) as Hlo. pose proof (Qlt_floor x) as Hhi.
  rewrite inject_Z_plus in Hhi. change (inject_Z 1) with 1 in Hhi.
  set (f := Qfloor x) in *.
  apply Qabs_Qle_condition.
  destruct (Qcompare (x - inject_Z f) (1 # 2)) eqn:E.
  - apply Qeq_alt in E.
    destruct (Z.even f);
      [| rewrite inject_Z_plus; change (inject_Z 1) with 1]; split; lra.
  - apply Qlt_alt in E. split; lra.
  - apply Qgt_alt in E. rewrite inject_Z_plus. change (inject_Z 1) with 1.
    split; lra.
Qed.

Lemma round_half_even_nonneg (x : Q) : 0 <= x -> (0 <= round_half_even x)%Z.
Proof.
  intro H. unfold round_half_even.
  assert (F : (0 <= Qfloor x)%Z)
    by (change 0%Z with (Qfloor 0); now apply Qfloor_resp_le).
  destruct (Qcompare _ _); [destruct (Z.even _) | |]; lia.
Qed.

Lemma round_half_even_nonpos (x : Q) : x <= 0 -> (round_half_even x <= 0)%Z.
Proof.
  intro H. unfold round_half_even.
  pose proof (Qfloor_le x) as Hlo.
  assert (F : (Qfloor x <= 0)%Z)
    by (change 0%Z with (Qfloor 0); now apply Qfloor_resp_le).
  destruct (Z.eq_dec (Qfloor x) 0) as [Z0 | NZ].
  - cbv zeta. rewrite Z0 in Hlo |- *. change (inject_Z 0) with 0 in Hlo |- *.
    assert (E : x == 0) by lra.
    assert (C : Qcompare (x - 0) (1 # 2) = Lt).
    { apply (proj1 (Qlt_alt _ _)). lra. }
    rewrite C. lia.
  - destruct (Qcompare _ _); [destruct (Z.even _) | |]; lia.
Qed.

Lemma two_power_pos (e : Z) : 0 < 2 ^ e.
Proof. apply Qpower_0_lt. reflexivity. Qed.

Lemma two_power_plus (a b : Z) : 2 ^ (a + b) == 2 ^ a * 2 ^ b.
Proof. apply Qpower_plus. discriminate. Qed.

Lemma two_power_inject (a : Z) : (0 <= a)%Z -> inject_Z (2 ^ a) == 2 ^ a.
Proof. intro H. now rewrite Zpower_Qpower. Qed.

Lemma Qlog2_spec (q : Q) : 0 < q -> 2 ^ Qlog2 q <= q.
Proof.
  destruct q as [n d]. intro Hq. unfold Qlog2.
  change (Qnum (n # d)) with n. change (Qden (n # d)) with d.
  set (a := Z.log2 n). set (b := Z.log2 (Zpos d)).
  destruct (Qle_bool (2 ^ (a - b)) (n # d)) eqn:E; [now apply Qle_bool_iff |].
  assert (Hn : (0 < n)%Z).
  { unfold Qlt in Hq. simpl in Hq. lia. }
  destruct (Z.log2_spec n Hn) as [Ha _]. fold a in Ha.
  destruct (Z.log2_spec (Zpos d) eq_refl) as [_ Hb]. fold b in Hb.
  assert (Ha0 : (0 <= a)%Z) by apply Z.log2_nonneg.
  assert (Hb0 : (0 <= b)%Z) by apply Z.log2_nonneg.
  assert (E1 : 2 ^ a == 2 ^ (a - b - 1) * 2 ^ (Z.succ b)).
  { rewrite <- two_power_plus. f_equiv. lia. }
  rewrite (Qmake_Qdiv n d).
  apply Qle_shift_div_l; [reflexivity |].
  apply Qle_trans with (2 ^ (a - b - 1) * 2 ^ (Z.succ b)).
  - apply Qmult_le_l; [apply two_power_pos |].
    rewrite <- two_power_inject by lia. rewrite <- Zle_Qle. lia.
  - rewrite <- E1. rewrite <- two_power_inject by lia.
    rewrite <- Zle_Qle. exact Ha.
Qed.

Lemma float64_exponent_spec (q : Q) :
  ~ q == 0 ->
  float64_exponent q = (-1074)%Z
  \/ 2 ^ float64_exponent q <= Qabs q * 2 ^ (-52).
Proof.
  intro Hq. unfold float64_exponent.
  destruct (Qeq_bool q 0) eqn:E; [apply Qeq_bool_iff in E; contradiction |].
  destruct (Z.max_spec (Qlog2 (Qabs q) - 52) (-1074)) as [[_ ->] | [_ ->]];
    [now left | right].
  assert (Hpos : 0 < Qabs q).
  { pose proof (Qabs_nonneg q) as H0.
    destruct (Qlt_le_dec 0 (Qabs q)) as [L | L]; trivial.
    exfalso. apply Hq. assert (A : Qabs q == 0) by lra.
    apply Qabs_Qle_condition in L. lra. }
  unfold Zminus. rewrite two_power_plus.
  apply Qmult_le_compat_r; [now apply Qlog2_spec |].
  apply Qlt_le_weak, two_power_pos.
Qed.

(** The rounding error is at most half a unit in the last place. *)
Lemma float64_value_error (q : Q) :
  Qabs (float64_value q - q) <= 2 ^ float64_exponent q * (1 # 2).
Proof.
  unfold float64_value. set (e := float64_exponent q).
  pose proof (two_power_pos e) as He.
  pose proof (round_half_even_error (q / 2 ^ e)) as H.
  set (m := inject_Z (round_half_even (q / 2 ^ e))) in *.
  assert (E : m * 2 ^ e - q == (m - q / 2 ^ e) * 2 ^ e).
  { field. lra. }
  rewrite E, Qabs_Qmult, (Qabs_pos (2 ^ e)) by lra.
  rewrite (Qmult_comm (2 ^ e)).
  apply Qmult_le_compat_r; [exact H | lra].
Qed.

Lemma float64_value_zero (q : Q) : q == 0 -> float64_value q == 0.
Proof.
  intro H. unfold float64_value.
  assert (E : q / 2 ^ float64_exponent q == 0).
  { unfold Qdiv. rewrite <- (Qmult_0_l (/ 2 ^ float64_exponent q)).
    apply Qmult_comp; [exact H | reflexivity]. }
  pose proof (round_half_even_nonneg (q / 2 ^ float64_exponent q)) as A.
  pose proof (round_half_even_nonpos (q / 2 ^ float64_exponent q)) as B.
  assert (Z0 : round_half_even (q / 2 ^ float64_exponent q) = 0%Z).
  { assert (A' : 0 <= q / 2 ^ float64_exponent q) by (rewrite E; apply Qle_refl).
    assert (B' : q / 2 ^ float64_exponent q <= 0) by (rewrite E; apply Qle_refl).
    specialize (A A'). specialize (B B'). lia. }
  rewrite Z0. apply Qmult_0_l.
Qed.

(** In the normal range the error is relative: at most [unit_roundoff]
    times the magnitude. *)
Lemma float64_value_relative (q : Q) :
  2 ^ (-1022) <= Qabs q ->
  Qabs (float64_value q - q) <= Qabs q * unit_roundoff.
Proof.
  intro Hn.
  assert (Hq : ~ q == 0).
  { intro E. rewrite E in Hn. pose proof (two_power_pos (-1022)).
    change (Qabs 0) with 0 in Hn. lra. }
  eapply Qle_trans; [apply float64_value_error |].
  unfold unit_roundoff.
  assert (E53 : 2 ^ (-53) == 2 ^ (-52) * (1 # 2)) by reflexivity.
  destruct (float64_exponent_spec q Hq) as [-> | H].
  - assert (E : 2 ^ (-1074) * (1 # 2) == 2 ^ (-1022) * 2 ^ (-53)).
    { rewrite <- two_power_plus. reflexivity. }
    rewrite E. apply Qmult_le_compat_r; [exact Hn |].
    apply Qlt_le_weak, two_power_pos.
  - rewrite E53, Qmult_assoc. apply Qmult_le_compat_r; [exact H | discriminate].
Qed.

Lemma float64_value_nonneg (q : Q) : 0 <= q -> 0 <= float64_value q.
Proof.
  intro H. unfold float64_value. pose proof (two_power_pos (float64_exponent q)).
  apply Qmult_le_0_compat; [| lra].
  change 0 with (inject_Z 0). rewrite <- Zle_Qle.
  apply round_half_even_nonneg. apply Qle_shift_div_l; lra.
Qed.

Lemma float64_value_nonpos (q : Q) : q <= 0 -> float64_value q <= 0.
Proof.
  intro H. unfold float64_value. pose proof (two_power_pos (float64_exponent q)).
  set (e := float64_exponent q) in *.
  assert (A : (round_half_even (q / 2 ^ e) <= 0)%Z).
  { apply round_half_even_nonpos. apply Qle_shift_div_r; lra. }
  rewrite Zle_Qle in A. change (inject_Z 0) with 0 in A.
  set (m := inject_Z _) in *.
  assert (E : m * 2 ^ e == - ((- m) * 2 ^ e)) by ring.
  rewrite E. assert (0 <= - m * 2 ^ e) by (apply Qmult_le_0_compat; lra). lra.
Qed.

Lemma round_float64_finite (q : Q) :
  Qabs (float64_value q) < 2 ^ 1024 ->
  round_float64 q = Finite (Qred (float64_value q)).
Proof.
  intro H. unfold round_float64.
  destruct (Qle_bool (2 ^ 1024) (Qabs (float64_value q))) eqn:E; trivial.
  apply Qle_bool_iff in E. lra.
Qed.

Lemma unit_roundoff_small : 0 < unit_roundoff /\ unit_roundoff <= 1 # 4.
Proof. split; [apply two_power_pos | vm_compute; discriminate]. Qed.

Lemma Qmult_unit_roundoff (a : Q) :
  0 <= a -> 0 <= a * unit_roundoff /\ a * unit_roundoff <= a * (1 # 4).
Proof.
  intro Ha. destruct unit_roundoff_small as [U0 U1]. split.
  - apply Qmult_le_0_compat; lra.
  - rewrite !(Qmult_comm a). apply Qmult_le_compat_r; trivial.
Qed.

(** A rounded value is within the relative error of the exact one. *)
Lemma float64_value_near (q : Q) :
  2 ^ (-1022) <= Qabs q ->
  q - Qabs q * unit_roundoff <= float64_value q
  /\ float64_value q <= q + Qabs q * unit_roundoff.
Proof.
  intro H. pose proof (float64_value_relative q H) as E.
  apply Qabs_diff_Qle_condition in E. lra.
Qed.

(** Within the range, the rounded value is finite. *)
Lemma round_float64_in_range (q : Q) :
  2 ^ (-1022) <= Qabs q -> Qabs q <= 2 ^ 1023 * (5 # 4) ->
  round_float64 q = Finite (Qred (float64_value q)).
Proof.
  intros Lo Hi. apply round_float64_finite.
  pose proof (float64_value_relative q Lo) as E.
  pose proof (Qabs_triangle (float64_value q - q) q) as T.
  assert (Ev : float64_value q - q + q == float64_value q) by ring.
  rewrite Ev in T.
  destruct (Qmult_unit_roundoff (Qabs q) (Qabs_nonneg q)) as [_ U].
  assert (P : 2 ^ 1024 == 2 ^ 1023 * 2) by reflexivity.
  rewrite P. set (M := 2 ^ 1023) in *.
  assert (HM : 0 < M) by apply two_power_pos.
  set (aq := Qabs q) in *. set (av := Qabs (float64_value q)) in *.
  set (ae := Qabs (float64_value q - q)) in *.
  clearbody M aq av ae. lra.
Qed.

Lemma round_float64_zero (q : Q) : q == 0 -> round_float64 q = Finite 0.
Proof.
  intro H. pose proof (float64_value_zero q H) as V.
  rewrite round_float64_finite.
  - f_equal. apply (Qred_complete _ 0 V).
  - rewrite V. reflexivity.
Qed.

Lemma round_half_even_Z (z : Z) (x : Q) :
  x == inject_Z z -> round_half_even x = z.
Proof.
  intro H. unfold round_half_even.
  assert (F : Qfloor x = z) by (rewrite H; apply Qfloor_Z).
  rewrite F.
  assert (C : Qcompare (x - inject_Z z) (1 # 2) = Lt).
  { apply (proj1 (Qlt_alt _ _)). rewrite H. lra. }
  now rewrite C.
Qed.

Lemma Qlog2_Z (z : Z) : (0 < z)%Z -> Qlog2 (inject_Z z) = Z.log2 z.
Proof.
  intro Hz. unfold Qlog2.
  change (Qnum (inject_Z z)) with z. change (Qden (inject_Z z)) with 1%positive.
  change (Z.log2 1) with 0%Z. rewrite Z.sub_0_r.
  assert (L : Qle_bool (2 ^ Z.log2 z) (inject_Z z) = true).
  { apply Qle_bool_iff. rewrite <- two_power_inject by apply Z.log2_nonneg.
    rewrite <- Zle_Qle. now apply Z.log2_spec. }
  now rewrite L.
Qed.

Lemma Qred_Z (z : Z) : Qred (inject_Z z) = inject_Z z.
Proof. apply Qcanon.Qred_identity. apply Z.gcd_1_r. Qed.

(** The integers up to 2^53 are binary64 values. *)
Lemma is_float64_Z (z : Z) : (0 <= z <= 2 ^ 53)%Z -> is_float64 (inject_Z z).
Proof.
  intros [Lo Hi]. unfold is_float64.
  destruct (Z.eq_dec z 0) as [-> | Hnz]; [reflexivity |].
  destruct (Z.eq_dec z (2 ^ 53)) as [-> | Hm]; [vm_compute; reflexivity |].
  assert (Hz : (0 < z)%Z) by lia.
  assert (Hl : (Z.log2 z < 53)%Z) by (apply Z.log2_lt_pow2; lia).
  pose proof (Z.log2_nonneg z) as Hl0.
  assert (He : float64_exponent (inject_Z z) = (Z.log2 z - 52)%Z).
  { unfold float64_exponent.
    assert (N : Qeq_bool (inject_Z z) 0 = false).
    { destruct (Qeq_bool (inject_Z z) 0) eqn:E; trivial.
      apply Qeq_bool_iff in E. apply (proj1 (inject_Z_injective z 0)) in E.
      lia. }
    rewrite N.
    assert (A : Qabs (inject_Z z) = inject_Z z).
    { unfold Qabs, inject_Z. now rewrite Z.abs_eq by lia. }
    rewrite A, Qlog2_Z by exact Hz. lia. }
  assert (V : float64_value (inject_Z z) == inject_Z z).
  { unfold float64_value. rewrite He.
    set (k := (52 - Z.log2 z)%Z).
    assert (Hk : (0 <= k)%Z) by (unfold k; lia).
    assert (Ek : (Z.log2 z - 52 = - k)%Z) by (unfold k; lia).
    rewrite Ek.
    assert (P : 2 ^ (- k) * 2 ^ k == 1).
    { rewrite <- two_power_plus. replace (- k + k)%Z with 0%Z by lia.
      reflexivity. }
    pose proof (two_power_pos (- k)) as Pk.
    rewrite (round_half_even_Z (z * 2 ^ k)).
    - rewrite inject_Z_mult, two_power_inject by exact Hk.
      setoid_replace (inject_Z z * 2 ^ k * 2 ^ (- k))
        with (inject_Z z * (2 ^ (- k) * 2 ^ k)) by ring.
      rewrite P. ring.
    - rewrite inject_Z_mult, two_power_inject by exact Hk.
      apply Qmult_inj_r with (2 ^ (- k)); [lra |].
      setoid_replace (inject_Z z / 2 ^ (- k) * 2 ^ (- k)) with (inject_Z z)
        by (field; lra).
      setoid_replace (inject_Z z * 2 ^ k * 2 ^ (- k))
        with (inject_Z z * (2 ^ (- k) * 2 ^ k)) by ring.
      rewrite P. ring. }
  rewrite round_float64_finite.
  - f_equal. rewrite (Qred_complete _ _ V). apply Qred_Z.
  - rewrite V.
    assert (A : Qabs (inject_Z z) = inject_Z z).
    { unfold Qabs, inject_Z. now rewrite Z.abs_eq by lia. }
    rewrite A. rewrite <- (two_power_inject 1024) by lia.
    rewrite <- Zlt_Qlt.
    apply Z.le_lt_trans with (2 ^ 53)%Z; [exact Hi |].
    apply Z.pow_lt_mono_r; lia.
Qed.

Lemma in_float64_range_normal (q : Q) :
  in_float64_range q -> 2 ^ (-1022) <= Qabs q /\ Qabs q <= 2 ^ 1023 * (5 # 4).
Proof.
  intros [Lo Hi].
  assert (E : 2 ^ (-1021) == 2 ^ (-1022) * 2) by reflexivity.
  rewrite E in Lo.
  pose proof (two_power_pos (-1022)). pose proof (two_power_pos 1023).
  set (m := 2 ^ (-1022)) in *. set (M := 2 ^ 1023) in *.
  set (a := Qabs q) in *. clearbody m M a. lra.
Qed.

(** The position size: the exact quotient [x], positive and within the
    range, is rounded to a float within the relative error. *)
Lemma position_size_rounded (x : Q) :
  0 < x -> in_float64_range x ->
  round_float64 x = Finite (Qred (float64_value x))
  /\ x * (1 - unit_roundoff) <= Qred (float64_value x)
  /\ Qred (float64_value x) <= x * (1 + unit_roundoff).
Proof.
  intros Hx Hr. destruct (in_float64_range_normal x Hr) as [Lo Hi].
  split; [now apply round_float64_in_range |].
  destruct (float64_value_near x Lo) as [A B].
  rewrite (Qabs_pos x) in A, B by lra.
  rewrite Qred_correct. split; lra.
Qed.

(** The quotient of a position size near [x] by a price, rounded. *)
Lemma quotient_rounded (x ps p : Q) :
  0 < x ->
  x * (1 - unit_roundoff) <= ps -> ps <= x * (1 + unit_roundoff) ->
  ~ p == 0 -> in_float64_range (x / p) ->
  round_float64 (ps / p) = Finite (fl_div ps p)
  /\ (0 < p ->
      x / p * (1 - unit_roundoff) * (1 - unit_roundoff) <= fl_div ps p
      /\ fl_div ps p <= x / p * (1 + unit_roundoff) * (1 + unit_roundoff))
  /\ (p < 0 -> fl_div ps p < 0).
Proof.
  intros Hx Hlo Hhi Hp Hr. unfold fl_div.
  destruct (in_float64_range_normal _ Hr) as [Lo Hi].
  destruct unit_roundoff_small as [U0 U1].
  set (u := unit_roundoff) in *.
  set (t := x / p) in *. set (y := ps / p).
  destruct (Q_dec p 0) as [[Hneg | Hpos] | Hz]; [| | contradiction].
  - (* a negative price *)
    assert (Hq : 0 < - p) by lra.
    assert (Et : t == - (x / - p)) by (unfold t; field; lra).
    assert (Ey : y == - (ps / - p)) by (unfold y; field; lra).
    assert (T0 : 0 < x / - p) by (apply Qlt_shift_div_l; lra).
    assert (Y1 : x * (1 - u) / - p <= ps / - p) by now apply Qdiv_le_mono.
    assert (Y2 : ps / - p <= x * (1 + u) / - p) by now apply Qdiv_le_mono.
    assert (E1 : x * (1 - u) / - p == x / - p - x / - p * u) by (field; lra).
    assert (E2 : x * (1 + u) / - p == x / - p + x / - p * u) by (field; lra).
    rewrite E1 in Y1. rewrite E2 in Y2.
    destruct (Qmult_unit_roundoff (x / - p)) as [V0 V1]; [lra |].
    fold u in V0, V1.
    set (a := x / - p) in *. set (b := ps / - p) in *.
    assert (B0 : 0 < b).
    { set (c := a * u) in *. clearbody a b c. lra. }
    assert (At : Qabs t == a) by (rewrite Et, Qabs_opp; apply Qabs_pos; lra).
    assert (Ay : Qabs y == b) by (rewrite Ey, Qabs_opp; apply Qabs_pos; lra).
    assert (Ny : 2 ^ (-1022) <= Qabs y /\ Qabs y <= 2 ^ 1023 * (5 # 4)).
    { rewrite Ay.
      assert (E : 2 ^ (-1021) == 2 ^ (-1022) * 2) by reflexivity.
      destruct Hr as [Hr1 Hr2]. rewrite At in Hr1, Hr2. rewrite E in Hr1.
      pose proof (two_power_pos (-1022)). pose proof (two_power_pos 1023).
      set (m := 2 ^ (-1022)) in *. set (M := 2 ^ 1023) in *.
      set (c := a * u) in *. clearbody m M a b c. lra. }
    destruct Ny as [NLo NHi].
    split; [now apply round_float64_in_range |].
    split; [intro; lra |]. intros _.
    destruct (float64_value_near y NLo) as [_ B].
    destruct (Qmult_unit_roundoff (Qabs y) (Qabs_nonneg y)) as [_ W].
    fold u in B, W.
    rewrite Qred_correct.
    rewrite Ay in B, W.
    set (c := b * u) in *. set (v := float64_value y) in *.
    clearbody b c v. lra.
  - (* a positive price *)
    assert (T0 : 0 < t) by (unfold t; apply Qlt_shift_div_l; lra).
    assert (Y1 : x * (1 - u) / p <= y) by (unfold y; now apply Qdiv_le_mono).
    assert (Y2 : y <= x * (1 + u) / p) by (unfold y; now apply Qdiv_le_mono).
    assert (E1 : x * (1 - u) / p == t - t * u) by (unfold t; field; lra).
    assert (E2 : x * (1 + u) / p == t + t * u) by (unfold t; field; lra).
    rewrite E1 in Y1. rewrite E2 in Y2.
    destruct (Qmult_unit_roundoff t) as [V0 V1]; [lra |].
    fold u in V0, V1.
    assert (At : Qabs t == t) by (apply Qabs_pos; lra).
    assert (Y0 : 0 <= y) by lra.
    assert (Ay : Qabs y == y) by now apply Qabs_pos.
    rewrite At in Lo, Hi.
    assert (Ny : 2 ^ (-1022) <= Qabs y /\ Qabs y <= 2 ^ 1023 * (5 # 4)).
    { rewrite Ay.
      assert (E : 2 ^ (-1021) == 2 ^ (-1022) * 2) by reflexivity.
      destruct Hr as [Hr1 Hr2]. rewrite At in Hr1, Hr2. rewrite E in Hr1.
      pose proof (two_power_pos (-1022)). pose proof (two_power_pos 1023).
      set (m := 2 ^ (-1022)) in *. set (M := 2 ^ 1023) in *.
      set (c := t * u) in *. clearbody m M t y c. lra. }
    destruct Ny as [NLo NHi].
    split; [now apply round_float64_in_range |].
    split; [| intro; lra]. intros _.
    destruct (float64_value_near y NLo) as [A B].
    fold u in A, B.
    rewrite Qred_correct. rewrite Ay in A, B.
    assert (M1 : (t - t * u) * (1 - u) <= y * (1 - u))
      by (apply Qmult_le_compat_r; lra).
    assert (M2 : y * (1 + u) <= (t + t * u) * (1 + u))
      by (apply Qmult_le_compat_r; lra).
    assert (F1 : t * (1 - u) * (1 - u) == (t - t * u) * (1 - u)) by ring.
    assert (F2 : t * (1 + u) * (1 + u) == (t + t * u) * (1 + u)) by ring.
    assert (G1 : y - y * u == y * (1 - u)) by ring.
    assert (G2 : y + y * u == y * (1 + u)) by ring.
    rewrite F1, F2. rewrite G1 in A. rewrite G2 in B. split; lra.
Qed.

(** ** Allocation *)

Lemma price_quotient_finite (dtype : price_dtype) (ps p : Q) :
  is_float64 p -> ~ p == 0 ->
  price_quotient dtype (Finite ps) (Some p) = Ok (round_float64 (ps / p)).
Proof.
  intros Hf Hnz.
  assert (E : Qeq_bool p 0 = false).
  { destruct (Qeq_bool p 0) eqn:E; trivial.
    apply Qeq_bool_iff in E. contradiction. }
  destruct dtype; unfold price_quotient, float_truediv, to_float;
    rewrite Hf; cbn [bind ieee_div]; now rewrite E.
Qed.

(** The loop body on a row whose price is tradable. *)
Lemma shares_row_ok (dtype : price_dtype) (x ps price : Q) (r : row) :
  0 < x ->
  x * (1 - unit_roundoff) <= ps -> ps <= x * (1 + unit_roundoff) ->
  Price r = Some price -> tradable x price ->
  shares_row dtype (Finite ps) r
  = Ok (set_Shares (Computed (shares_for ps r)) r).
Proof.
  intros Hx Hlo Hhi Hp (Hf & Hnz & Hr). unfold shares_row, shares_for.
  rewrite Hp, (price_quotient_finite dtype ps price Hf Hnz).
  destruct (quotient_rounded x ps price Hx Hlo Hhi Hnz Hr) as (-> & _).
  reflexivity.
Qed.

Lemma shares_loop_ok (dtype : price_dtype) (x ps : Q) (df : universe) :
  0 < x ->
  x * (1 - unit_roundoff) <= ps -> ps <= x * (1 + unit_roundoff) ->
  Forall (priced (tradable x)) df ->
  shares_loop dtype (Finite ps) df
  = Ok (map (fun r => set_Shares (Computed (shares_for ps r)) r) df).
Proof.
  intros Hx Hlo Hhi.
  induction 1 as [| r df (price & Hp & Ht) _ IH]; simpl; trivial.
  rewrite (shares_row_ok dtype x ps price r Hx Hlo Hhi Hp Ht). simpl.
  rewrite IH. reflexivity.
Qed.

(** The number of rows as a float. *)
Lemma length_is_float64 (df : universe) :
  (Z.of_nat (List.length df) <= 2 ^ 53)%Z ->
  is_float64 (inject_Z (Z.of_nat (List.length df))).
Proof. intro H. apply is_float64_Z. lia. Qed.

(** The position size on a finite positive budget. *)
Lemma position_size_ok (B : Q) (df : universe) :
  0 < B ->
  df <> [] ->
  (Z.of_nat (List.length df) <= 2 ^ 53)%Z ->
  in_float64_range (B / inject_Z (Z.of_nat (List.length df))) ->
  let x := B / inject_Z (Z.of_nat (List.length df)) in
  let ps := fl_div B (inject_Z (Z.of_nat (List.length df))) in
  float_truediv (Finite B) (inject_Z (Z.of_nat (List.length df)))
  = Ok (Finite ps)
  /\ 0 < x /\ x * (1 - unit_roundoff) <= ps /\ ps <= x * (1 + unit_roundoff).
Proof.
  intros HB Hne Hlen Hr x ps.
  set (n := inject_Z (Z.of_nat (List.length df))) in *.
  assert (Hn : 0 < n).
  { apply inject_nat_pos. destruct df; [congruence | simpl; lia]. }
  assert (Hx : 0 < x) by (apply Qlt_shift_div_l; lra).
  destruct (position_size_rounded x Hx Hr) as (Hps & Lo & Hi).
  fold (fl_div B n) in Hps, Lo, Hi. fold ps in Hps, Lo, Hi.
  split; [| split; [| split]]; trivial.
  pose proof (length_is_float64 df Hlen) as Hfl.
  unfold is_float64 in Hfl. fold n in Hfl.
  unfold float_truediv, to_float. rewrite Hfl. cbn [bind].
  assert (E : Qeq_bool n 0 = false).
  { destruct (Qeq_bool n 0) eqn:E; trivial. apply Qeq_bool_iff in E. lra. }
  rewrite E. cbn [ieee_div]. rewrite E. fold x. now rewrite Hps.
Qed.

(** The allocation on a finite positive budget and tradable prices. *)
Lemma allocation_ok (dtype : price_dtype) (entry : string) (B : Q)
  (df : universe) :
  float entry = Ok (Finite B) ->
  0 < B ->
  df <> [] ->
  (Z.of_nat (List.length df) <= 2 ^ 53)%Z ->
  in_float64_range (B / inject_Z (Z.of_nat (List.length df))) ->
  Forall (priced (tradable (B / inject_Z (Z.of_nat (List.length df))))) df ->
  allocation dtype entry df
  = Ok (map (fun r =>
               set_Shares
                 (Computed
                    (shares_for
                       (fl_div B (inject_Z (Z.of_nat (List.length df)))) r))
                 r) df).
Proof.
  intros Hf HB Hne Hlen Hr Hp.
  destruct (position_size_ok B df HB Hne Hlen Hr) as (Hps & Hx & Lo & Hi).
  unfold allocation. rewrite Hf. cbn [bind]. rewrite Hps. cbn [bind].
  now apply (shares_loop_ok dtype
               (B / inject_Z (Z.of_nat (List.length df)))).
Qed.

Lemma position_value_set (k : Z) (r : row) (price : Q) :
  Price r = Some price ->
  position_value (set_Shares (Computed k) r) = inject_Z k * price.
Proof.
  intro Hp. unfold position_value.
  change (Shares (set_Shares (Computed k) r)) with (Computed k).
  change (Price (set_Shares (Computed k) r)) with (Price r).
  now rewrite Hp.
Qed.

(** The value of a position: at most the position size, up to the two
    roundings. *)
Lemma position_value_floor (x ps price : Q) (r : row) :
  0 < x ->
  x * (1 - unit_roundoff) <= ps -> ps <= x * (1 + unit_roundoff) ->
  Price r = Some price -> 0 < price -> tradable x price ->
  position_value (set_Shares (Computed (shares_for ps r)) r)
  <= x * (1 + unit_roundoff) * (1 + unit_roundoff)
  /\ x * (1 - unit_roundoff) * (1 - unit_roundoff) - price
     < position_value (set_Shares (Computed (shares_for ps r)) r)
  /\ (0 <= shares_for ps r)%Z.
Proof.
  intros Hx Hlo Hhi Hp Hpos (Hf & Hnz & Hr). unfold position_value.
  change (Shares (set_Shares (Computed (shares_for ps r)) r))
    with (Computed (shares_for ps r)).
  change (Price (set_Shares (Computed (shares_for ps r)) r)) with (Price r).
  unfold shares_for. rewrite Hp.
  destruct (quotient_rounded x ps price Hx Hlo Hhi Hnz Hr) as (_ & Hq & _).
  destruct (Hq Hpos) as [Q1 Q2].
  pose proof (Qfloor_le (fl_div ps price)) as F1.
  pose proof (Qlt_floor (fl_div ps price)) as F2.
  rewrite inject_Z_plus in F2. change (inject_Z 1) with 1 in F2.
  destruct unit_roundoff_small as [U0 U1].
  set (u := unit_roundoff) in *.
  set (f := inject_Z (Qfloor (fl_div ps price))) in *.
  set (s := fl_div ps price) in *.
  assert (E1 : x / price * (1 + u) * (1 + u) * price
               == x * (1 + u) * (1 + u)) by (field; lra).
  assert (E2 : x / price * (1 - u) * (1 - u) * price
               == x * (1 - u) * (1 - u)) by (field; lra).
  assert (A1 : f * price <= x / price * (1 + u) * (1 + u) * price).
  { apply Qmult_le_compat_r; lra. }
  assert (A2 : (x / price * (1 - u) * (1 - u) - 1) * price < f * price).
  { apply Qmult_lt_compat_r; lra. }
  assert (E3 : (x / price * (1 - u) * (1 - u) - 1) * price
               == x / price * (1 - u) * (1 - u) * price - price) by ring.
  rewrite E1 in A1. rewrite E3, E2 in A2.
  split; [exact A1 |]. split; [exact A2 |].
  change 0%Z with (Qfloor 0). apply Qfloor_resp_le.
  assert (T0 : 0 < x / price) by (apply Qlt_shift_div_l; lra).
  assert (N0 : 0 <= x / price * (1 - u) * (1 - u)).
  { apply Qmult_le_0_compat; [apply Qmult_le_0_compat |]; lra. }
  lra.
Qed.

Lemma allocated_value_bounds (x ps : Q) (df : universe) :
  0 < x ->
  x * (1 - unit_roundoff) <= ps -> ps <= x * (1 + unit_roundoff) ->
  Forall (priced (fun p => 0 < p /\ tradable x p)) df ->
  allocated_value
    (map (fun r => set_Shares (Computed (shares_for ps r)) r) df)
  <= inject_Z (Z.of_nat (List.length df))
     * (x * (1 + unit_roundoff) * (1 + unit_roundoff))
  /\ inject_Z (Z.of_nat (List.length df))
     * (x * (1 - unit_roundoff) * (1 - unit_roundoff)) - total_price df
     <= allocated_value
          (map (fun r => set_Shares (Computed (shares_for ps r)) r) df).
Proof.
  intros Hx Hlo Hhi. unfold allocated_value, total_price.
  induction 1 as [| r df (price & Hp & Hpos & Ht) _ [IH1 IH2]].
  - simpl. rewrite !Qmult_0_l. split; discriminate.
  - change (List.length (r :: df)) with (S (List.length df)).
    rewrite Nat2Z.inj_succ. unfold Z.succ. rewrite inject_Z_plus.
    change (inject_Z 1) with 1. simpl map. simpl Qsum. rewrite Hp.
    destruct (position_value_floor x ps price r Hx Hlo Hhi Hp Hpos Ht)
      as (V1 & V2 & _).
    set (n := inject_Z (Z.of_nat (List.length df))) in *.
    set (v := position_value (set_Shares (Computed (shares_for ps r)) r)) in *.
    set (t := Qsum (map _ df)) in *.
    set (w := Qsum (map position_value _)) in *.
    set (hi := x * (1 + unit_roundoff) * (1 + unit_roundoff)) in *.
    set (lo := x * (1 - unit_roundoff) * (1 - unit_roundoff)) in *.
    assert (E1 : (n + 1) * hi == n * hi + hi) by ring.
    assert (E2 : (n + 1) * lo == n * lo + lo) by ring.
    rewrite E1, E2. set (nhi := n * hi) in *. set (nlo := n * lo) in *.
    clearbody v t w hi lo nhi nlo. clear - V1 V2 IH1 IH2. split; lra.
Qed.

Lemma priced_weaken (P R : Q -> Prop) (df : universe) :
  (forall p, P p -> R p) -> Forall (priced P) df -> Forall (priced R) df.
Proof.
  intros H. apply Forall_impl. intros r (p & Hp & HP). exists p. auto.
Qed.

Lemma Qmult_div_length (B : Q) (df : universe) :
  df <> [] ->
  inject_Z (Z.of_nat (List.length df))
  * (B / inject_Z (Z.of_nat (List.length df))) == B.
Proof.
  intro Hne. apply Qmult_div_r, inject_nat_nonzero.
  destruct df; [congruence | simpl; lia].
Qed.

(** C3, as the code has it. The budget is the float that [float] reads,
    and the two divisions are binary64 divisions. For a positive budget B,
    a non-empty selection of N rows with positive prices, and magnitudes
    within the range of binary64, the allocation returns the rows with
    floor(fl(fl(B/N)/price)) shares each, fl being the rounding of a
    quotient: a number that is not negative and within one share of the
    exact quotient up to the factors (1 - 2^-53)^2 and (1 + 2^-53)^2. The
    value allocated is at most B * (1 + 2^-53)^2. With the entry 10000 and
    fifty rows priced at 100, every row receives 2 shares and the value
    allocated is 10000. *)
Theorem allocation_within_budget :
  (forall (dtype : price_dtype) (entry : string) (B : Q) (df : universe),
     float entry = Ok (Finite B) ->
     0 < B ->
     df <> [] ->
     (Z.of_nat (List.length df) <= 2 ^ 53)%Z ->
     in_float64_range (B / inject_Z (Z.of_nat (List.length df))) ->
     Forall
       (priced (fun p =>
                  0 < p
                  /\ tradable (B / inject_Z (Z.of_nat (List.length df))) p))
       df ->
     exists out,
       allocation dtype entry df = Ok out
       /\ Forall2
            (fun r r' =>
               exists price n,
                 Price r = Some price
                 /\ r' = set_Shares (Computed n) r
                 /\ n = Qfloor
                          (fl_div
                             (fl_div B
                                (inject_Z (Z.of_nat (List.length df))))
                             price)
                 /\ (0 <= n)%Z
                 /\ inject_Z n * price
                    <= B / inject_Z (Z.of_nat (List.length df))
                       * (1 + unit_roundoff) * (1 + unit_roundoff)
                 /\ B / inject_Z (Z.of_nat (List.length df))
                    * (1 - unit_roundoff) * (1 - unit_roundoff) - price
                    < inject_Z n * price)
            df out
       /\ allocated_value out
          <= B * (1 + unit_roundoff) * (1 + unit_roundoff))
  /\ (forall dtype : price_dtype,
        allocation dtype "10000" (repeat hundred_dollar_row 50)
        = Ok (repeat (set_Shares (Computed 2%Z) hundred_dollar_row) 50))
  /\ allocated_value (repeat (set_Shares (Computed 2%Z) hundred_dollar_row) 50)
     == 10000.
Proof.
  split; [| split; [intros []; vm_compute; reflexivity | reflexivity]].
  intros dtype entry B df Hf HB Hne Hlen Hr Hp.
  assert (Ht : Forall
                 (priced (tradable (B / inject_Z (Z.of_nat (List.length df)))))
                 df).
  { eapply priced_weaken; [| exact Hp]. intros p [_ H]. exact H. }
  destruct (position_size_ok B df HB Hne Hlen Hr) as (_ & Hx & Lo & Hi).
  rewrite (allocation_ok dtype entry B df Hf HB Hne Hlen Hr Ht).
  set (x := B / inject_Z (Z.of_nat (List.length df))) in *.
  set (ps := fl_div B (inject_Z (Z.of_nat (List.length df)))) in *.
  eexists. split; [reflexivity |]. split.
  - clear Hne Ht Hlen. clearbody x ps.
    induction Hp as [| r rest (price & Hr' & Hpos & Htr) _ IH]; simpl;
      constructor; trivial.
    destruct (position_value_floor x ps price r Hx Lo Hi Hr' Hpos Htr)
      as (V1 & V2 & V3).
    rewrite (position_value_set _ r price Hr') in V1, V2.
    exists price, (shares_for ps r).
    split; [exact Hr' |]. split; [reflexivity |].
    split; [unfold shares_for; now rewrite Hr' |].
    split; [exact V3 |]. split; assumption.
  - destruct (allocated_value_bounds x ps df Hx Lo Hi Hp) as [V _].
    eapply Qle_trans; [exact V |].
    assert (E : inject_Z (Z.of_nat (List.length df))
                * (x * (1 + unit_roundoff) * (1 + unit_roundoff))
                == inject_Z (Z.of_nat (List.length df)) * x
                   * (1 + unit_roundoff) * (1 + unit_roundoff)) by ring.
    rewrite E. unfold x. rewrite (Qmult_div_length B df Hne).
    apply Qle_refl.
Qed.

(** C3 as the specification states it, refuted. The entry is 1e17 and the
    one selected row is priced at 7: the budget and the price are positive.
    The exact quotient is 14285714285714285.71..., which binary64 rounds to
    14285714285714286; the row receives that many shares, one more than
    the floor of the exact quotient, and their value, 100000000000000002,
    exceeds the budget. *)
Lemma allocation_exceeds_budget_counterexample :
  float "1e17" = Ok (Finite 100000000000000000)
  /\ Price seven_dollar_row = Some 7
  /\ Qfloor (100000000000000000 / inject_Z (Z.of_nat 1) / 7)
     = 14285714285714285%Z
  /\ allocation object_dtype "1e17" [seven_dollar_row]
     = Ok [set_Shares (Computed 14285714285714286%Z) seven_dollar_row]
  /\ allocation float64_dtype "1e17" [seven_dollar_row]
     = Ok [set_Shares (Computed 14285714285714286%Z) seven_dollar_row]
  /\ allocated_value
       [set_Shares (Computed 14285714285714286%Z) seven_dollar_row]
     == 100000000000000002
  /\ ~ allocated_value
         [set_Shares (Computed 14285714285714286%Z) seven_dollar_row]
       <= 100000000000000000.
Proof.
  split; [vm_compute; reflexivity |].
  split; [reflexivity |].
  split; [vm_compute; reflexivity |].
  split; [vm_compute; reflexivity |].
  split; [vm_compute; reflexivity |].
  split; [reflexivity |].
  intro H. vm_compute in H. apply H. reflexivity.
Qed.

Lemma allocation_within_budget_witness :
  float "1000" = Ok (Finite 1000)
  /\ 0 < 1000
  /\ tied_pair <> []
  /\ (Z.of_nat (List.length tied_pair) <= 2 ^ 53)%Z
  /\ in_float64_range (1000 / inject_Z (Z.of_nat (List.length tied_pair)))
  /\ Forall
       (priced (fun p =>
                  0 < p
                  /\ tradable
                       (1000 / inject_Z (Z.of_nat (List.length tied_pair))) p))
       tied_pair
  /\ exists out,
       allocation object_dtype "1000" tied_pair = Ok out
       /\ allocated_value out
          <= 1000 * (1 + unit_roundoff) * (1 + unit_roundoff).
Proof.
  assert (Hf : float "1000" = Ok (Finite 1000)) by (vm_compute; reflexivity).
  assert (HB : 0 < 1000) by reflexivity.
  assert (Hne : tied_pair <> []) by discriminate.
  assert (Hlen : (Z.of_nat (List.length tied_pair) <= 2 ^ 53)%Z)
    by (vm_compute; discriminate).
  assert (Hr : in_float64_range
                 (1000 / inject_Z (Z.of_nat (List.length tied_pair))))
    by (split; vm_compute; discriminate).
  assert (Hp : Forall
                 (priced (fun p =>
                    0 < p
                    /\ tradable
                         (1000 / inject_Z (Z.of_nat (List.length tied_pair)))
                         p))
                 tied_pair).
  { constructor; [| constructor; [| constructor]].
    - exists 100. split; [reflexivity |]. split; [reflexivity |].
      split; [vm_compute; reflexivity |].
      split; [discriminate | split; vm_compute; discriminate].
    - exists 50. split; [reflexivity |]. split; [reflexivity |].
      split; [vm_compute; reflexivity |].
      split; [discriminate | split; vm_compute; discriminate]. }
  split; [exact Hf |]. split; [exact HB |]. split; [exact Hne |].
  split; [exact Hlen |]. split; [exact Hr |]. split; [exact Hp |].
  destruct (proj1 allocation_within_budget object_dtype "1000"%string 1000
              tied_pair Hf HB Hne Hlen Hr Hp) as (out & Ho & _ & Hv).
  exists out. split; assumption.
Defined.

Lemma Qfloor_negative (x : Q) : x < 0 -> (Qfloor x < 0)%Z.
Proof.
  intro H. rewrite Zlt_Qlt. change (inject_Z 0) with 0.
  eapply Qle_lt_trans; [apply Qfloor_le | exact H].
Qed.

(** A row the loop cannot get past. *)
Lemma shares_loop_stops (dtype : price_dtype) (x ps : Q)
  (pre post : universe) (r : row) (e : exn) :
  0 < x ->
  x * (1 - unit_roundoff) <= ps -> ps <= x * (1 + unit_roundoff) ->
  Forall (priced (tradable x)) pre ->
  shares_row dtype (Finite ps) r = Raise e ->
  shares_loop dtype (Finite ps) (pre ++ r :: post) = Raise e.
Proof.
  intros Hx Lo Hi Hpre Hr.
  induction Hpre as [| a pre (price & Hp & Ht) _ IH]; simpl.
  - now rewrite Hr.
  - rewrite (shares_row_ok dtype x ps price a Hx Lo Hi Hp Ht). simpl.
    now rewrite IH.
Qed.

(** The loop body on a row priced at zero. *)
Lemma shares_row_zero_price (dtype : price_dtype) (ps price : Q) (r : row) :
  0 < ps -> Price r = Some price -> price == 0 ->
  shares_row dtype (Finite ps) r = Raise (zero_price_error dtype).
Proof.
  intros Hps Hp Hz. unfold shares_row. rewrite Hp.
  assert (E : Qeq_bool ps 0 = false).
  { destruct (Qeq_bool ps 0) eqn:E; trivial. apply Qeq_bool_iff in E. lra. }
  destruct dtype; unfold price_quotient, float_truediv, to_float;
    rewrite (round_float64_zero price Hz); cbn [bind ieee_div Qeq_bool];
    [reflexivity |].
  change (Qeq_bool 0 0) with true. cbv iota. rewrite E. reflexivity.
Qed.

(** C4, as the code has it. The allocation has no price check and no
    error of its own. A row priced at zero, reached with a positive
    position size, ends the allocation with an arithmetic exception and
    receives no share count: [ZeroDivisionError] from the division when the
    price comes back as a Python number, [OverflowError] from [math.floor]
    on the infinite quotient when it comes back as a NumPy float. A row with
    a negative price raises nothing: with a positive budget it receives
    floor(fl(fl(B/N)/price)) shares, a negative number. *)
Theorem nonpositive_price_allocation :
  (forall (dtype : price_dtype) (entry : string) (B : Q)
          (pre post : universe) (r : row) (price : Q),
     float entry = Ok (Finite B) ->
     0 < B ->
     (Z.of_nat (List.length (pre ++ r :: post)) <= 2 ^ 53)%Z ->
     in_float64_range
       (B / inject_Z (Z.of_nat (List.length (pre ++ r :: post)))) ->
     Forall
       (priced
          (tradable (B / inject_Z (Z.of_nat (List.length (pre ++ r :: post))))))
       pre ->
     Price r = Some price -> price == 0 ->
     allocation dtype entry (pre ++ r :: post)
     = Raise (zero_price_error dtype)
     /\ arithmetic_error (zero_price_error dtype))
  /\ (forall (dtype : price_dtype) (entry : string) (B : Q) (df : universe),
        float entry = Ok (Finite B) ->
        0 < B ->
        df <> [] ->
        (Z.of_nat (List.length df) <= 2 ^ 53)%Z ->
        in_float64_range (B / inject_Z (Z.of_nat (List.length df))) ->
        Forall
          (priced (tradable (B / inject_Z (Z.of_nat (List.length df))))) df ->
        exists out,
          allocation dtype entry df = Ok out
          /\ Forall2
               (fun r r' =>
                  exists price n,
                    Price r = Some price
                    /\ r' = set_Shares (Computed n) r
                    /\ n = Qfloor
                             (fl_div
                                (fl_div B
                                   (inject_Z (Z.of_nat (List.length df))))
                                price)
                    /\ (price < 0 -> (n < 0)%Z))
               df out).
Proof.
  split.
  - intros dtype entry B pre post r price Hf HB Hlen Hr Hpre Hp Hz.
    split; [| destruct dtype; [left | right]; reflexivity].
    assert (Hne : pre ++ r :: post <> []) by (destruct pre; discriminate).
    destruct (position_size_ok B _ HB Hne Hlen Hr) as (Hps & Hx & Lo & Hi).
    unfold allocation. rewrite Hf. cbn [bind]. rewrite Hps. cbn [bind].
    eapply shares_loop_stops; eauto.
    apply (shares_row_zero_price dtype _ price); trivial.
    destruct unit_roundoff_small as [U0 U1].
    eapply Qlt_le_trans; [| exact Lo].
    apply Qmult_lt_0_compat; lra.
  - intros dtype entry B df Hf HB Hne Hlen Hr Hp.
    destruct (position_size_ok B df HB Hne Hlen Hr) as (_ & Hx & Lo & Hi).
    rewrite (allocation_ok dtype entry B df Hf HB Hne Hlen Hr Hp).
    set (x := B / inject_Z (Z.of_nat (List.length df))) in *.
    set (ps := fl_div B (inject_Z (Z.of_nat (List.length df)))) in *.
    eexists. split; [reflexivity |].
    clear Hne Hlen. clearbody x ps.
    induction Hp as [| r rest (price & Hr' & Hf' & Hnz & Hrg) _ IH]; simpl;
      constructor; trivial.
    exists price, (shares_for ps r).
    split; [exact Hr' |]. split; [reflexivity |].
    split; [unfold shares_for; now rewrite Hr' |].
    intro Hneg. unfold shares_for. rewrite Hr'.
    apply Qfloor_negative.
    destruct (quotient_rounded x ps price Hx Lo Hi Hnz Hrg) as (_ & _ & H).
    now apply H.
Qed.

(** C4 as the specification states it, refuted. A single selected row has
    the price -10 and the entry is 1000: the allocation raises nothing and
    writes -100 shares, whichever way the price comes back. *)
Lemma negative_price_counterexample :
  priced (fun p => p < 0) negative_price_row
  /\ allocation object_dtype "1000" [negative_price_row]
     = Ok [set_Shares (Computed (-100)%Z) negative_price_row]
  /\ allocation float64_dtype "1000" [negative_price_row]
     = Ok [set_Shares (Computed (-100)%Z) negative_price_row].
Proof.
  split; [exists (- (10)); split; reflexivity |].
  split; vm_compute; reflexivity.
Qed.

Lemma nonpositive_price_allocation_witness :
  (float "1000" = Ok (Finite 1000)
   /\ 0 < 1000
   /\ Price zero_price_row = Some 0
   /\ allocation object_dtype "1000" [hundred_dollar_row; zero_price_row]
      = Raise ZeroDivisionError
   /\ allocation float64_dtype "1000" [hundred_dollar_row; zero_price_row]
      = Raise OverflowError)
  /\ ([negative_price_row] <> []
      /\ Forall
           (priced
              (tradable
                 (1000 / inject_Z (Z.of_nat (List.length [negative_price_row])))))
           [negative_price_row]
      /\ exists out,
           allocation object_dtype "1000" [negative_price_row] = Ok out
           /\ Forall (fun r' => exists n, Shares r' = Computed n /\ (n < 0)%Z)
                out).
Proof.
  assert (Hf : float "1000" = Ok (Finite 1000)) by (vm_compute; reflexivity).
  assert (HB : 0 < 1000) by reflexivity.
  destruct nonpositive_price_allocation as (T1 & T2).
  split.
  - assert (Hlen : (Z.of_nat (List.length
                                ([hundred_dollar_row] ++ zero_price_row :: []))
                    <= 2 ^ 53)%Z) by (vm_compute; discriminate).
    assert (Hr : in_float64_range
                   (1000 / inject_Z
                             (Z.of_nat
                                (List.length
                                   ([hundred_dollar_row]
                                    ++ zero_price_row :: [])))))
      by (split; vm_compute; discriminate).
    assert (Hpre : Forall
                     (priced
                        (tradable
                           (1000 / inject_Z
                                     (Z.of_nat
                                        (List.length
                                           ([hundred_dollar_row]
                                            ++ zero_price_row :: []))))))
                     [hundred_dollar_row]).
    { constructor; [| constructor]. exists 100. split; [reflexivity |].
      split; [vm_compute; reflexivity |].
      split; [discriminate | split; vm_compute; discriminate]. }
    split; [exact Hf |]. split; [exact HB |]. split; [reflexivity |].
    split.
    + exact (proj1 (T1 object_dtype "1000"%string 1000 [hundred_dollar_row] []
                      zero_price_row 0 Hf HB Hlen Hr Hpre eq_refl
                      (Qeq_refl 0))).
    + exact (proj1 (T1 float64_dtype "1000"%string 1000 [hundred_dollar_row] []
                      zero_price_row 0 Hf HB Hlen Hr Hpre eq_refl
                      (Qeq_refl 0))).
  - assert (Hne : [negative_price_row] <> []) by discriminate.
    assert (Hlen : (Z.of_nat (List.length [negative_price_row]) <= 2 ^ 53)%Z)
      by (vm_compute; discriminate).
    assert (Hr : in_float64_range
                   (1000 / inject_Z
                             (Z.of_nat (List.length [negative_price_row]))))
      by (split; vm_compute; discriminate).
    assert (Hneg : Forall
                     (priced
                        (tradable
                           (1000 / inject_Z
                                     (Z.of_nat
                                        (List.length [negative_price_row])))))
                     [negative_price_row]).
    { constructor; [| constructor]. exists (- (10)). split; [reflexivity |].
      split; [vm_compute; reflexivity |].
      split; [discriminate | split; vm_compute; discriminate]. }
    split; [exact Hne |]. split; [exact Hneg |].
    destruct (T2 object_dtype "1000"%string 1000 _ Hf HB Hne Hlen Hr Hneg)
      as (out & Ho & Hrows).
    exists out. split; [exact Ho |].
    inversion Hrows as [| a b l l' (price & n & Hp & -> & _ & Hn) Hl];
      subst.
    inversion Hl; subst. constructor; [| constructor].
    exists n. split; [reflexivity |]. apply Hn.
    injection Hp as <-. reflexivity.
Defined.

(** ** The portfolio size *)

Lemma float_raises_value_error (e : string) (x : exn) :
  float e = Raise x -> x = ValueError.
Proof.
  unfold float. destruct (float_of_string e); [discriminate | congruence].
Qed.

(** C9, as the code has it. The routine itself never raises. A first entry
    that [float] accepts is handed on as it is, after one prompt and with no
    check of its sign. After a first entry that [float] rejects, the routine
    prints the retry message and prompts a second time; a second entry that
    [float] accepts is handed on as it is, again with no check of its
    sign. *)
Theorem portfolio_input_behaviour (s : session) :
  (forall e s', portfolio_input s <> Crashed e s')
  /\ (forall e1 rest x,
        entries s = e1 :: rest ->
        float e1 = Ok x ->
        portfolio_input s
        = Returned (mkSession rest (printed s ++ [prompt]) (Some e1)))
  /\ (forall e1 e2 rest x,
        entries s = e1 :: e2 :: rest ->
        float e1 = Raise ValueError ->
        float e2 = Ok x ->
        portfolio_input s
        = Returned
            (mkSession rest (printed s ++ [prompt; retry_message; prompt])
               (Some e2))).
Proof.
  split; [| split].
  - intros e s' H. unfold portfolio_input in H.
    destruct (input prompt s) as [[e1 s1] |]; [| discriminate].
    destruct (float e1) as [x | x] eqn:E; [discriminate |].
    apply float_raises_value_error in E. subst x.
    destruct (input prompt _) as [[e2 s3] |]; discriminate.
  - intros e1 rest x He Hx. unfold portfolio_input, input. rewrite He.
    rewrite Hx. reflexivity.
  - intros e1 e2 rest x He H1 _. unfold portfolio_input, input. rewrite He.
    rewrite H1. simpl. unfold set_portfolio_size. simpl.
    rewrite <- !app_assoc. reflexivity.
Qed.

(** C9 as the specification states it, refuted. With the single entry "-5"
    the routine returns at once with a size that [float] reads as -5, which
    is not positive. With the entries "abc" and "def" it prompts twice and
    returns with "def" as the portfolio size, on which [float] raises
    [ValueError] in the allocation cell. *)
Lemma portfolio_input_counterexample :
  (exists s',
     portfolio_input (mkSession ["-5"]%string [] None) = Returned s'
     /\ portfolio_size s' = Some "-5"%string
     /\ float "-5" = Ok (Finite (- (5)))
     /\ ~ 0 < - (5))
  /\ (exists s',
        portfolio_input (mkSession ["abc"; "def"]%string [] None)
        = Returned s'
        /\ portfolio_size s' = Some "def"%string
        /\ float "def" = Raise ValueError
        /\ allocation_cell object_dtype s' (repeat hundred_dollar_row 50)
           = Raise ValueError
        /\ allocation_cell float64_dtype s' (repeat hundred_dollar_row 50)
           = Raise ValueError).
Proof.
  split.
  - eexists. split; [vm_compute; reflexivity |].
    split; [reflexivity |]. split; [vm_compute; reflexivity |]. discriminate.
  - eexists. split; [vm_compute; reflexivity |].
    repeat split; vm_compute; reflexivity.
Qed.

Lemma portfolio_input_behaviour_witness :
  (float "10000" = Ok (Finite 10000)
   /\ portfolio_input (mkSession ["10000"]%string [] None)
      = Returned (mkSession [] [prompt] (Some "10000"%string)))
  /\ (float "ten thousand" = Raise ValueError
      /\ float "10000" = Ok (Finite 10000)
      /\ portfolio_input (mkSession ["ten thousand"; "10000"]%string [] None)
         = Returned
             (mkSession [] [prompt; retry_message; prompt]
                (Some "10000"%string))).
Proof.
  assert (H1 : float "10000" = Ok (Finite 10000)) by (vm_compute; reflexivity).
  assert (H2 : float "ten thousand" = Raise ValueError)
    by (vm_compute; reflexivity).
  split.
  - split; [exact H1 |].
    exact (proj1 (proj2 (portfolio_input_behaviour
                           (mkSession ["10000"]%string [] None)))
             "10000"%string [] (Finite 10000) eq_refl H1).
  - split; [exact H2 |]. split; [exact H1 |].
    exact (proj2 (proj2 (portfolio_input_behaviour
                     (mkSession ["ten thousand"; "10000"]%string [] None)))
             "ten thousand"%string "10000"%string [] (Finite 10000)
             eq_refl H2 H1).
Defined.

(** ** Selection *)

Lemma score_leb_refl (r : row) : score_leb r r = true.
Proof.
  unfold score_leb. destruct (RV_Score r) as [| [x |]]; trivial.
  apply Qle_bool_iff, Qle_refl.
Qed.

Lemma score_leb_trans (a b c : row) :
  score_leb a b = true -> score_leb b c = true -> score_leb a c = true.
Proof.
  unfold score_leb.
  destruct (RV_Score a) as [| [x |]], (RV_Score b) as [| [y |]],
    (RV_Score c) as [| [z |]]; trivial; try discriminate.
  intros H1 H2. apply Qle_bool_iff. apply Qle_bool_iff in H1, H2.
  eapply Qle_trans; eauto.
Qed.

Lemma score_leb_total (a b : row) :
  scored a -> scored b -> score_leb a b = false -> score_leb b a = true.
Proof.
  intros (x & Ha) (y & Hb). unfold score_leb. rewrite Ha, Hb.
  destruct x as [x |], y as [y |]; trivial; try discriminate.
  intro H. apply Qle_bool_iff.
  destruct (Qlt_le_dec y x) as [L | L]; [now apply Qlt_le_weak |].
  apply Qle_bool_iff in L. congruence.
Qed.

Lemma insert_by_score_perm (r : row) (l : universe) :
  Permutation (r :: l) (insert_by_score r l).
Proof.
  induction l as [| x l IH]; simpl; [apply Permutation_refl |].
  destruct (score_leb r x); [apply Permutation_refl |].
  eapply perm_trans; [apply perm_swap |]. now apply perm_skip.
Qed.

Lemma stable_sort_perm (df : universe) :
  Permutation df (stable_sort_by_score df).
Proof.
  induction df as [| r df IH]; simpl; [constructor |].
  eapply perm_trans; [apply perm_skip, IH |]. apply insert_by_score_perm.
Qed.

Lemma insert_by_score_sorted (r : row) (l : universe) :
  scored r -> Forall scored l ->
  StronglySorted score_le l -> StronglySorted score_le (insert_by_score r l).
Proof.
  intros Hr Hl Hs. induction l as [| x l IH]; simpl.
  - repeat constructor.
  - inversion Hl as [| ? ? Hx Hl']; subst.
    apply StronglySorted_inv in Hs. destruct Hs as [Hs Hall].
    destruct (score_leb r x) eqn:E.
    + constructor; [constructor; trivial |].
      constructor; [exact E |].
      eapply Forall_impl; [| exact Hall].
      intros y Hy. unfold score_le in *. eapply score_leb_trans; eauto.
    + constructor; [now apply IH |].
      eapply Permutation_Forall; [apply insert_by_score_perm |].
      constructor; trivial. now apply score_leb_total.
Qed.

Lemma stable_sort_sorted (df : universe) :
  Forall scored df -> StronglySorted score_le (stable_sort_by_score df).
Proof.
  induction 1 as [| r df Hr Hdf IH]; simpl; [constructor |].
  apply insert_by_score_sorted; trivial.
  eapply Permutation_Forall; [apply stable_sort_perm | exact Hdf].
Qed.

(** The straight insertion sort is an instance of [sort_values]. *)
Lemma stable_sort_is_sort_values (df : universe) :
  Forall scored df -> sort_values_by_RV_Score df (stable_sort_by_score df).
Proof.
  intro H. split; [apply stable_sort_perm | now apply stable_sort_sorted].
Qed.

Lemma tie_free_perm (l l' : universe) :
  Permutation l l' -> tie_free l -> tie_free l'.
Proof.
  intros Hp H a Ha.
  rewrite <- (Permutation_length (Permutation_filter (tied a) l l' Hp)).
  apply H. eapply Permutation_in; [apply Permutation_sym, Hp | exact Ha].
Qed.

Lemma tied_refl (a : row) : tied a a = true.
Proof. unfold tied. now rewrite score_leb_refl. Qed.

Lemma tie_free_tail (a : row) (l : universe) :
  tie_free (a :: l) -> tie_free l.
Proof.
  intros H x Hx. specialize (H x (or_intror Hx)). simpl in H.
  assert (Hin : In x (filter (tied x) l))
    by (apply filter_In; split; [exact Hx | apply tied_refl]).
  destruct (tied x a); simpl in H.
  - destruct (filter (tied x) l); [destruct Hin | discriminate].
  - exact H.
Qed.

(** Without ties the sorted form of a frame is unique. *)
Lemma sorted_perm_unique (l1 l2 : universe) :
  Permutation l1 l2 ->
  StronglySorted score_le l1 -> StronglySorted score_le l2 ->
  tie_free l1 -> l1 = l2.
Proof.
  revert l2. induction l1 as [| a t1 IH]; intros l2 Hp H1 H2 Hf.
  - apply Permutation_nil in Hp. now subst.
  - destruct l2 as [| b t2].
    + apply Permutation_sym, Permutation_nil in Hp. discriminate.
    + assert (Hab : a = b).
      { assert (Ia : In a (b :: t2))
          by (eapply Permutation_in; [exact Hp | now left]).
        assert (Ib : In b (a :: t1))
          by (eapply Permutation_in;
              [apply Permutation_sym, Hp | now left]).
        destruct Ia as [Ia | Ia]; [now subst |].
        destruct Ib as [Ib | Ib]; [exact Ib |].
        exfalso.
        apply StronglySorted_inv in H1. destruct H1 as [_ A1].
        apply StronglySorted_inv in H2. destruct H2 as [_ A2].
        rewrite Forall_forall in A1, A2.
        assert (T : tied a b = true).
        { unfold tied. rewrite (A1 b Ib), (A2 a Ia). reflexivity. }
        pose proof (filter_two (tied a) a b t1 (tied_refl a) T Ib) as Hge.
        rewrite (Hf a (or_introl eq_refl)) in Hge. lia. }
      subst b. f_equal. apply IH.
      * eapply Permutation_cons_inv; eauto.
      * apply StronglySorted_inv in H1. tauto.
      * apply StronglySorted_inv in H2. tauto.
      * eapply tie_free_tail; eauto.
Qed.

(** C7, as the code has it. On a scored frame the selection exists; every
    selection is the first min(n, size) rows of a frame that holds the rows
    of the universe in ascending order of the RV score, so it is a part of
    the universe, sorted, and a prefix of the sorted universe, with n = 50
    in the notebook. The order of rows with equal scores is not fixed by
    the call: only when no two rows tie is the selection the one a stable
    sort gives. *)
Theorem selector_is_sorted_prefix :
  selector = select_top 50
  /\ (forall (n : nat) (df : universe),
        Forall scored df -> exists out, select_top n df out)
  /\ (forall (n : nat) (df out : universe),
        select_top n df out ->
        List.length out = Nat.min n (List.length df)
        /\ incl out df
        /\ (exists rest, Permutation df (out ++ rest))
        /\ StronglySorted score_le out
        /\ exists sorted,
             sort_values_by_RV_Score df sorted /\ out = firstn n sorted)
  /\ (forall (n : nat) (df out : universe),
        Forall scored df -> tie_free df -> select_top n df out ->
        out = stable_selection n df).
Proof.
  split; [reflexivity |]. split; [| split].
  - intros n df H. exists (firstn n (stable_sort_by_score df)).
    exists (stable_sort_by_score df).
    split; [now apply stable_sort_is_sort_values | reflexivity].
  - intros n df out (sorted & (Hp & Hs) & ->).
    split; [| split; [| split; [| split]]].
    + rewrite length_firstn. now rewrite (Permutation_length Hp).
    + intros x Hx. eapply Permutation_in; [apply Permutation_sym, Hp |].
      rewrite <- (firstn_skipn n sorted). apply in_or_app. now left.
    + exists (skipn n sorted). now rewrite firstn_skipn.
    + now apply StronglySorted_firstn.
    + exists sorted. repeat split; trivial.
  - intros n df out Hsc Hf (sorted & (Hp & Hs) & ->).
    unfold stable_selection. f_equal. symmetry.
    apply sorted_perm_unique.
    + eapply perm_trans; [apply Permutation_sym, stable_sort_perm | exact Hp].
    + now apply stable_sort_sorted.
    + exact Hs.
    + eapply tie_free_perm; [apply stable_sort_perm | exact Hf].
Qed.

Lemma same_score_sorted (q : Q) (l : universe) :
  Forall (fun r => RV_Score r = Computed (Some q)) l ->
  StronglySorted score_le l.
Proof.
  induction 1 as [| r l Hr Hl IH]; constructor; trivial.
  eapply Forall_impl; [| exact Hl].
  intros x Hx. unfold score_le, score_leb. rewrite Hr, Hx.
  apply Qle_bool_iff, Qle_refl.
Qed.

(** C7 as the specification states it, refuted. Eighteen rows have the
    same RV score. NumPy's quicksort, which [sort_values] runs by default,
    returns them with the rows T01 to T15 in reverse: a frame with the same
    rows in ascending order of the score, as the call promises, and not the
    input order, which is what a stable sort returns. *)
Lemma selector_stability_counterexample :
  np_sort_values eighteen_ties = Some eighteen_ties_sorted
  /\ selector eighteen_ties eighteen_ties_sorted
  /\ stable_selection 50 eighteen_ties = eighteen_ties
  /\ eighteen_ties_sorted <> stable_selection 50 eighteen_ties.
Proof.
  assert (Hst : stable_selection 50 eighteen_ties = eighteen_ties)
    by (vm_compute; reflexivity).
  split; [vm_compute; reflexivity |]. split; [| split; [exact Hst |]].
  - exists eighteen_ties_sorted. split; [split |].
    + unfold eighteen_ties, eighteen_ties_sorted. apply Permutation_map.
      apply perm_skip.
      change (Permutation
                (List.app
                   [ "T01"; "T02"; "T03"; "T04"; "T05"; "T06"; "T07"; "T08";
                     "T09"; "T10"; "T11"; "T12"; "T13"; "T14"; "T15" ]%string
                   ["T16"; "T17"]%string)
                (List.app
                   (rev [ "T01"; "T02"; "T03"; "T04"; "T05"; "T06"; "T07";
                          "T08"; "T09"; "T10"; "T11"; "T12"; "T13"; "T14";
                          "T15" ]%string)
                   ["T16"; "T17"]%string)).
      apply Permutation_app_tail, Permutation_rev.
    + apply (same_score_sorted (1 # 2)).
      unfold eighteen_ties_sorted. apply Forall_map.
      apply Forall_forall. intros t _. reflexivity.
    + reflexivity.
  - rewrite Hst. intro H. apply (f_equal (map Ticker)) in H.
    vm_compute in H. discriminate.
Qed.

(** On a frame without ties NumPy's quicksort and the stable sort agree. *)
Example np_sort_values_two_scored :
  np_sort_values two_scored = Some (stable_sort_by_score two_scored)
  /\ map Ticker (stable_sort_by_score two_scored) = ["BBB"; "AAA"]%string.
Proof. split; vm_compute; reflexivity. Qed.

Lemma selector_is_sorted_prefix_witness :
  Forall scored two_scored
  /\ tie_free two_scored
  /\ exists out,
       select_top 50 two_scored out
       /\ out = stable_selection 50 two_scored
       /\ List.length out = Nat.min 50 (List.length two_scored).
Proof.
  assert (Hs : Forall scored two_scored).
  { constructor; [eexists; reflexivity |].
    constructor; [eexists; reflexivity | constructor]. }
  assert (Hf : tie_free two_scored).
  { intros a [<- | [<- | []]]; reflexivity. }
  destruct selector_is_sorted_prefix as (_ & T1 & T2 & T3).
  destruct (T1 50%nat two_scored Hs) as (out & Ho).
  split; [exact Hs |]. split; [exact Hf |].
  exists out. split; [exact Ho |].
  split; [exact (T3 50%nat two_scored out Hs Hf Ho) |].
  exact (proj1 (T2 50%nat two_scored out Ho)).
Defined.

(** * Further properties *)

(** ** Batches of symbols *)

Section Chunks.

Context {A : Type}.
Variable k : nat.
Hypothesis k_pos : (0 < k)%nat.
Variable lst : list A.

Let chunk (i : nat) : list A := firstn k (skipn i lst).

Lemma ceil_div_covers (len : nat) : (len <= (len + k - 1) / k * k)%nat.
Proof.
  pose proof (Nat.div_mod_eq (len + k - 1) k) as E.
  pose proof (Nat.mod_upper_bound (len + k - 1) k) as U.
  nia.
Qed.

Lemma ceil_div_tight (len : nat) :
  (0 < len)%nat -> ((len + k - 1) / k * k < len + k)%nat.
Proof.
  intro H. pose proof (Nat.div_mod_eq (len + k - 1) k) as E. nia.
Qed.

Lemma ceil_div_zero : ((0 + k - 1) / k = 0)%nat.
Proof. apply Nat.div_small. lia. Qed.

Lemma concat_chunks_from (count start : nat) :
  (List.length lst <= start + count * k)%nat ->
  concat (map chunk (range_from count start k)) = skipn start lst.
Proof.
  revert start. induction count as [| count IH]; intros start H; simpl.
  - symmetry. apply skipn_all2. lia.
  - rewrite IH by lia. unfold chunk.
    replace (start + k)%nat with (k + start)%nat by lia.
    rewrite <- skipn_skipn. apply firstn_skipn.
Qed.

Lemma chunk_sizes_from (count start : nat) :
  (start + count * k < List.length lst + k)%nat ->
  Forall (fun c => (1 <= List.length c <= k)%nat)
    (map chunk (range_from count start k))
  /\ Forall (fun c => List.length c = k)
       (removelast (map chunk (range_from count start k))).
Proof.
  revert start. induction count as [| count IH]; intros start H.
  - simpl. split; constructor.
  - assert (Hc : (1 <= List.length (chunk start) <= k)%nat).
    { unfold chunk. rewrite length_firstn, length_skipn. lia. }
    destruct count as [| count].
    + simpl. split; repeat constructor; lia.
    + destruct (IH (start + k)%nat) as [I1 I2]; [lia |].
      split.
      * simpl. constructor; [exact Hc | exact I1].
      * change (removelast (map chunk (range_from (S (S count)) start k)))
          with (chunk start
                :: removelast (map chunk (range_from (S count) (start + k) k))).
        constructor; [| exact I2].
        unfold chunk. rewrite length_firstn, length_skipn. simpl in H. lia.
Qed.

End Chunks.

Lemma chunks_positive {A : Type} (lst : list A) (n : Z) :
  (0 < n)%Z ->
  chunks lst n
  = Ok (map (fun i => firstn (Z.to_nat n) (skipn i lst))
          (range_from ((List.length lst + Z.to_nat n - 1) / Z.to_nat n) O
             (Z.to_nat n))).
Proof.
  intro H. unfold chunks, range.
  destruct (n =? 0)%Z eqn:E0; [apply Z.eqb_eq in E0; lia |].
  destruct (n <? 0)%Z eqn:E1; [apply Z.ltb_lt in E1; lia |].
  reflexivity.
Qed.

(** X1. For a positive size, the chunks put end to end are the list:
    nothing is lost, repeated or reordered. *)
Theorem chunks_concat {A : Type} (lst : list A) (n : Z) (Hn : (0 < n)%Z) :
  exists groups, chunks lst n = Ok groups /\ concat groups = lst.
Proof.
  rewrite (chunks_positive lst n Hn). eexists. split; [reflexivity |].
  assert (Hk : (0 < Z.to_nat n)%nat) by lia.
  rewrite (concat_chunks_from (Z.to_nat n) Hk lst).
  - reflexivity.
  - simpl. apply (ceil_div_covers (Z.to_nat n) Hk).
Qed.

Lemma chunks_concat_witness :
  (0 < 2)%Z
  /\ exists groups,
       chunks [1; 2; 3; 4; 5]%nat 2 = Ok groups /\ concat groups = [1; 2; 3; 4; 5]%nat.
Proof.
  assert (H : (0 < 2)%Z) by reflexivity.
  split; [exact H |]. exact (chunks_concat [1; 2; 3; 4; 5]%nat 2 H).
Defined.

(** X2. For a positive size n, every chunk holds at least one and at most
    n elements, and every chunk but the last holds exactly n; an empty list
    has no chunk. *)
Theorem chunks_sizes {A : Type} (lst : list A) (n : Z) (Hn : (0 < n)%Z) :
  exists groups,
    chunks lst n = Ok groups
    /\ Forall (fun c => (1 <= List.length c <= Z.to_nat n)%nat) groups
    /\ Forall (fun c => List.length c = Z.to_nat n) (removelast groups)
    /\ (lst = [] -> groups = []).
Proof.
  rewrite (chunks_positive lst n Hn). eexists. split; [reflexivity |].
  assert (Hk : (0 < Z.to_nat n)%nat) by lia.
  destruct lst as [| x rest].
  - simpl List.length. rewrite (ceil_div_zero (Z.to_nat n) Hk). simpl.
    repeat split; constructor.
  - destruct (chunk_sizes_from (Z.to_nat n) Hk (x :: rest)
                ((List.length (x :: rest) + Z.to_nat n - 1) / Z.to_nat n) O)
      as [H1 H2].
    { apply ceil_div_tight; simpl; lia. }
    split; [exact H1 |]. split; [exact H2 |]. discriminate.
Qed.

Lemma chunks_sizes_witness :
  (0 < 2)%Z
  /\ exists groups,
       chunks [1; 2; 3; 4; 5]%nat 2 = Ok groups
       /\ Forall (fun c => (1 <= List.length c <= 2)%nat) groups
       /\ Forall (fun c => List.length c = 2%nat) (removelast groups).
Proof.
  assert (H : (0 < 2)%Z) by reflexivity.
  split; [exact H |].
  destruct (chunks_sizes [1; 2; 3; 4; 5]%nat 2 H) as (g & E & S1 & S2 & _).
  exists g. split; [exact E |]. split; [exact S1 | exact S2].
Defined.

(** The sizes that are not positive: zero raises, a negative one yields no
    chunk at all. *)
Example chunks_edge_sizes :
  chunks [1; 2; 3]%nat 0 = Raise ValueError
  /\ chunks [1; 2; 3]%nat (-2) = Ok []
  /\ chunks [1; 2; 3; 4; 5]%nat 2 = Ok [[1; 2]; [3; 4]; [5]]%nat.
Proof. repeat split. Qed.

(** ** Joining and splitting the symbols of a batch *)

Lemma split_comma_free (c : ascii) (x : string) :
  has_char c x = false -> split c x = [x].
Proof.
  induction x as [| a x IH]; simpl; intro H; trivial.
  apply orb_false_iff in H. destruct H as [Ha Hx].
  rewrite Ha, (IH Hx). reflexivity.
Qed.

Lemma split_append_sep (c : ascii) (x rest : string) :
  has_char c x = false ->
  split c (x ++ String c rest)%string = x :: split c rest.
Proof.
  induction x as [| a x IH]; simpl; intro H.
  - now rewrite Ascii.eqb_refl.
  - apply orb_false_iff in H. destruct H as [Ha Hx].
    rewrite Ha, (IH Hx). reflexivity.
Qed.

Lemma split_of_join (l : list string)
  (Hne : l <> []) (Hc : Forall comma_free l) :
  split "," (join "," l) = l.
Proof.
  induction l as [| x l IH]; [congruence |].
  inversion Hc as [| ? ? Hx Hl]; subst.
  destruct l as [| y l].
  - simpl. now apply split_comma_free.
  - change (join "," (x :: y :: l))
      with (x ++ String "," (join "," (y :: l)))%string.
    rewrite (split_append_sep "," x _ Hx).
    rewrite IH; [reflexivity | discriminate | exact Hl].
Qed.

(** X3. Splitting at the commas undoes the join with commas, for a group
    that is not empty and whose symbols hold no comma. (The empty group is
    the exception: it joins to the empty string, which splits into one
    empty symbol.) *)
Theorem split_join (l : list string)
  (Hne : l <> []) (Hc : Forall comma_free l) :
  split "," (join "," l) = l.
Proof. exact (split_of_join l Hne Hc). Qed.

Lemma split_join_witness :
  ["AAPL"; "MSFT"; "BRK.B"]%string <> []
  /\ Forall comma_free ["AAPL"; "MSFT"; "BRK.B"]%string
  /\ split "," (join "," ["AAPL"; "MSFT"; "BRK.B"]%string)
     = ["AAPL"; "MSFT"; "BRK.B"]%string.
Proof.
  assert (Hne : ["AAPL"; "MSFT"; "BRK.B"]%string <> []) by discriminate.
  assert (Hc : Forall comma_free ["AAPL"; "MSFT"; "BRK.B"]%string)
    by (repeat constructor).
  split; [exact Hne |]. split; [exact Hc |].
  exact (split_join _ Hne Hc).
Defined.

Example split_join_empty_group :
  split "," (join "," []) = [EmptyString].
Proof. reflexivity. Qed.

Lemma Forall_chunk {A : Type} (P : A -> Prop) (k i : nat) (l : list A) :
  Forall P l -> Forall P (firstn k (skipn i l)).
Proof.
  intro H. rewrite Forall_forall in *. intros x Hx. apply H.
  rewrite <- (firstn_skipn i l). apply in_or_app. right.
  rewrite <- (firstn_skipn k (skipn i l)). apply in_or_app. now left.
Qed.

Lemma concat_split_join (groups : list (list string)) :
  Forall (fun g => g <> [] /\ Forall comma_free g) groups ->
  concat (map (split ",") (map (join ",") groups)) = concat groups.
Proof.
  induction 1 as [| g groups [Hne Hc] _ IH]; simpl; trivial.
  now rewrite (split_of_join g Hne Hc), IH.
Qed.

Lemma range_from_length (count start step : nat) :
  List.length (range_from count start step) = count.
Proof.
  revert start. induction count as [| count IH]; intro start; simpl;
    [reflexivity | now rewrite IH].
Qed.

Lemma symbol_groups_well_formed (tickers : list string) (n : Z) :
  (0 < n)%Z ->
  Forall comma_free tickers ->
  exists groups,
    chunks tickers n = Ok groups
    /\ concat groups = tickers
    /\ Forall (fun g => g <> [] /\ Forall comma_free g) groups
    /\ List.length groups
       = ((List.length tickers + Z.to_nat n - 1) / Z.to_nat n)%nat.
Proof.
  intros Hn Hc. rewrite (chunks_positive tickers n Hn).
  eexists. split; [reflexivity |].
  assert (Hk : (0 < Z.to_nat n)%nat) by lia.
  split; [| split].
  - rewrite (concat_chunks_from (Z.to_nat n) Hk tickers).
    + reflexivity.
    + apply (ceil_div_covers (Z.to_nat n) Hk).
  - destruct tickers as [| t rest].
    + change (List.length (@nil string)) with O.
      rewrite (ceil_div_zero (Z.to_nat n) Hk). constructor.
    + destruct (chunk_sizes_from (Z.to_nat n) Hk (t :: rest)
                  ((List.length (t :: rest) + Z.to_nat n - 1)
                   / Z.to_nat n) O) as [H1 _].
      { apply ceil_div_tight; [exact Hk | simpl; lia]. }
      rewrite Forall_forall in *. intros g Hg. split.
      * intro E. specialize (H1 g Hg). rewrite E in H1. simpl in H1. lia.
      * apply in_map_iff in Hg. destruct Hg as (i & <- & _).
        apply Forall_chunk. now apply Forall_forall.
  - now rewrite length_map, range_from_length.
Qed.

Lemma symbol_strings_spec (tickers : list string)
  (Hc : Forall comma_free tickers) :
  exists strings,
    symbol_strings tickers = Ok strings
    /\ concat (map (split ",") strings) = tickers
    /\ List.length strings
       = ((List.length tickers + Z.to_nat 100 - 1) / Z.to_nat 100)%nat.
Proof.
  destruct (symbol_groups_well_formed tickers 100 eq_refl Hc)
    as (groups & E & Hcat & Hg & Hlen).
  unfold symbol_strings. rewrite E. cbn [bind].
  eexists. split; [reflexivity |]. split.
  - now rewrite (concat_split_join groups Hg).
  - now rewrite length_map.
Qed.

(** X4. The symbols the loading loops iterate over are the tickers of the
    universe, each once and in the order of the file, whatever the number
    of tickers: batching in groups of 100, joining with commas and
    splitting again loses and adds nothing, as long as no ticker holds a
    comma; and there are ceil(#tickers / 100) batch calls. *)
Theorem symbol_strings_cover (tickers : list string)
  (Hc : Forall comma_free tickers) :
  exists strings,
    symbol_strings tickers = Ok strings
    /\ concat (map (split ",") strings) = tickers
    /\ List.length strings
       = ((List.length tickers + Z.to_nat 100 - 1) / Z.to_nat 100)%nat.
Proof. exact (symbol_strings_spec tickers Hc). Qed.

Lemma symbol_strings_cover_witness :
  Forall comma_free ["AAPL"; "MSFT"; "BRK.B"]%string
  /\ exists strings,
       symbol_strings ["AAPL"; "MSFT"; "BRK.B"]%string = Ok strings
       /\ concat (map (split ",") strings) = ["AAPL"; "MSFT"; "BRK.B"]%string.
Proof.
  assert (Hc : Forall comma_free ["AAPL"; "MSFT"; "BRK.B"]%string)
    by (repeat constructor).
  split; [exact Hc |].
  destruct (symbol_strings_cover _ Hc) as (strings & E & H & _).
  exists strings. split; [exact E | exact H].
Defined.

(** ** The loading loops *)

(** Three ways of ending, on the sample provider. *)
Example load_rv_dataframe_samples :
  (exists df, load_rv_dataframe sample_get ["AAA"; "AAA"]%string = Frame df)
  /\ load_rv_dataframe sample_get ["AAA"; "CCC"; "BBB"]%string
     = KeyError "CCC"
  /\ load_rv_dataframe sample_get ["AAA"; "BBB"; "CCC"]%string
     = Failed ZeroDivisionError
  /\ load_rv_dataframe sample_get [] = Frame [].
Proof.
  split; [eexists; reflexivity |]. repeat split.
Qed.

Lemma build_frame_app (a b : list (string * raw_fields)) :
  build_frame (a ++ b)
  = (u <- build_frame a ;; v <- build_frame b ;; Ok (u ++ v)).
Proof.
  induction a as [| [symbol d] a IH]; simpl.
  - destruct (build_frame b); reflexivity.
  - destruct (build_row symbol d) as [r | e]; simpl; trivial.
    rewrite IH. destruct (build_frame a) as [u | e]; simpl; trivial.
    destruct (build_frame b); reflexivity.
Qed.

Lemma append_rows_build_frame (data : string -> option raw_fields)
  (payload : string -> raw_fields) (symbols : list string) :
  (forall t, In t symbols -> data t = Some (payload t)) ->
  append_rows data symbols
  = loaded_of_result (build_frame (map (fun t => (t, payload t)) symbols)).
Proof.
  induction symbols as [| t rest IH]; intro H; simpl; trivial.
  rewrite (H t (or_introl eq_refl)).
  destruct (build_row t (payload t)) as [r | e]; simpl; trivial.
  rewrite IH by (intros x Hx; apply H; now right).
  destruct (build_frame (map (fun t0 => (t0, payload t0)) rest));
    reflexivity.
Qed.

Lemma batch_loop_build_frame (get : string -> string -> option raw_fields)
  (payload : string -> raw_fields) (strings : list string) :
  (forall s t, In s strings -> In t (split "," s) ->
               get s t = Some (payload t)) ->
  batch_loop get strings
  = loaded_of_result
      (build_frame (map (fun t => (t, payload t))
                      (concat (map (split ",") strings)))).
Proof.
  induction strings as [| s rest IH]; intro H; simpl; trivial.
  rewrite (append_rows_build_frame (get s) payload (split "," s))
    by (intros t Ht; apply H; [now left | exact Ht]).
  rewrite map_app, build_frame_app.
  destruct (build_frame (map (fun t => (t, payload t)) (split "," s)))
    as [u | e]; simpl; trivial.
  rewrite IH by (intros s' t Hs Ht; apply H; [now right | exact Ht]).
  destruct (build_frame
              (map (fun t => (t, payload t))
                 (concat (map (split ",") rest)))); reflexivity.
Qed.

(** X8. Batching is transparent. When the provider answers every symbol
    it is asked for with that symbol's payload, in whatever batch the symbol
    is sent, the loading loops over batches of 100 end as the construction
    of the frame symbol by symbol over the whole universe does: with the
    same frame, or with the same exception. *)
Theorem load_rv_dataframe_is_build_frame
  (get : string -> string -> option raw_fields)
  (payload : string -> raw_fields) (tickers : list string)
  (Hc : Forall comma_free tickers)
  (Hget : forall s t, In t tickers -> get s t = Some (payload t)) :
  load_rv_dataframe get tickers
  = loaded_of_result (build_frame (map (fun t => (t, payload t)) tickers)).
Proof.
  destruct (symbol_strings_spec tickers Hc) as (strings & E & Hcat & _).
  unfold load_rv_dataframe. rewrite E.
  rewrite (batch_loop_build_frame get payload strings).
  - now rewrite Hcat.
  - intros s t Hs Ht. apply Hget. rewrite <- Hcat.
    apply in_concat. exists (split "," s). split; [| exact Ht].
    apply in_map. exact Hs.
Qed.

Lemma load_rv_dataframe_is_build_frame_witness :
  Forall comma_free ["AAA"; "AAA"]%string
  /\ (forall s t, In t ["AAA"; "AAA"]%string ->
                  sample_get s t = Some ((fun _ => null_ebitda_fields) t))
  /\ load_rv_dataframe sample_get ["AAA"; "AAA"]%string
     = loaded_of_result
         (build_frame
            (map (fun t => (t, (fun _ => null_ebitda_fields) t))
               ["AAA"; "AAA"]%string)).
Proof.
  assert (Hc : Forall comma_free ["AAA"; "AAA"]%string)
    by (repeat constructor).
  assert (Hget : forall s t, In t ["AAA"; "AAA"]%string ->
                   sample_get s t = Some ((fun _ => null_ebitda_fields) t)).
  { intros s t [<- | [<- | []]]; reflexivity. }
  split; [exact Hc |]. split; [exact Hget |].
  exact (load_rv_dataframe_is_build_frame sample_get
           (fun _ => null_ebitda_fields) ["AAA"; "AAA"]%string Hc Hget).
Defined.

(** ** What imputation writes *)

Lemma column_fillna_same (c : metric) (v : option Q) (u : universe) :
  column c (fillna c v u) = map (fill_cell v) (column c u).
Proof.
  unfold column, fillna. rewrite !map_map. apply map_ext. intro r.
  unfold fill_cell. destruct (metric_of c r) eqn:E.
  - exact E.
  - apply metric_set_metric_same.
Qed.

Lemma impute_column (c : metric) (u : universe) :
  column c (impute u)
  = map (fill_cell (series_mean (column c u))) (column c u).
Proof.
  rewrite impute_unfold. cbv zeta.
  destruct c;
    rewrite ?column_fillna_other by discriminate;
    rewrite column_fillna_same;
    rewrite ?column_fillna_other by discriminate;
    reflexivity.
Qed.

(** X9. Imputation, column by column: a missing cell receives the mean of
    the values its own column held before the imputation, a cell with a
    value keeps it, and no column depends on another. *)
Theorem impute_fills_with_column_mean (c : metric) (u : universe) :
  column c (impute u)
  = map (fun x => match x with
                  | Some v => Some v
                  | None => series_mean (column c u)
                  end) (column c u).
Proof. exact (impute_column c u). Qed.

Lemma series_mean_dropna (a : list (option Q)) :
  dropna a <> [] ->
  series_mean a
  = Some (Qsum (dropna a) / inject_Z (Z.of_nat (List.length (dropna a)))).
Proof.
  unfold series_mean. destruct (dropna a); [congruence | reflexivity].
Qed.

Lemma dropna_fill (mu : Q) (a : list (option Q)) :
  Qsum (dropna (map (fill_cell (Some mu)) a))
  == Qsum (dropna a) + inject_Z (Z.of_nat (count_missing a)) * mu
  /\ List.length (dropna (map (fill_cell (Some mu)) a))
     = (List.length (dropna a) + count_missing a)%nat.
Proof.
  unfold count_missing.
  induction a as [| [v |] a [IH1 IH2]]; simpl.
  - split; [ring | reflexivity].
  - split; [rewrite IH1; ring | now rewrite IH2].
  - split.
    + rewrite IH1.
      replace (Z.pos (Pos.of_succ_nat (List.length (filter is_missing a))))
        with (Z.of_nat (List.length (filter is_missing a)) + 1)%Z by lia.
      rewrite inject_Z_plus. change (inject_Z 1) with 1. ring.
    + rewrite IH2. lia.
Qed.

Lemma Qmean_with_mean (S m k : Q) :
  0 < m -> 0 <= k -> (S + k * (S / m)) / (m + k) == S / m.
Proof. intros Hm Hk. field. split; lra. Qed.

Lemma fill_all_missing (a : list (option Q)) :
  all_missing a -> map (fill_cell None) a = a.
Proof.
  induction 1 as [| x a Hx _ IH]; simpl; trivial.
  now rewrite Hx, IH.
Qed.

Lemma series_mean_fill (a : list (option Q)) :
  option_Qeq (series_mean (map (fill_cell (series_mean a)) a))
    (series_mean a).
Proof.
  destruct (dropna a) as [| v vs] eqn:E.
  - assert (Hm : all_missing a) by now apply dropna_nil_all_missing.
    assert (Hn : series_mean a = None) by now apply series_mean_none.
    rewrite Hn, (fill_all_missing a Hm), Hn. exact I.
  - assert (Hne : dropna a <> []) by (rewrite E; discriminate).
    rewrite (series_mean_dropna a Hne).
    set (mu := Qsum (dropna a) / inject_Z (Z.of_nat (List.length (dropna a)))).
    destruct (dropna_fill mu a) as [H1 H2].
    assert (Hne' : dropna (map (fill_cell (Some mu)) a) <> []).
    { intro N. rewrite N in H2. simpl in H2.
      rewrite E in H2. simpl in H2. lia. }
    rewrite (series_mean_dropna _ Hne'). simpl.
    rewrite H1, H2, Nat2Z.inj_add, inject_Z_plus. unfold mu.
    apply Qmean_with_mean.
    + apply inject_nat_pos. rewrite E. simpl. lia.
    + change 0 with (inject_Z 0). rewrite <- Zle_Qle. lia.
Qed.

(** X10. Imputation leaves the mean of every metric column as it was: the
    mean of the column after the imputation equals the mean of the values
    it held before (and is missing when it held none). *)
Theorem impute_preserves_column_mean (c : metric) (u : universe) :
  option_Qeq (series_mean (column c (impute u))) (series_mean (column c u)).
Proof. rewrite impute_column. apply series_mean_fill. Qed.

Example impute_three_rows_means :
  option_Qeq (series_mean (column PE three_rows)) (Some 15)
  /\ option_Qeq (series_mean (column PE (impute three_rows))) (Some 15)
  /\ option_Qeq (nth 2 (column PE (impute three_rows)) None) (Some 15).
Proof. repeat split. Qed.

(** ** What the percentile cell and the scoring cell write *)

Lemma percentile_row_again (df df' : universe) (r : row) :
  (forall m, column m df' = column m df) ->
  percentile_row df' (percentile_row df r) = percentile_row df r.
Proof.
  intro H. unfold percentile_row, metrics_keys. simpl fold_left.
  rewrite !H. destruct r. reflexivity.
Qed.

Lemma Forall2_map_in {A B : Type} (P : A -> B -> Prop) (f : A -> B)
  (l : list A) :
  (forall x, In x l -> P x (f x)) -> Forall2 P l (map f l).
Proof.
  induction l as [| a l IH]; simpl; intro H; constructor.
  - apply H. now left.
  - apply IH. intros x Hx. apply H. now right.
Qed.

(** X11. On a frame with no missing metric, the percentile cell writes the
    five percentile columns and nothing else: row by row the ticker, the
    price, the shares cell, the five metrics and the RV score cell are as
    before, every percentile cell holds a number afterwards (no 'N/A' is
    left), and running the cell a second time changes nothing. *)
Theorem percentile_stage_writes_percentiles_only (df : universe)
  (Hc : forall c, no_missing (column c df)) :
  Forall2 (fun r r' =>
             data_preserved r r' /\ RV_Score r' = RV_Score r
             /\ forall m, exists p, percentile_of m r' = Computed (Some p))
    df (percentile_stage df)
  /\ percentile_stage (percentile_stage df) = percentile_stage df.
Proof.
  split.
  - assert (H : forall r, In r df ->
              data_preserved r (percentile_row df r)
              /\ RV_Score (percentile_row df r) = RV_Score r
              /\ forall m, exists p,
                   percentile_of m (percentile_row df r) = Computed (Some p)).
    { intros r Hin. destruct (percentile_row_data df r) as [D S].
      split; [exact D |]. split; [exact S |]. intro m.
      assert (Hin' : In (percentile_row df r) (percentile_stage df)).
      { rewrite percentile_stage_map. now apply in_map. }
      destruct (percentile_stage_row m df _ (Hc m) Hin')
        as (v & p & _ & _ & E & _).
      eauto. }
    rewrite percentile_stage_map. now apply Forall2_map_in.
  - rewrite (percentile_stage_map (percentile_stage df)).
    rewrite (percentile_stage_map df) at 2 3.
    rewrite map_map. apply map_ext. intro r.
    apply percentile_row_again. intro m. apply column_percentile_stage.
Qed.

Lemma percentile_stage_writes_percentiles_only_witness :
  (forall c, no_missing (column c (impute three_rows)))
  /\ List.length (percentile_stage (impute three_rows)) = 3%nat
  /\ percentile_stage (percentile_stage (impute three_rows))
     = percentile_stage (impute three_rows).
Proof.
  assert (H : forall c, no_missing (column c (impute three_rows)))
    by (intros []; repeat constructor; discriminate).
  split; [exact H |].
  destruct (percentile_stage_writes_percentiles_only (impute three_rows) H)
    as [F E].
  split; [| exact E].
  rewrite <- (Forall2_length F). reflexivity.
Defined.

(** ** The three cells in a row *)

Lemma Forall2_in_right {A B : Type} (R : A -> B -> Prop) (l : list A)
  (l' : list B) (y : B) :
  Forall2 R l l' -> In y l' -> exists x, In x l /\ R x y.
Proof.
  induction 1 as [| a b l l' Hab _ IH]; intros Hin; [destruct Hin |].
  destruct Hin as [<- | Hin].
  - exists a. split; [now left | exact Hab].
  - destruct (IH Hin) as (x & Hx & Hr). exists x. split; [now right | exact Hr].
Qed.

Lemma rv_score_stage_data (rows out : universe) :
  rv_score_stage (Some metrics_keys) rows = Ok out ->
  map Ticker out = map Ticker rows
  /\ forall m, column m out = column m rows.
Proof.
  intro H. apply rv_score_stage_rows in H.
  induction H as [| r r' rows out Hr _ [IH1 IH2]]; simpl.
  - split; [reflexivity | intro m; reflexivity].
  - destruct (rv_score_row_shape r r' Hr) as (s & ->).
    split; [now rewrite IH1 |].
    intro m. unfold column in *. simpl. rewrite IH2.
    destruct m; reflexivity.
Qed.

Lemma ranked_row_score (u : universe) (r' : row) :
  (forall m, no_missing (column m u)) ->
  In r' (percentile_stage u) ->
  exists s,
    rv_score_row (Some metrics_keys) r' = Ok (set_RV_Score (Computed (Some s)) r')
    /\ 0 <= s /\ s <= 1.
Proof.
  intros Hc Hin.
  destruct (percentile_stage_row PE u r' (Hc PE) Hin)
    as (v1 & p1 & _ & _ & E1 & _).
  destruct (percentile_stage_row PB u r' (Hc PB) Hin)
    as (v2 & p2 & _ & _ & E2 & _).
  destruct (percentile_stage_row PS u r' (Hc PS) Hin)
    as (v3 & p3 & _ & _ & E3 & _).
  destruct (percentile_stage_row EVEBITDA u r' (Hc EVEBITDA) Hin)
    as (v4 & p4 & _ & _ & E4 & _).
  destruct (percentile_stage_row EVGP u r' (Hc EVGP) Hin)
    as (v5 & p5 & _ & _ & E5 & _).
  destruct (percentile_stage_cell_bounds u r' PE p1 Hin E1) as [L1 U1].
  destruct (percentile_stage_cell_bounds u r' PB p2 Hin E2) as [L2 U2].
  destruct (percentile_stage_cell_bounds u r' PS p3 Hin E3) as [L3 U3].
  destruct (percentile_stage_cell_bounds u r' EVEBITDA p4 Hin E4) as [L4 U4].
  destruct (percentile_stage_cell_bounds u r' EVGP p5 Hin E5) as [L5 U5].
  simpl in E1, E2, E3, E4, E5.
  eexists. split; [apply (rv_score_row_defined r' p1 p2 p3 p4 p5); assumption |].
  rewrite Qmean5. split.
  - apply Qle_shift_div_l; [reflexivity | lra].
  - apply Qle_shift_div_r; [reflexivity | lra].
Qed.

Lemma frame_preserved_tickers (l l' : universe) :
  Forall2 frame_preserved l l' -> map Ticker l' = map Ticker l.
Proof.
  induction 1 as [| r r' l l' (T & _) _ IH]; simpl; [reflexivity |].
  now rewrite T, IH.
Qed.

Lemma settled_cases (u : universe) :
  settled u ->
  (forall m, no_missing (column m u)) \/ exists c, all_missing (column c u).
Proof.
  intro H.
  destruct (H PE) as [H1 | H1]; [| right; eauto].
  destruct (H PB) as [H2 | H2]; [| right; eauto].
  destruct (H PS) as [H3 | H3]; [| right; eauto].
  destruct (H EVEBITDA) as [H4 | H4]; [| right; eauto].
  destruct (H EVGP) as [H5 | H5]; [| right; eauto].
  left. intros []; assumption.
Qed.

(** X12. Imputation, ranking and scoring run one after the other never
    raise, whatever the frame holds. The result has the rows of the frame
    in their order, with the metrics imputation left. Its RV scores are all
    numbers or all NaN: numbers, each in [0, 1], when every metric column
    of the frame has a value; NaN in every row as soon as one column has
    none. *)
Theorem rv_pipeline_outcome (df : universe) :
  exists out,
    rv_pipeline df = Ok out
    /\ map Ticker out = map Ticker df
    /\ (forall m, column m out = column m (impute df))
    /\ ((forall c, has_value c df) ->
        forall r, In r out ->
          exists s, RV_Score r = Computed (Some s) /\ 0 <= s /\ s <= 1)
    /\ ((forall r, In r out -> exists s, RV_Score r = Computed (Some s))
        \/ (forall r, In r out -> RV_Score r = Computed None)).
Proof.
  unfold rv_pipeline. set (u := impute df).
  destruct (rv_score_stage_ranked (percentile_stage u)) as (out & Ho).
  { rewrite percentile_stage_map. apply Forall_forall. intros r' Hin.
    apply in_map_iff in Hin. destruct Hin as (r & <- & _).
    intro m. apply percentile_row_computed. }
  exists out. split; [exact Ho |].
  destruct (rv_score_stage_data _ _ Ho) as [HT HC].
  assert (Hdef : (forall m, no_missing (column m u)) ->
                 forall r, In r out ->
                   exists s, RV_Score r = Computed (Some s)
                             /\ 0 <= s /\ s <= 1).
  { intros Hc r Hin.
    destruct (Forall2_in_right _ _ _ r (rv_score_stage_rows _ _ _ Ho) Hin)
      as (r0 & Hr0 & Hrow).
    destruct (ranked_row_score u r0 Hc Hr0) as (s & Hs & Lo & Hi).
    rewrite Hs in Hrow. injection Hrow as <-. exists s. auto. }
  split; [| split; [| split]].
  - rewrite HT, percentile_stage_map, map_map.
    rewrite (map_ext (fun x => Ticker (percentile_row u x)) Ticker)
      by (intros [? ? ? ? ? ? ? ? ? ? ? ? ? ?]; reflexivity).
    unfold u. apply frame_preserved_tickers, impute_preserves_frame.
  - intro m. rewrite HC. apply column_percentile_stage.
  - intros Hv. apply Hdef. intro m. unfold u. apply impute_no_missing, Hv.
  - destruct (settled_cases u (impute_settles df)) as [Hc | (c & Hc)].
    + left. intros r Hin. destruct (Hdef Hc r Hin) as (s & Hs & _). eauto.
    + right. intros r Hin.
      destruct (rv_score_stage_nan c u u) as (out' & Ho' & _ & Hr).
      { intros x Hx. unfold all_missing, column in Hc.
        rewrite Forall_forall in Hc. apply Hc. now apply in_map. }
      rewrite <- percentile_stage_map in Ho'.
      rewrite Ho in Ho'. injection Ho' as <-.
      apply (Hr r Hin).
Qed.

Lemma rv_pipeline_outcome_witness :
  (forall c, has_value c three_rows)
  /\ exists out,
       rv_pipeline three_rows = Ok out
       /\ map Ticker out = map Ticker three_rows
       /\ forall r, In r out ->
            exists s, RV_Score r = Computed (Some s) /\ 0 <= s /\ s <= 1.
Proof.
  assert (H : forall c, has_value c three_rows).
  { intro c. destruct c.
    - exists (nth 0 three_rows (fresh_row "" None None None None None None)).
      split; [simpl; tauto | discriminate].
    - exists (nth 0 three_rows (fresh_row "" None None None None None None)).
      split; [simpl; tauto | discriminate].
    - exists (nth 0 three_rows (fresh_row "" None None None None None None)).
      split; [simpl; tauto | discriminate].
    - exists (nth 1 three_rows (fresh_row "" None None None None None None)).
      split; [simpl; tauto | discriminate].
    - exists (nth 0 three_rows (fresh_row "" None None None None None None)).
      split; [simpl; tauto | discriminate]. }
  split; [exact H |].
  destruct (rv_pipeline_outcome three_rows) as (out & E & T & _ & D & _).
  exists out. split; [exact E |]. split; [exact T |]. exact (D H).
Defined.

Lemma as_floats_raises (data : list (pending (option Q))) (e : exn) :
  as_floats data = Raise e -> e = TypeError.
Proof.
  induction data as [| [| x] data IH]; simpl; intro H.
  - discriminate.
  - congruence.
  - destruct (as_floats data) as [xs | e']; simpl in H; [discriminate |].
    injection H as <-. now apply IH.
Qed.

Lemma as_floats_placeholder (data : list (pending (option Q))) :
  In NA data -> as_floats data = Raise TypeError.
Proof.
  induction data as [| [| x] data IH]; simpl; intro H.
  - destruct H.
  - reflexivity.
  - destruct H as [H | H]; [discriminate |].
    now rewrite (IH H).
Qed.

Lemma rv_score_row_raises (r : row) (e : exn) :
  rv_score_row (Some metrics_keys) r = Raise e -> e = TypeError.
Proof.
  unfold rv_score_row, lookup_metrics, mean. cbn [bind].
  destruct (as_floats (map (fun m => percentile_of m r) metrics_keys))
    as [xs | e'] eqn:E; simpl.
  - destruct (all_defined xs); discriminate.
  - intro H. injection H as <-. now apply as_floats_raises in E.
Qed.

Lemma rv_score_row_unranked (r : row) (m : metric) :
  percentile_of m r = NA -> rv_score_row (Some metrics_keys) r = Raise TypeError.
Proof.
  intro H. unfold rv_score_row, lookup_metrics, mean. cbn [bind].
  rewrite as_floats_placeholder; [reflexivity |].
  rewrite <- H. apply (in_map (fun m0 => percentile_of m0 r)).
  destruct m; simpl; tauto.
Qed.

(** X13. The scoring cell needs the percentile cell to have run. Run on a
    frame with a row while the name [metrics] is unbound, it raises
    [NameError]. With [metrics] bound, it raises [TypeError] on a frame in
    which some percentile cell of some row still holds 'N/A', whatever the
    other rows hold, and it returns a frame of as many rows when no
    percentile cell holds 'N/A'. *)
Theorem rv_score_stage_needs_percentiles (df : universe) :
  (df <> [] -> rv_score_stage None df = Raise NameError)
  /\ (forall r m, In r df -> percentile_of m r = NA ->
                  rv_score_stage (Some metrics_keys) df = Raise TypeError)
  /\ (Forall (fun r => forall m, exists x, percentile_of m r = Computed x) df ->
      exists out,
        rv_score_stage (Some metrics_keys) df = Ok out
        /\ List.length out = List.length df).
Proof.
  assert (Hexn : forall rows e,
            rv_score_stage (Some metrics_keys) rows = Raise e ->
            e = TypeError).
  { induction rows as [| x rows IH]; simpl; intros e H; [discriminate |].
    destruct (rv_score_row (Some metrics_keys) x) as [x' | e'] eqn:E;
      simpl in H.
    - destruct (rv_score_stage (Some metrics_keys) rows) as [out | e''];
        simpl in H; [discriminate |].
      injection H as <-. now apply IH.
    - injection H as <-. now apply rv_score_row_raises in E. }
  split; [| split].
  - destruct df as [| r rest]; [congruence |]. reflexivity.
  - intros r m Hin Hna. induction df as [| x df IH]; [destruct Hin |].
    simpl. destruct Hin as [-> | Hin].
    + now rewrite (rv_score_row_unranked r m Hna).
    + destruct (rv_score_row (Some metrics_keys) x) as [x' | e] eqn:E; simpl.
      * now rewrite (IH Hin).
      * apply rv_score_row_raises in E. now subst.
  - intro H. destruct (rv_score_stage_ranked df H) as (out & Ho).
    exists out. split; [exact Ho |].
    now apply (rv_score_stage_length (Some metrics_keys)).
Qed.

Lemma rv_score_stage_needs_percentiles_witness :
  (three_rows <> [] /\ rv_score_stage None three_rows = Raise NameError)
  /\ (In (fresh_row "AAA" (Some 100) (Some 10) (Some 1) (Some 2) None (Some 4))
        three_rows
      /\ rv_score_stage (Some metrics_keys) three_rows = Raise TypeError)
  /\ (Forall (fun r => forall m, exists x, percentile_of m r = Computed x)
        (percentile_stage (impute three_rows))
      /\ exists out,
           rv_score_stage (Some metrics_keys)
             (percentile_stage (impute three_rows))
           = Ok out
           /\ List.length out = 3%nat).
Proof.
  assert (Hne : three_rows <> []) by discriminate.
  assert (Hin : In (fresh_row "AAA" (Some 100) (Some 10) (Some 1) (Some 2)
                      None (Some 4)) three_rows) by (left; reflexivity).
  assert (Hr : Forall
                 (fun r => forall m, exists x, percentile_of m r = Computed x)
                 (percentile_stage (impute three_rows)))
    by apply percentile_stage_ranked.
  split; [| split].
  - split; [exact Hne |].
    exact (proj1 (rv_score_stage_needs_percentiles three_rows) Hne).
  - split; [exact Hin |].
    exact (proj1 (proj2 (rv_score_stage_needs_percentiles three_rows))
             _ PE Hin eq_refl).
  - split; [exact Hr |].
    destruct (proj2 (proj2 (rv_score_stage_needs_percentiles
                              (percentile_stage (impute three_rows)))) Hr)
      as (out & Ho & Hl).
    exists out. split; [exact Ho |].
    rewrite Hl, percentile_stage_length, impute_length. reflexivity.
Defined.

(** ** The cheapest rows *)

Section SortedSplit.

Context {A : Type}.
Variable R : A -> A -> Prop.

Lemma StronglySorted_app_cross (l1 l2 : list A) :
  StronglySorted R (l1 ++ l2) ->
  forall a b, In a l1 -> In b l2 -> R a b.
Proof.
  induction l1 as [| x l1 IH]; simpl; intros H a b Ha Hb; [destruct Ha |].
  apply StronglySorted_inv in H. destruct H as [Hs Hall].
  destruct Ha as [<- | Ha].
  - rewrite Forall_forall in Hall. apply Hall, in_or_app. now right.
  - now apply IH.
Qed.

Lemma StronglySorted_filter (f : A -> bool) (l : list A) :
  StronglySorted R l -> StronglySorted R (filter f l).
Proof.
  induction 1 as [| x l Hs IH Hall]; simpl; [constructor |].
  destruct (f x); trivial. constructor; trivial.
  rewrite Forall_forall in *. intros y Hy. apply Hall.
  apply filter_In in Hy. tauto.
Qed.

Lemma sorted_prefix_is_least (n : nat) (l : list A) :
  StronglySorted R l ->
  forall a b, In a (firstn n l) -> In b (skipn n l) -> R a b.
Proof.
  intro H. apply StronglySorted_app_cross. now rewrite firstn_skipn.
Qed.

End SortedSplit.

(** X14. The selection holds the cheapest rows: the rows of the universe
    are the selected rows together with the rows left out, and no row left
    out has an RV score below that of a selected row (a NaN score counting
    as the highest). *)
Theorem select_top_takes_lowest_scores (n : nat) (df out : universe)
  (H : select_top n df out) :
  exists left_out,
    Permutation df (out ++ left_out)
    /\ List.length left_out = (List.length df - n)%nat
    /\ forall a b, In a out -> In b left_out -> score_le a b.
Proof.
  destruct H as (sorted & (Hp & Hs) & ->).
  exists (skipn n sorted). split; [| split].
  - now rewrite firstn_skipn.
  - rewrite length_skipn. now rewrite (Permutation_length Hp).
  - now apply sorted_prefix_is_least.
Qed.

Lemma select_top_takes_lowest_scores_witness :
  select_top 1 two_scored [scored_row "BBB" (1 # 4)]
  /\ exists left_out,
       Permutation two_scored ([scored_row "BBB" (1 # 4)] ++ left_out)
       /\ forall a b, In a [scored_row "BBB" (1 # 4)] -> In b left_out ->
                      score_le a b.
Proof.
  assert (H : select_top 1 two_scored [scored_row "BBB" (1 # 4)]).
  { exists [scored_row "BBB" (1 # 4); scored_row "AAA" (3 # 4)].
    split; [split |].
    - apply perm_swap.
    - repeat constructor.
    - reflexivity. }
  split; [exact H |].
  destruct (select_top_takes_lowest_scores 1 two_scored _ H)
    as (left_out & P & _ & L).
  exists left_out. split; [exact P | exact L].
Defined.

(** ** The single-metric screener *)

Lemma pe_leb_trans (a b c : quote_row) :
  pe_leb a b = true -> pe_leb b c = true -> pe_leb a c = true.
Proof.
  unfold pe_leb.
  destruct (quote_PE a) as [x |], (quote_PE b) as [y |],
    (quote_PE c) as [z |]; trivial; try discriminate.
  intros H1 H2. apply Qle_bool_iff. apply Qle_bool_iff in H1, H2.
  eapply Qle_trans; eauto.
Qed.

Lemma pe_leb_total (a b : quote_row) :
  pe_leb a b = false -> pe_leb b a = true.
Proof.
  unfold pe_leb.
  destruct (quote_PE a) as [x |], (quote_PE b) as [y |]; trivial;
    try discriminate.
  intro H. apply Qle_bool_iff.
  destruct (Qlt_le_dec y x) as [L | L]; [now apply Qlt_le_weak |].
  apply Qle_bool_iff in L. congruence.
Qed.

Lemma insert_by_pe_perm (r : quote_row) (l : list quote_row) :
  Permutation (r :: l) (insert_by_pe r l).
Proof.
  induction l as [| x l IH]; simpl; [apply Permutation_refl |].
  destruct (pe_leb r x); [apply Permutation_refl |].
  eapply perm_trans; [apply perm_swap |]. now apply perm_skip.
Qed.

Lemma sort_by_pe_perm (df : list quote_row) :
  Permutation df (sort_by_pe df).
Proof.
  induction df as [| r df IH]; simpl; [constructor |].
  eapply perm_trans; [apply perm_skip, IH |]. apply insert_by_pe_perm.
Qed.

Lemma insert_by_pe_sorted (r : quote_row) (l : list quote_row) :
  StronglySorted pe_le l -> StronglySorted pe_le (insert_by_pe r l).
Proof.
  intro Hs. induction l as [| x l IH]; simpl.
  - repeat constructor.
  - apply StronglySorted_inv in Hs. destruct Hs as [Hs Hall].
    destruct (pe_leb r x) eqn:E.
    + constructor; [constructor; trivial |].
      constructor; [exact E |].
      eapply Forall_impl; [| exact Hall].
      intros y Hy. unfold pe_le in *. eapply pe_leb_trans; eauto.
    + constructor; [now apply IH |].
      eapply Permutation_Forall; [apply insert_by_pe_perm |].
      constructor; trivial. now apply pe_leb_total.
Qed.

Lemma sort_by_pe_sorted (df : list quote_row) :
  StronglySorted pe_le (sort_by_pe df).
Proof.
  induction df as [| r df IH]; simpl; [constructor |].
  now apply insert_by_pe_sorted.
Qed.

Lemma positive_pe_spec (r : quote_row) :
  positive_pe r = true <-> exists x, quote_PE r = Some x /\ 0 < x.
Proof.
  unfold positive_pe. destruct (quote_PE r) as [x |].
  - rewrite Qltb_lt. split; [eauto |]. intros (y & E & H). congruence.
  - split; [discriminate |]. intros (y & E & _). discriminate.
Qed.

(** X15. The single-metric screener always has a result, and every result
    holds rows with a positive price-to-earnings ratio only (a row with a
    negative, zero or missing ratio is never selected), min(50, number of
    rows with a positive ratio) of them, in ascending order of the ratio;
    they are the cheapest: the rows with a positive ratio are the selected
    rows together with the rows left out, and no row left out has a ratio
    below that of a selected row. *)
Theorem pe_screener_outcome (df : list quote_row) :
  (exists out, pe_screener df out)
  /\ forall out, pe_screener df out ->
       Forall (fun r => exists x, quote_PE r = Some x /\ 0 < x) out
       /\ List.length out
          = Nat.min 50 (List.length (filter positive_pe df))
       /\ StronglySorted pe_le out
       /\ exists left_out,
            Permutation (filter positive_pe df) (out ++ left_out)
            /\ forall a b, In a out -> In b left_out -> pe_le a b.
Proof.
  split.
  - exists (firstn 50 (filter positive_pe (sort_by_pe df))).
    exists (sort_by_pe df). split; [| reflexivity].
    split; [apply sort_by_pe_perm | apply sort_by_pe_sorted].
  - intros out (sorted & (Hp & Hs) & ->).
    pose proof (StronglySorted_filter pe_le positive_pe sorted Hs) as Hf.
    pose proof (Permutation_filter positive_pe df sorted Hp) as Hpf.
    split; [| split; [| split]].
    + apply Forall_forall. intros r Hr. apply positive_pe_spec.
      assert (Hin : In r (filter positive_pe sorted)).
      { rewrite <- (firstn_skipn 50 (filter positive_pe sorted)).
        apply in_or_app. now left. }
      apply filter_In in Hin. tauto.
    + rewrite length_firstn. now rewrite (Permutation_length Hpf).
    + now apply StronglySorted_firstn.
    + exists (skipn 50 (filter positive_pe sorted)). split.
      * now rewrite firstn_skipn.
      * now apply sorted_prefix_is_least.
Qed.

Lemma pe_screener_outcome_witness :
  pe_screener sample_quotes
    [ mkQuote "CHEAP" (Some 50) (Some 8) NA;
      mkQuote "DEAR" (Some 300) (Some 40) NA ]
  /\ Forall (fun r => exists x, quote_PE r = Some x /\ 0 < x)
       [ mkQuote "CHEAP" (Some 50) (Some 8) NA;
         mkQuote "DEAR" (Some 300) (Some 40) NA ]
  /\ List.length [ mkQuote "CHEAP" (Some 50) (Some 8) NA;
                   mkQuote "DEAR" (Some 300) (Some 40) NA ]
     = Nat.min 50 (List.length (filter positive_pe sample_quotes)).
Proof.
  assert (H : pe_screener sample_quotes
                [ mkQuote "CHEAP" (Some 50) (Some 8) NA;
                  mkQuote "DEAR" (Some 300) (Some 40) NA ]).
  { exists (sort_by_pe sample_quotes). split; [| reflexivity].
    split; [apply sort_by_pe_perm | apply sort_by_pe_sorted]. }
  split; [exact H |].
  destruct (proj2 (pe_screener_outcome sample_quotes) _ H) as (F & L & _).
  split; [exact F | exact L].
Defined.

(** ** What the allocation leaves unspent *)

Lemma allocated_value_above (x ps : Q) (df : universe) :
  0 < x ->
  x * (1 - unit_roundoff) <= ps -> ps <= x * (1 + unit_roundoff) ->
  df <> [] ->
  Forall (priced (fun p => 0 < p /\ tradable x p)) df ->
  inject_Z (Z.of_nat (List.length df))
  * (x * (1 - unit_roundoff) * (1 - unit_roundoff)) - total_price df
  < allocated_value
      (map (fun r => set_Shares (Computed (shares_for ps r)) r) df).
Proof.
  intros Hx Hlo Hhi Hne H.
  destruct H as [| r df (price & Hp & Hpos & Ht) Hrest]; [congruence |].
  destruct (allocated_value_bounds x ps df Hx Hlo Hhi Hrest) as [_ IH].
  destruct (position_value_floor x ps price r Hx Hlo Hhi Hp Hpos Ht)
    as (_ & Hr & _).
  unfold allocated_value, total_price in *.
  change (List.length (r :: df)) with (S (List.length df)).
  rewrite Nat2Z.inj_succ. unfold Z.succ. rewrite inject_Z_plus.
  change (inject_Z 1) with 1. simpl map. simpl Qsum. rewrite Hp.
  set (n := inject_Z (Z.of_nat (List.length df))) in *.
  set (v := position_value (set_Shares (Computed (shares_for ps r)) r)) in *.
  set (t := Qsum (map _ df)) in *.
  set (w := Qsum (map position_value _)) in *.
  set (y := x * (1 - unit_roundoff) * (1 - unit_roundoff)) in *.
  assert (E : (n + 1) * y == n * y + y) by ring.
  rewrite E. set (ny := n * y) in *.
  clearbody v t w ny y. clear - Hr IH. lra.
Qed.

(** What the allocation returns on a positive budget and positive prices,
    and how much of the budget it spends. *)
Lemma allocation_spend (dtype : price_dtype) (entry : string) (B : Q)
  (df : universe) :
  float entry = Ok (Finite B) ->
  0 < B ->
  df <> [] ->
  (Z.of_nat (List.length df) <= 2 ^ 53)%Z ->
  in_float64_range (B / inject_Z (Z.of_nat (List.length df))) ->
  Forall
    (priced (fun p =>
               0 < p /\ tradable (B / inject_Z (Z.of_nat (List.length df))) p))
    df ->
  exists out,
    allocation dtype entry df = Ok out
    /\ out = map (fun r =>
                    set_Shares
                      (Computed
                         (shares_for
                            (fl_div B (inject_Z (Z.of_nat (List.length df))))
                            r))
                      r) df
    /\ Forall (fun r => exists n, Shares r = Computed n /\ (0 <= n)%Z) out
    /\ allocated_value out <= B * (1 + unit_roundoff) * (1 + unit_roundoff)
    /\ B * (1 - unit_roundoff) * (1 - unit_roundoff) - total_price df
       < allocated_value out.
Proof.
  intros Hf HB Hne Hlen Hr Hp.
  assert (Ht : Forall
                 (priced (tradable (B / inject_Z (Z.of_nat (List.length df)))))
                 df).
  { eapply priced_weaken; [| exact Hp]. intros p [_ H]. exact H. }
  destruct (position_size_ok B df HB Hne Hlen Hr) as (_ & Hx & Lo & Hi).
  rewrite (allocation_ok dtype entry B df Hf HB Hne Hlen Hr Ht).
  pose proof (Qmult_div_length B df Hne) as HN.
  set (x := B / inject_Z (Z.of_nat (List.length df))) in *.
  set (ps := fl_div B (inject_Z (Z.of_nat (List.length df)))) in *.
  eexists. split; [reflexivity |]. split; [reflexivity |].
  split; [| split].
  - apply Forall_forall. intros r' Hin. apply in_map_iff in Hin.
    destruct Hin as (r & <- & Hin).
    rewrite Forall_forall in Hp.
    destruct (Hp r Hin) as (price & Hpr & Hpos & Htr).
    destruct (position_value_floor x ps price r Hx Lo Hi Hpr Hpos Htr)
      as (_ & _ & V).
    exists (shares_for ps r). split; [reflexivity | exact V].
  - destruct (allocated_value_bounds x ps df Hx Lo Hi Hp) as [V _].
    eapply Qle_trans; [exact V |].
    assert (E : inject_Z (Z.of_nat (List.length df))
                * (x * (1 + unit_roundoff) * (1 + unit_roundoff))
                == inject_Z (Z.of_nat (List.length df)) * x
                   * (1 + unit_roundoff) * (1 + unit_roundoff)) by ring.
    rewrite E, HN. apply Qle_refl.
  - pose proof (allocated_value_above x ps df Hx Lo Hi Hne Hp) as V.
    assert (E : inject_Z (Z.of_nat (List.length df))
                * (x * (1 - unit_roundoff) * (1 - unit_roundoff))
                == inject_Z (Z.of_nat (List.length df)) * x
                   * (1 - unit_roundoff) * (1 - unit_roundoff)) by ring.
    rewrite E, HN in V. exact V.
Qed.

(** The sample of the next properties: 1000 to spend on the two rows of
    [tied_pair], priced at 100 and at 50. *)
Lemma tied_pair_tradable :
  float "1000" = Ok (Finite 1000)
  /\ (Z.of_nat (List.length tied_pair) <= 2 ^ 53)%Z
  /\ in_float64_range (1000 / inject_Z (Z.of_nat (List.length tied_pair)))
  /\ Forall
       (priced (fun p =>
                  0 < p
                  /\ tradable
                       (1000 / inject_Z (Z.of_nat (List.length tied_pair))) p))
       tied_pair.
Proof.
  split; [vm_compute; reflexivity |].
  split; [vm_compute; discriminate |].
  split; [split; vm_compute; discriminate |].
  constructor; [| constructor; [| constructor]].
  - exists 100. split; [reflexivity |]. split; [reflexivity |].
    split; [vm_compute; reflexivity |].
    split; [discriminate | split; vm_compute; discriminate].
  - exists 50. split; [reflexivity |]. split; [reflexivity |].
    split; [vm_compute; reflexivity |].
    split; [discriminate | split; vm_compute; discriminate].
Defined.

(** X16. On a positive budget B and a non-empty selection whose prices are
    positive, magnitudes being within the range of binary64, no row
    receives a negative number of shares, and the allocation leaves less
    than the price of one share of every row unspent, up to the rounding of
    the two divisions: the value allocated exceeds B * (1 - 2^-53)^2 minus
    the sum of the prices. *)
Theorem allocation_spends_all_but_one_share
  (dtype : price_dtype) (entry : string) (B : Q) (df : universe)
  (Hf : float entry = Ok (Finite B))
  (HB : 0 < B) (Hne : df <> [])
  (Hlen : (Z.of_nat (List.length df) <= 2 ^ 53)%Z)
  (Hr : in_float64_range (B / inject_Z (Z.of_nat (List.length df))))
  (Hp : Forall
          (priced (fun p =>
                     0 < p
                     /\ tradable (B / inject_Z (Z.of_nat (List.length df))) p))
          df) :
  exists out,
    allocation dtype entry df = Ok out
    /\ Forall (fun r => exists n, Shares r = Computed n /\ (0 <= n)%Z) out
    /\ B * (1 - unit_roundoff) * (1 - unit_roundoff) - total_price df
       < allocated_value out.
Proof.
  destruct (allocation_spend dtype entry B df Hf HB Hne Hlen Hr Hp)
    as (out & Ho & _ & Hn & _ & Hv).
  exists out. auto.
Qed.

Lemma allocation_spends_all_but_one_share_witness :
  float "1000" = Ok (Finite 1000)
  /\ 0 < 1000
  /\ tied_pair <> []
  /\ exists out,
       allocation float64_dtype "1000" tied_pair = Ok out
       /\ 1000 * (1 - unit_roundoff) * (1 - unit_roundoff)
          - total_price tied_pair
          < allocated_value out.
Proof.
  destruct tied_pair_tradable as (Hf & Hlen & Hr & Hp).
  assert (HB : 0 < 1000) by reflexivity.
  assert (Hne : tied_pair <> []) by discriminate.
  split; [exact Hf |]. split; [exact HB |]. split; [exact Hne |].
  destruct (allocation_spends_all_but_one_share float64_dtype "1000" 1000
              tied_pair Hf HB Hne Hlen Hr Hp) as (out & Ho & _ & Hv).
  exists out. split; assumption.
Defined.

(** ** When the allocation raises *)

(** X17. The allocation and its entry. An entry that [float] rejects
    raises [ValueError], whatever the frame. With an entry that [float]
    accepts, an empty frame raises [ZeroDivisionError] (the budget is
    divided by the number of rows). An entry that reads as an infinity
    ("inf") or as NaN ("nan") is accepted by [float] and stops the
    allocation at the first row, when its price is a float other than
    zero: [math.floor] raises [OverflowError] on the infinity and
    [ValueError] on NaN. *)
Theorem allocation_entry_errors (dtype : price_dtype) (entry : string) :
  (float entry = Raise ValueError ->
   forall df, allocation dtype entry df = Raise ValueError)
  /\ (forall x, float entry = Ok x ->
        allocation dtype entry [] = Raise ZeroDivisionError)
  /\ (forall negative r rest price,
        float entry = Ok (Infinity negative) ->
        (Z.of_nat (List.length (r :: rest)) <= 2 ^ 53)%Z ->
        Price r = Some price -> is_float64 price -> ~ price == 0 ->
        allocation dtype entry (r :: rest) = Raise OverflowError)
  /\ (forall r rest price,
        float entry = Ok NaN ->
        (Z.of_nat (List.length (r :: rest)) <= 2 ^ 53)%Z ->
        Price r = Some price -> is_float64 price -> ~ price == 0 ->
        allocation dtype entry (r :: rest) = Raise ValueError).
Proof.
  assert (Hn : forall (r : row) rest,
            (Z.of_nat (List.length (r :: rest)) <= 2 ^ 53)%Z ->
            to_float (inject_Z (Z.of_nat (List.length (r :: rest))))
            = Ok (Finite (inject_Z (Z.of_nat (List.length (r :: rest)))))
            /\ Qeq_bool (inject_Z (Z.of_nat (List.length (r :: rest)))) 0
               = false).
  { intros r rest Hlen. split.
    - pose proof (length_is_float64 (r :: rest) Hlen) as H.
      unfold is_float64 in H. unfold to_float. now rewrite H.
    - destruct (Qeq_bool _ 0) eqn:E; trivial.
      apply Qeq_bool_iff in E.
      exfalso. revert E. apply inject_nat_nonzero. simpl. lia. }
  assert (Hq : forall price, is_float64 price -> ~ price == 0 ->
            to_float price = Ok (Finite price)
            /\ Qeq_bool price 0 = false).
  { intros price Hf Hnz. split.
    - unfold is_float64 in Hf. unfold to_float. now rewrite Hf.
    - destruct (Qeq_bool price 0) eqn:E; trivial.
      apply Qeq_bool_iff in E. contradiction. }
  split; [| split; [| split]].
  - intros H df. unfold allocation. now rewrite H.
  - intros x H. unfold allocation. rewrite H. reflexivity.
  - intros negative r rest price H Hlen Hp Hf Hnz.
    destruct (Hn r rest Hlen) as [N1 N2]. destruct (Hq price Hf Hnz) as [Q1 Q2].
    unfold allocation. rewrite H. cbn [bind].
    unfold float_truediv at 1. rewrite N1. cbn [bind]. rewrite N2.
    cbn [ieee_div bind shares_loop]. unfold shares_row. rewrite Hp.
    destruct dtype; unfold price_quotient, float_truediv.
    + rewrite Q1. cbn [bind]. rewrite Q2. reflexivity.
    + unfold is_float64 in Hf. rewrite Hf. reflexivity.
  - intros r rest price H Hlen Hp Hf Hnz.
    destruct (Hn r rest Hlen) as [N1 N2]. destruct (Hq price Hf Hnz) as [Q1 Q2].
    unfold allocation. rewrite H. cbn [bind].
    unfold float_truediv at 1. rewrite N1. cbn [bind]. rewrite N2.
    cbn [ieee_div bind shares_loop]. unfold shares_row. rewrite Hp.
    destruct dtype; unfold price_quotient, float_truediv.
    + rewrite Q1. cbn [bind]. rewrite Q2. reflexivity.
    + unfold is_float64 in Hf. rewrite Hf. reflexivity.
Qed.

Lemma allocation_entry_errors_witness :
  (float "ten" = Raise ValueError
   /\ allocation object_dtype "ten" tied_pair = Raise ValueError)
  /\ (float "1000" = Ok (Finite 1000)
      /\ allocation object_dtype "1000" [] = Raise ZeroDivisionError)
  /\ (float "inf" = Ok (Infinity false)
      /\ allocation float64_dtype "inf" [hundred_dollar_row]
         = Raise OverflowError)
  /\ (float "nan" = Ok NaN
      /\ allocation object_dtype "nan" [hundred_dollar_row]
         = Raise ValueError).
Proof.
  assert (Hnz : ~ 100 == 0) by discriminate.
  assert (Hfl : is_float64 100) by (vm_compute; reflexivity).
  assert (Hlen : (Z.of_nat (List.length [hundred_dollar_row]) <= 2 ^ 53)%Z)
    by (vm_compute; discriminate).
  assert (H1 : float "ten" = Raise ValueError) by (vm_compute; reflexivity).
  assert (H2 : float "1000" = Ok (Finite 1000)) by (vm_compute; reflexivity).
  assert (H3 : float "inf" = Ok (Infinity false)) by (vm_compute; reflexivity).
  assert (H4 : float "nan" = Ok NaN) by (vm_compute; reflexivity).
  split; [| split; [| split]].
  - split; [exact H1 |].
    exact (proj1 (allocation_entry_errors object_dtype "ten") H1 tied_pair).
  - split; [exact H2 |].
    exact (proj1 (proj2 (allocation_entry_errors object_dtype "1000")) _ H2).
  - split; [exact H3 |].
    exact (proj1 (proj2 (proj2 (allocation_entry_errors float64_dtype "inf")))
             false hundred_dollar_row [] 100 H3 Hlen eq_refl Hfl Hnz).
  - split; [exact H4 |].
    exact (proj2 (proj2 (proj2 (allocation_entry_errors object_dtype "nan")))
             hundred_dollar_row [] 100 H4 Hlen eq_refl Hfl Hnz).
Defined.

(** ** From the prompt to the allocation *)

(** X18. Which entry becomes the budget. When the routine returns, the
    global it leaves is an entry it has just read, whatever the global held
    before: the first entry if [float] accepts it, the entry read after the
    retry message otherwise; and the allocation cell then computes on that
    entry. So a first entry that reads as a positive number B makes the
    allocation succeed on a non-empty frame with positive prices, after
    exactly one entry has been consumed, and spend at most
    B * (1 + 2^-53)^2. Without any call of the routine the allocation cell
    raises [NameError]. *)
Theorem portfolio_input_feeds_allocation (s : session) :
  (forall s', portfolio_input s = Returned s' ->
     exists e,
       portfolio_size s' = Some e
       /\ (forall dtype df, allocation_cell dtype s' df = allocation dtype e df)
       /\ ((entries s = e :: entries s' /\ exists x, float e = Ok x)
           \/ exists e1, entries s = e1 :: e :: entries s'
                         /\ float e1 = Raise ValueError))
  /\ (forall dtype e1 rest B df,
        entries s = e1 :: rest ->
        float e1 = Ok (Finite B) ->
        0 < B -> df <> [] ->
        (Z.of_nat (List.length df) <= 2 ^ 53)%Z ->
        in_float64_range (B / inject_Z (Z.of_nat (List.length df))) ->
        Forall
          (priced (fun p =>
                     0 < p
                     /\ tradable (B / inject_Z (Z.of_nat (List.length df))) p))
          df ->
        exists s' out,
          portfolio_input s = Returned s'
          /\ entries s' = rest
          /\ allocation_cell dtype s' df = Ok out
          /\ allocated_value out
             <= B * (1 + unit_roundoff) * (1 + unit_roundoff))
  /\ (portfolio_size s = None ->
      forall dtype df, allocation_cell dtype s df = Raise NameError).
Proof.
  split; [| split].
  - intros s' H. unfold portfolio_input, input in H.
    destruct (entries s) as [| e1 rest] eqn:He; [discriminate |].
    destruct (float e1) as [x | x] eqn:Hx.
    + injection H as <-. exists e1. simpl.
      split; [reflexivity |]. split; [reflexivity |].
      left. split; [reflexivity | eauto].
    + pose proof (float_raises_value_error e1 x Hx) as ->.
      simpl in H. destruct rest as [| e2 rest]; [discriminate |].
      injection H as <-. exists e2. simpl.
      split; [reflexivity |]. split; [reflexivity |].
      right. exists e1. split; [reflexivity | exact Hx].
  - intros dtype e1 rest B df He Hf HB Hne Hlen Hr Hp.
    destruct (allocation_spend dtype e1 B df Hf HB Hne Hlen Hr Hp)
      as (out & Ho & _ & _ & Hv & _).
    unfold portfolio_input, input. rewrite He, Hf.
    eexists. exists out. split; [reflexivity |]. split; [reflexivity |].
    unfold allocation_cell, set_portfolio_size. cbn [portfolio_size].
    split; [exact Ho | exact Hv].
  - intros H dtype df. unfold allocation_cell. now rewrite H.
Qed.

Lemma portfolio_input_feeds_allocation_witness :
  (portfolio_input (mkSession ["abc"; "1000"]%string [] (Some "5"%string))
   = Returned (mkSession [] [prompt; retry_message; prompt]
                 (Some "1000"%string))
   /\ exists e,
        portfolio_size (mkSession [] [prompt; retry_message; prompt]
                          (Some "1000"%string)) = Some e
        /\ forall dtype df,
             allocation_cell dtype
               (mkSession [] [prompt; retry_message; prompt]
                  (Some "1000"%string)) df
             = allocation dtype e df)
  /\ (float "1000" = Ok (Finite 1000)
      /\ 0 < 1000 /\ tied_pair <> []
      /\ exists s' out,
           portfolio_input (mkSession ["1000"]%string [] None) = Returned s'
           /\ allocation_cell object_dtype s' tied_pair = Ok out
           /\ allocated_value out
              <= 1000 * (1 + unit_roundoff) * (1 + unit_roundoff)).
Proof.
  assert (H1 : portfolio_input
                 (mkSession ["abc"; "1000"]%string [] (Some "5"%string))
               = Returned (mkSession [] [prompt; retry_message; prompt]
                             (Some "1000"%string)))
    by (vm_compute; reflexivity).
  destruct tied_pair_tradable as (Hf & Hlen & Hr & Hp).
  assert (HB : 0 < 1000) by reflexivity.
  assert (Hne : tied_pair <> []) by discriminate.
  split.
  - split; [exact H1 |].
    destruct (proj1 (portfolio_input_feeds_allocation
                (mkSession ["abc"; "1000"]%string [] (Some "5"%string)))
                _ H1) as (e & E1 & E2 & _).
    exists e. split; [exact E1 | exact E2].
  - split; [exact Hf |]. split; [exact HB |]. split; [exact Hne |].
    destruct (proj1 (proj2 (portfolio_input_feeds_allocation
                (mkSession ["1000"]%string [] None)))
                object_dtype "1000"%string [] 1000 tied_pair eq_refl Hf HB Hne
                Hlen Hr Hp)
      as (s' & out & R & _ & A & V).
    exists s', out. split; [exact R |]. split; [exact A | exact V].
Defined.

(** ** The rows with missing data *)

Lemma any_isnull_placeholders (r : row) :
  placeholders r ->
  any_isnull r
  = is_missing (Price r) || is_missing (PE_Ratio r)
    || is_missing (PB_Ratio r) || is_missing (PS_Ratio r)
    || is_missing (EV_EBITDA r) || is_missing (EV_GP r).
Proof.
  intros (_ & HR & HP). unfold any_isnull.
  pose proof (HP PE) as H1. pose proof (HP PB) as H2.
  pose proof (HP PS) as H3. pose proof (HP EVEBITDA) as H4.
  pose proof (HP EVGP) as H5. simpl in H1, H2, H3, H4, H5.
  rewrite H1, H2, H3, H4, H5, HR. simpl.
  now rewrite !orb_false_r.
Qed.

Lemma any_isnull_missing_metric (c : metric) (r : row) :
  metric_of c r = None -> any_isnull r = true.
Proof.
  intro H. unfold any_isnull.
  destruct c; simpl in H; rewrite H; repeat (simpl; rewrite ?orb_true_r);
    reflexivity.
Qed.

Lemma frame_preserved_placeholders (l l' : universe) :
  Forall2 frame_preserved l l' ->
  Forall placeholders l -> Forall placeholders l'.
Proof.
  induction 1 as [| r r' l l' (_ & _ & S & P & R & _) _ IH]; intro H;
    constructor; inversion H as [| ? ? (HS & HR & HP) Hl]; subst.
  - unfold placeholders. split; [congruence |]. split; [congruence |].
    intro m. rewrite P. apply HP.
  - now apply IH.
Qed.

Lemma frame_preserved_priced (l l' : universe) :
  Forall (fun r => Price r <> None) l ->
  Forall2 frame_preserved l l' ->
  filter (fun r => is_missing (Price r)) l' = [].
Proof.
  intros H F. induction F as [| r r' l l' (_ & P & _) _ IH];
    [reflexivity |].
  inversion H as [| ? ? Hr Hl]; subst. simpl.
  rewrite P. destruct (Price r); [| congruence]. simpl.
  now apply IH.
Qed.

Lemma filter_all {A : Type} (f : A -> bool) (l : list A) :
  Forall (fun x => f x = true) l -> filter f l = l.
Proof.
  induction 1 as [| x l Hx _ IH]; simpl; [reflexivity |].
  now rewrite Hx, IH.
Qed.

(** X19. The display of the rows with missing data, on a frame as the
    loading loop builds it. After the imputation it shows exactly the rows
    without a price when every metric column has a value, hence nothing
    when every row has a price as well; and it shows every row as soon as
    one metric column has no value at all. *)
Theorem rows_with_missing_data_after_impute (df : universe)
  (Hfresh : Forall placeholders df) :
  ((forall c, has_value c df) ->
   rows_with_missing_data (impute df)
   = filter (fun r => is_missing (Price r)) (impute df))
  /\ ((forall c, has_value c df) ->
      Forall (fun r => Price r <> None) df ->
      rows_with_missing_data (impute df) = [])
  /\ (forall c, all_missing (column c df) ->
      rows_with_missing_data (impute df) = impute df).
Proof.
  pose proof (frame_preserved_placeholders _ _ (impute_preserves_frame df)
                Hfresh) as Hp.
  assert (H1 : (forall c, has_value c df) ->
               rows_with_missing_data (impute df)
               = filter (fun r => is_missing (Price r)) (impute df)).
  { intro Hv. unfold rows_with_missing_data. apply filter_ext_in.
    intros r Hin. rewrite Forall_forall in Hp.
    rewrite (any_isnull_placeholders r (Hp r Hin)).
    assert (Hm : forall c, metric_of c r <> None).
    { intro c. pose proof (impute_no_missing c df (Hv c)) as Hn.
      unfold no_missing, column in Hn. rewrite Forall_forall in Hn.
      apply Hn. now apply in_map. }
    pose proof (Hm PE) as M1. pose proof (Hm PB) as M2.
    pose proof (Hm PS) as M3. pose proof (Hm EVEBITDA) as M4.
    pose proof (Hm EVGP) as M5. simpl in M1, M2, M3, M4, M5.
    destruct (PE_Ratio r), (PB_Ratio r), (PS_Ratio r), (EV_EBITDA r),
      (EV_GP r); try congruence.
    simpl. now rewrite !orb_false_r. }
  split; [exact H1 |]. split.
  - intros Hv Hprice. rewrite (H1 Hv).
    now apply (frame_preserved_priced df), impute_preserves_frame.
  - intros c Hc. unfold rows_with_missing_data. apply filter_all.
    pose proof (impute_keeps_all_missing c df Hc) as Hi.
    unfold all_missing, column in Hi. rewrite Forall_forall in *.
    intros r Hin. apply (any_isnull_missing_metric c).
    apply Hi. now apply in_map.
Qed.

Lemma rows_with_missing_data_after_impute_witness :
  Forall placeholders three_rows
  /\ (forall c, has_value c three_rows)
  /\ Forall (fun r => Price r <> None) three_rows
  /\ rows_with_missing_data (impute three_rows) = [].
Proof.
  assert (Hf : Forall placeholders three_rows).
  { repeat constructor; intros []; reflexivity. }
  assert (Hv : forall c, has_value c three_rows).
  { intro c. destruct c.
    - exists (nth 0 three_rows (fresh_row "" None None None None None None)).
      split; [simpl; tauto | discriminate].
    - exists (nth 0 three_rows (fresh_row "" None None None None None None)).
      split; [simpl; tauto | discriminate].
    - exists (nth 0 three_rows (fresh_row "" None None None None None None)).
      split; [simpl; tauto | discriminate].
    - exists (nth 1 three_rows (fresh_row "" None None None None None None)).
      split; [simpl; tauto | discriminate].
    - exists (nth 0 three_rows (fresh_row "" None None None None None None)).
      split; [simpl; tauto | discriminate]. }
  assert (Hp : Forall (fun r => Price r <> None) three_rows)
    by (repeat constructor; discriminate).
  split; [exact Hf |]. split; [exact Hv |]. split; [exact Hp |].
  exact (proj1 (proj2 (rows_with_missing_data_after_impute three_rows Hf))
           Hv Hp).
Defined.

(** ** The sum of the percentiles of a column *)


Lemma count_lt_cons (x : Q) (a : list (option Q)) (v : Q) :
  count_lt (Some x :: a) v = (b2n (Qltb x v) + count_lt a v)%nat.
Proof. unfold count_lt. simpl. destruct (Qltb x v); reflexivity. Qed.

Lemma count_le_cons (x : Q) (a : list (option Q)) (v : Q) :
  count_le (Some x :: a) v = (b2n (Qle_bool x v) + count_le a v)%nat.
Proof. unfold count_le. simpl. destruct (Qle_bool x v); reflexivity. Qed.

(** Of two values, each is below or at most the other twice in all. *)
Lemma pair_count (x v : Q) :
  (b2n (Qltb v x) + b2n (Qle_bool v x) + b2n (Qltb x v) + b2n (Qle_bool x v)
   = 2)%nat.
Proof.
  unfold Qltb. destruct (Qle_bool x v), (Qle_bool v x); reflexivity.
Qed.

Lemma rank_cross (x : Q) (vs : list Q) :
  (count_lt (map Some vs) x + count_le (map Some vs) x
   + list_sum (map (fun v => b2n (Qltb x v) + b2n (Qle_bool x v)) vs)
   = 2 * List.length vs)%nat.
Proof.
  induction vs as [| v vs IH]; simpl map; [reflexivity |].
  rewrite count_lt_cons, count_le_cons. simpl list_sum. simpl List.length.
  pose proof (pair_count x v). lia.
Qed.

Lemma rank_total_cons (x : Q) (a : list (option Q)) (vs : list Q) :
  rank_total (Some x :: a) vs
  = (list_sum (map (fun v => b2n (Qltb x v) + b2n (Qle_bool x v)) vs)
     + rank_total a vs)%nat.
Proof.
  unfold rank_total. induction vs as [| v vs IH]; simpl; [reflexivity |].
  rewrite IH, count_lt_cons, count_le_cons. lia.
Qed.

(** The ranks of n values add up to n squared when each value counts the
    values below it and the values at most equal to it. *)
Lemma rank_total_square (vs : list Q) :
  rank_total (map Some vs) vs = (List.length vs * List.length vs)%nat.
Proof.
  induction vs as [| x vs IH]; [reflexivity |].
  simpl map. rewrite rank_total_cons.
  change (rank_total (map Some vs) (x :: vs))
    with (count_lt (map Some vs) x + count_le (map Some vs) x
          + rank_total (map Some vs) vs)%nat.
  change (list_sum (map (fun v => b2n (Qltb x v) + b2n (Qle_bool x v))
                      (x :: vs)))%nat
    with (b2n (Qltb x x) + b2n (Qle_bool x x)
          + list_sum (map (fun v => b2n (Qltb x v) + b2n (Qle_bool x v)) vs))%nat.
  rewrite IH.
  pose proof (rank_cross x vs) as C.
  assert (H1 : Qltb x x = false).
  { destruct (Qltb x x) eqn:E; trivial.
    apply Qltb_lt in E. now apply Qlt_irrefl in E. }
  assert (H2 : Qle_bool x x = true) by (apply Qle_bool_iff, Qle_refl).
  rewrite H1, H2. simpl b2n. simpl List.length. lia.
Qed.

Lemma no_missing_dropna (a : list (option Q)) :
  no_missing a ->
  map Some (dropna a) = a /\ List.length (dropna a) = List.length a.
Proof.
  induction 1 as [| x a Hx _ [IH1 IH2]]; simpl; [split; reflexivity |].
  destruct x as [v |]; [| now elim Hx].
  simpl. now rewrite IH1, IH2.
Qed.

Lemma Qdiv_plus (x y d : Q) : x / d + y / d == (x + y) / d.
Proof. unfold Qdiv. ring. Qed.

Lemma inject_nat_plus (x y : nat) :
  inject_Z (Z.of_nat (x + y))
  == inject_Z (Z.of_nat x) + inject_Z (Z.of_nat y).
Proof. now rewrite Nat2Z.inj_add, inject_Z_plus. Qed.

Lemma rank_percentile_sum (a : list (option Q)) (vs : list Q) :
  Qsum (map (rank_percentile a) vs)
  == inject_Z (Z.of_nat (rank_total a vs + List.length vs))
     / inject_Z (Z.of_nat (2 * List.length a)).
Proof.
  induction vs as [| v vs IH].
  - simpl. unfold Qdiv. ring.
  - simpl map. simpl Qsum. rewrite IH. unfold rank_percentile.
    rewrite Qdiv_plus. rewrite <- inject_nat_plus.
    replace (count_lt a v + count_le a v + 1
             + (rank_total a vs + List.length vs))%nat
      with (rank_total a (v :: vs) + List.length (v :: vs))%nat.
    + reflexivity.
    + unfold rank_total. simpl. lia.
Qed.

Lemma percentile_value_row (m : metric) (u : universe) (r : row) (v : Q) :
  In r u -> metric_of m r = Some v ->
  percentile_value m (percentile_row u r)
  == rank_percentile (column m u) v.
Proof.
  intros Hin Hv. unfold percentile_value.
  rewrite percentile_row_cell, Hv.
  assert (Hcol : In (Some v) (column m u))
    by (rewrite <- Hv; now apply in_map).
  destruct (percentileofscore_member (column m u) v Hcol) as (p & -> & Hp).
  exact Hp.
Qed.

Lemma percentile_values_sum (m : metric) (u l : universe) :
  incl l u -> no_missing (column m l) ->
  Qsum (map (fun r => percentile_value m (percentile_row u r)) l)
  == Qsum (map (rank_percentile (column m u)) (dropna (column m l))).
Proof.
  intros Hi Hc. induction l as [| r l IH]; [reflexivity |].
  unfold column in Hc. simpl in Hc.
  inversion Hc as [| ? ? Hr Hl]; subst.
  destruct (metric_of m r) as [v |] eqn:E; [| now elim Hr].
  simpl map. unfold column. simpl map. rewrite E. simpl dropna.
  simpl map. simpl Qsum.
  rewrite (percentile_value_row m u r v (Hi r (or_introl eq_refl)) E).
  rewrite IH; [reflexivity | | exact Hl].
  intros x Hx. apply Hi. now right.
Qed.

Lemma Qhalf_of_square (n : Q) : 0 < n -> (n * n + n) / (2 * n) == (n + 1) / 2.
Proof. intro H. field. lra. Qed.

Lemma percentile_values_total (u : universe) (m : metric)
  (Hc : no_missing (column m u)) (Hne : u <> []) :
  Qsum (percentile_values m (percentile_stage u))
  == (inject_Z (Z.of_nat (List.length u)) + 1) / 2.
Proof.
  unfold percentile_values. rewrite percentile_stage_map, map_map.
  rewrite (percentile_values_sum m u u (incl_refl u) Hc).
  rewrite rank_percentile_sum.
  destruct (no_missing_dropna (column m u) Hc) as [E1 E2].
  rewrite <- E1 at 1. rewrite rank_total_square, E2.
  unfold column. rewrite length_map.
  set (n := List.length u).
  assert (Hn : (0 < n)%nat) by (unfold n; destruct u; [congruence | simpl; lia]).
  rewrite inject_nat_plus, Nat2Z.inj_mul, inject_Z_mult, inject_nat_double.
  apply Qhalf_of_square. now apply inject_nat_pos.
Qed.

(** X20. The percentiles of a metric column add up to (n + 1) / 2 for a
    universe of n rows without a missing value in the column, whatever the
    values and however many of them are tied: the mean percentile is always
    (n + 1) / (2 n). *)
Theorem percentile_sum_invariant (u : universe) (m : metric)
  (Hc : no_missing (column m u)) (Hne : u <> []) :
  Qsum (percentile_values m (percentile_stage u))
  == (inject_Z (Z.of_nat (List.length u)) + 1) / 2.
Proof. exact (percentile_values_total u m Hc Hne). Qed.

Lemma percentile_sum_invariant_witness :
  no_missing (column PE tied_pair)
  /\ tied_pair <> []
  /\ Qsum (percentile_values PE (percentile_stage tied_pair))
     == (inject_Z (Z.of_nat (List.length tied_pair)) + 1) / 2.
Proof.
  assert (Hc : no_missing (column PE tied_pair))
    by (repeat constructor; discriminate).
  assert (Hne : tied_pair <> []) by discriminate.
  split; [exact Hc |]. split; [exact Hne |].
  exact (percentile_sum_invariant tied_pair PE Hc Hne).
Defined.

(** ** The mean RV score *)

Lemma ranked_row_score_value (u : universe) (r' : row) :
  (forall m, no_missing (column m u)) ->
  In r' (percentile_stage u) ->
  exists s,
    rv_score_row (Some metrics_keys) r' = Ok (set_RV_Score (Computed (Some s)) r')
    /\ s == (percentile_value PE r' + percentile_value PB r'
             + percentile_value PS r' + percentile_value EVEBITDA r'
             + percentile_value EVGP r') / 5.
Proof.
  intros Hc Hin.
  destruct (percentile_stage_row PE u r' (Hc PE) Hin)
    as (v1 & p1 & _ & _ & E1 & _).
  destruct (percentile_stage_row PB u r' (Hc PB) Hin)
    as (v2 & p2 & _ & _ & E2 & _).
  destruct (percentile_stage_row PS u r' (Hc PS) Hin)
    as (v3 & p3 & _ & _ & E3 & _).
  destruct (percentile_stage_row EVEBITDA u r' (Hc EVEBITDA) Hin)
    as (v4 & p4 & _ & _ & E4 & _).
  destruct (percentile_stage_row EVGP u r' (Hc EVGP) Hin)
    as (v5 & p5 & _ & _ & E5 & _).
  unfold percentile_value. rewrite E1, E2, E3, E4, E5.
  simpl in E1, E2, E3, E4, E5.
  eexists. split; [apply (rv_score_row_defined r' p1 p2 p3 p4 p5); assumption |].
  apply Qmean5.
Qed.

Lemma score_values_sum (u rows out : universe) :
  (forall m, no_missing (column m u)) ->
  incl rows (percentile_stage u) ->
  rv_score_stage (Some metrics_keys) rows = Ok out ->
  Qsum (map score_value out)
  == (Qsum (percentile_values PE rows) + Qsum (percentile_values PB rows)
      + Qsum (percentile_values PS rows)
      + Qsum (percentile_values EVEBITDA rows)
      + Qsum (percentile_values EVGP rows)) / 5.
Proof.
  intros Hc Hi Ho. apply rv_score_stage_rows in Ho.
  induction Ho as [| r r' rows out Hr _ IH].
  - simpl. unfold Qdiv. ring.
  - destruct (ranked_row_score_value u r Hc (Hi r (or_introl eq_refl)))
      as (s & Hs & Hmean).
    rewrite Hs in Hr. injection Hr as <-.
    unfold percentile_values in *. simpl map. simpl Qsum.
    change (score_value (set_RV_Score (Computed (Some s)) r)) with s.
    rewrite IH by (intros x Hx; apply Hi; now right).
    rewrite Hmean. unfold Qdiv. ring.
Qed.

(** X21. The mean RV score. When every metric column of a non-empty frame
    of n rows has a value, the RV scores the three cells compute add up to
    (n + 1) / 2: the mean RV score of the universe is (n + 1) / (2 n)
    whatever the data. *)
Theorem rv_score_sum_invariant (df : universe)
  (Hv : forall c, has_value c df) (Hne : df <> []) :
  exists out,
    rv_pipeline df = Ok out
    /\ Qsum (map score_value out)
       == (inject_Z (Z.of_nat (List.length df)) + 1) / 2.
Proof.
  unfold rv_pipeline. set (u := impute df).
  assert (Hc : forall m, no_missing (column m u))
    by (intro m; apply impute_no_missing, Hv).
  assert (Hlen : List.length u = List.length df) by apply impute_length.
  assert (Hu : u <> []).
  { intro E. rewrite E in Hlen. destruct df; [congruence | discriminate]. }
  destruct (rv_score_stage_ranked (percentile_stage u)) as (out & Ho).
  { rewrite percentile_stage_map. apply Forall_forall. intros r' Hin.
    apply in_map_iff in Hin. destruct Hin as (r & <- & _).
    intro m. apply percentile_row_computed. }
  exists out. split; [exact Ho |].
  rewrite (score_values_sum u (percentile_stage u) out Hc
             (incl_refl _) Ho).
  assert (S : forall m,
             Qsum (percentile_values m (percentile_stage u))
             == (inject_Z (Z.of_nat (List.length u)) + 1) / 2)
    by (intro m; apply percentile_values_total; [apply Hc | exact Hu]).
  rewrite !S, Hlen. field.
Qed.

Lemma rv_score_sum_invariant_witness :
  (forall c, has_value c tied_pair)
  /\ tied_pair <> []
  /\ exists out,
       rv_pipeline tied_pair = Ok out
       /\ Qsum (map score_value out)
          == (inject_Z (Z.of_nat (List.length tied_pair)) + 1) / 2.
Proof.
  assert (Hv : forall c, has_value c tied_pair).
  { intro c.
    exists (nth 0 tied_pair (fresh_row "" None None None None None None)).
    split; [simpl; tauto | destruct c; discriminate]. }
  assert (Hne : tied_pair <> []) by discriminate.
  split; [exact Hv |]. split; [exact Hne |].
  exact (rv_score_sum_invariant tied_pair Hv Hne).
Defined.

(** ** The notebook from the frame to the shares *)

Lemma rv_score_stage_rows_scored (rows out : universe) :
  rv_score_stage (Some metrics_keys) rows = Ok out ->
  map Price out = map Price rows /\ Forall scored out.
Proof.
  intro H. apply rv_score_stage_rows in H.
  induction H as [| r r' rows out Hr _ [IH1 IH2]]; simpl.
  - split; [reflexivity | constructor].
  - destruct (rv_score_row_shape r r' Hr) as (s & ->).
    split; [now rewrite IH1 |].
    constructor; [exists s; reflexivity | exact IH2].
Qed.

Lemma frame_preserved_prices (l l' : universe) :
  Forall2 frame_preserved l l' -> map Price l' = map Price l.
Proof.
  induction 1 as [| r r' l l' (_ & P & _) _ IH]; simpl; [reflexivity |].
  now rewrite P, IH.
Qed.

(** The rows the three cells return: those of the frame, in order, with
    their tickers and prices, each carrying a score. *)
Lemma rv_pipeline_rows (df : universe) :
  exists out,
    rv_pipeline df = Ok out
    /\ map Ticker out = map Ticker df
    /\ map Price out = map Price df
    /\ Forall scored out.
Proof.
  unfold rv_pipeline. set (u := impute df).
  destruct (rv_score_stage_ranked (percentile_stage u)) as (out & Ho).
  { rewrite percentile_stage_map. apply Forall_forall. intros r' Hin.
    apply in_map_iff in Hin. destruct Hin as (r & <- & _).
    intro m. apply percentile_row_computed. }
  exists out. split; [exact Ho |].
  destruct (rv_score_stage_data _ _ Ho) as [HT _].
  destruct (rv_score_stage_rows_scored _ _ Ho) as [HP HS].
  split; [| split; [| exact HS]].
  - rewrite HT, percentile_stage_map, map_map.
    rewrite (map_ext (fun x => Ticker (percentile_row u x)) Ticker)
      by (intros [? ? ? ? ? ? ? ? ? ? ? ? ? ?]; reflexivity).
    unfold u. apply frame_preserved_tickers, impute_preserves_frame.
  - rewrite HP, percentile_stage_map, map_map.
    rewrite (map_ext (fun x => Price (percentile_row u x)) Price)
      by (intros [? ? ? ? ? ? ? ? ? ? ? ? ? ?]; reflexivity).
    unfold u. apply frame_preserved_prices, impute_preserves_frame.
Qed.

Lemma select_top_exists (n : nat) (df : universe) :
  Forall scored df -> exists out, select_top n df out.
Proof.
  intro H. exists (firstn n (stable_sort_by_score df)).
  exists (stable_sort_by_score df).
  split; [now apply stable_sort_is_sort_values | reflexivity].
Qed.

Lemma select_top_part (n : nat) (df out : universe) :
  select_top n df out ->
  List.length out = Nat.min n (List.length df) /\ incl out df.
Proof.
  intros (sorted & (Hp & Hs) & ->). split.
  - rewrite length_firstn. now rewrite (Permutation_length Hp).
  - intros x Hx. eapply Permutation_in; [apply Permutation_sym, Hp |].
    rewrite <- (firstn_skipn n sorted). apply in_or_app. now left.
Qed.

(** X22. From any frame to a selection. Whatever the frame holds,
    imputation, ranking and scoring return a frame on which the selection
    exists, and every selection has min(50, n) rows, each of them a row of
    the scored frame whose ticker is a ticker of the universe. *)
Theorem pipeline_then_selector (df : universe) :
  exists out,
    rv_pipeline df = Ok out
    /\ (exists selection, selector out selection)
    /\ forall selection, selector out selection ->
         List.length selection = Nat.min 50 (List.length df)
         /\ incl selection out
         /\ incl (map Ticker selection) (map Ticker df).
Proof.
  destruct (rv_pipeline_rows df) as (out & Ho & HT & _ & HS).
  exists out. split; [exact Ho |]. split.
  - now apply select_top_exists.
  - intros selection Hsel.
    destruct (select_top_part 50 out selection Hsel) as [L I].
    split; [| split; [exact I |]].
    + rewrite L. f_equal.
      rewrite <- (length_map Ticker out), HT. apply length_map.
    + rewrite <- HT. intros t Ht. apply in_map_iff in Ht.
      destruct Ht as (r & <- & Hr). apply in_map, I, Hr.
Qed.

Lemma pipeline_then_selector_witness :
  exists out selection,
    rv_pipeline two_scored = Ok out
    /\ selector out selection
    /\ List.length selection = Nat.min 50 (List.length two_scored).
Proof.
  destruct (pipeline_then_selector two_scored) as (out & Ho & (sel & Hs) & H).
  exists out, sel. split; [exact Ho |]. split; [exact Hs |].
  exact (proj1 (H sel Hs)).
Defined.

Lemma priced_of_prices (P : Q -> Prop) (l l' : universe) :
  map Price l' = map Price l ->
  Forall (priced P) l -> Forall (priced P) l'.
Proof.
  revert l'. induction l as [| r l IH]; intros [| r' l'] E H;
    try discriminate; constructor; simpl in E; injection E as E1 E2;
    inversion H as [| ? ? (p & Hp & HP) Hl]; subst.
  - exists p. split; [congruence | exact HP].
  - now apply IH.
Qed.

(** X23. The notebook from the frame to the shares. For a non-empty frame
    whose prices are all positive and an entry that reads as a positive
    number B, magnitudes being within the range of binary64, nothing
    raises: the three cells return a scored frame, a selection exists, and
    on every selection the allocation succeeds, writes shares for the
    selected rows in their order and allocates a value of at most
    B * (1 + 2^-53)^2. *)
Theorem notebook_allocates_within_budget
  (dtype : price_dtype) (entry : string) (B : Q) (df : universe)
  (Hf : float entry = Ok (Finite B)) (HB : 0 < B)
  (Hne : df <> [])
  (Hr : in_float64_range
          (B / inject_Z (Z.of_nat (Nat.min 50 (List.length df)))))
  (Hp : Forall
          (priced (fun p =>
                     0 < p
                     /\ tradable
                          (B / inject_Z
                                 (Z.of_nat (Nat.min 50 (List.length df))))
                          p))
          df) :
  exists out,
    rv_pipeline df = Ok out
    /\ (exists selection, selector out selection)
    /\ forall selection, selector out selection ->
         exists allocated,
           allocation dtype entry selection = Ok allocated
           /\ map Ticker allocated = map Ticker selection
           /\ allocated_value allocated
              <= B * (1 + unit_roundoff) * (1 + unit_roundoff).
Proof.
  destruct (rv_pipeline_rows df) as (out & Ho & HT & HP & HS).
  exists out. split; [exact Ho |]. split; [now apply select_top_exists |].
  intros selection Hsel.
  destruct (select_top_part 50 out selection Hsel) as [L I].
  assert (Hlen : List.length out = List.length df)
    by (rewrite <- (length_map Ticker out), HT; apply length_map).
  rewrite Hlen in L. rewrite <- L in Hr, Hp.
  assert (Hout : Forall
                   (priced (fun p =>
                      0 < p
                      /\ tradable
                           (B / inject_Z (Z.of_nat (List.length selection)))
                           p))
                   out)
    by (eapply priced_of_prices; eauto).
  assert (Hsp : Forall
                  (priced (fun p =>
                     0 < p
                     /\ tradable
                          (B / inject_Z (Z.of_nat (List.length selection)))
                          p))
                  selection).
  { clear - Hout I. rewrite Forall_forall in *. intros r Hr.
    apply Hout, I, Hr. }
  assert (Hsne : selection <> []).
  { intro E. rewrite E in L. change (List.length (@nil row)) with O in L.
    assert (Hpos : (0 < List.length df)%nat)
      by (destruct df; [congruence | simpl; lia]).
    clear - L Hpos. lia. }
  assert (Hsl : (Z.of_nat (List.length selection) <= 2 ^ 53)%Z).
  { change (2 ^ 53)%Z with 9007199254740992%Z. clear - L. lia. }
  destruct (allocation_spend dtype entry B selection Hf HB Hsne Hsl Hr Hsp)
    as (allocated & Ha & -> & _ & Hv & _).
  eexists. split; [exact Ha |]. split; [| exact Hv].
  rewrite map_map. apply map_ext. intro r. reflexivity.
Qed.

Lemma notebook_allocates_within_budget_witness :
  float "1000" = Ok (Finite 1000)
  /\ 0 < 1000
  /\ tied_pair <> []
  /\ exists out,
       rv_pipeline tied_pair = Ok out
       /\ exists selection, selector out selection.
Proof.
  destruct tied_pair_tradable as (Hf & _ & Hr & Hp).
  assert (HB : 0 < 1000) by reflexivity.
  assert (Hne : tied_pair <> []) by discriminate.
  split; [exact Hf |]. split; [exact HB |]. split; [exact Hne |].
  destruct (notebook_allocates_within_budget object_dtype "1000" 1000
              tied_pair Hf HB Hne Hr Hp) as (out & Ho & Hs & _).
  exists out. split; [exact Ho | exact Hs].
Defined.
